(** * Recovery-mode OTA installer: install.c, recovery.c, extra.c and
    recovery_ui.c

    A shallow embedding of the package installer ([install.c]), of the
    recovery command flow and the menus ([recovery.c]), of the helpers
    for descriptors, child processes, directories and bitmaps
    ([extra.c]) and of the keys of the device ([recovery_ui.c]).  C
    strings and file contents are lists of characters, C [int]s are
    [Z], files live in a finite map from paths to contents, and every
    call into a collaborator that is not part of these files (archive
    library, signature verifier, script interpreter, mount table, child
    process, kernel, display) is an oracle of the environment whose
    invocation is recorded in an event trace. *)

From Stdlib Require Import ZArith Ascii String Lia.
From stdpp Require Import gmap strings list pretty.


(** ** The C library, as far as the two files use it *)

Module CLib.

(** A character buffer.  Where the code looks at a buffer as a C
    string, [cstr] cuts it at the first NUL. *)
Abbreviation chars := (list ascii).

Definition cs (s : string) : chars := list_ascii_of_string s.

Definition NUL : ascii := "000"%char.
Definition LF : ascii := "010"%char.
Definition CR : ascii := "013"%char.
Definition SP : ascii := " "%char.

Definition EOF : Z := (-1)%Z.

Definition code (c : ascii) : Z := Z.of_N (N_of_ascii c).

Definition ceq (a b : ascii) : bool := Ascii.eqb a b.

Fixpoint mem (c : ascii) (set : chars) : bool :=
  match set with
  | [] => false
  | d :: set' => ceq c d || mem c set'
  end.

(** [isspace] in the C locale: space, and the controls 9..13. *)
Definition isspace (c : ascii) : bool :=
  ((code c =? 32) || ((9 <=? code c) && (code c <=? 13)))%Z.

Fixpoint cstr (buf : chars) : chars :=
  match buf with
  | [] => []
  | c :: r => if ceq c NUL then [] else c :: cstr r
  end.

(** [strtok]: [span_in] skips leading delimiters, [span_out] takes the
    token.  The delimiter that ends the token is overwritten and
    skipped; the saved position is what follows it. *)
Fixpoint span_in (delim s : chars) : chars :=
  match s with
  | [] => []
  | c :: r => if mem c delim then span_in delim r else s
  end.

Fixpoint span_out (delim s : chars) : chars * chars :=
  match s with
  | [] => ([], [])
  | c :: r =>
      if mem c delim then ([], r)
      else let '(tok, rest) := span_out delim r in (c :: tok, rest)
  end.

(** [strtok delim s]: [None] is the NULL return (no token left). *)
Definition strtok (delim s : chars) : option (chars * chars) :=
  match span_in delim s with
  | [] => None
  | s' => Some (span_out delim s')
  end.

(** All the tokens repeated [strtok] calls find; every call uses up
    at least one character, so [length s] turns reach the end. *)
Fixpoint tokens (turns : nat) (delim s : chars) : list chars :=
  match turns with
  | O => []
  | S turns' =>
      match strtok delim s with
      | None => []
      | Some (tok, rest) => tok :: tokens turns' delim rest
      end
  end.

Definition all_tokens (delim s : chars) : list chars :=
  tokens (length s) delim s.

(** The buffers successive [fgets (buf, size, f)] calls return on a
    stream: each holds at most [size - 1] characters and ends after the
    first newline.  [cur] is the buffer being filled (reversed), [room]
    the number of characters it can still take. *)
Fixpoint fgets_go (size : nat) (cur : chars) (room : nat) (s : chars)
  : list chars :=
  match s with
  | [] => match cur with [] => [] | _ => [rev cur] end
  | c :: r =>
      if ceq c LF then rev (c :: cur) :: fgets_go size [] (size - 1) r
      else match room with
           | S (S room') => fgets_go size (c :: cur) (S room') r
           | _ => rev (c :: cur) :: fgets_go size [] (size - 1) r
           end
  end.

Definition fgets_all (size : nat) (s : chars) : list chars :=
  fgets_go size [] (size - 1) s.

(** [strlcpy] and [strlcat] into a field of [size] bytes keep at most
    [size - 1] characters. *)
Definition strlcpy (size : nat) (src : chars) : chars :=
  take (size - 1) src.

Definition strlcat (size : nat) (dst src : chars) : chars :=
  dst ++ take (size - 1 - length dst) src.

(** *** [fscanf] *)

Inductive directive :=
| DWhite
| DLit (c : ascii)
| DInt.

(** The format strings of [load_keys] use white space, ordinary
    characters and [%i] only. *)
Fixpoint parse_format (fmt : chars) : list directive :=
  match fmt with
  | [] => []
  | c :: r =>
      if isspace c then DWhite :: parse_format r
      else match r with
           | i :: r' =>
               if ceq c "%" && ceq i "i" then DInt :: parse_format r'
               else DLit c :: parse_format r
           | [] => [DLit c]
           end
  end.

Fixpoint skip_space (s : chars) : chars :=
  match s with
  | [] => []
  | c :: r => if isspace c then skip_space r else s
  end.

(** The value of [c] as a digit in [base], if it is one. *)
Definition digit_val (base : Z) (c : ascii) : option Z :=
  let k := code c in
  let v := (if (48 <=? k) && (k <=? 57) then k - 48
            else if (97 <=? k) && (k <=? 102) then k - 87
            else if (65 <=? k) && (k <=? 70) then k - 55
            else base)%Z in
  if (v <? base)%Z then Some v else None.

Definition is_digit (base : Z) (c : ascii) : bool :=
  match digit_val base c with Some _ => true | None => false end.

Fixpoint scan_digits (base acc : Z) (s : chars) : Z * chars :=
  match s with
  | [] => (acc, [])
  | c :: r =>
      match digit_val base c with
      | Some d => scan_digits base (acc * base + d)%Z r
      | None => (acc, s)
      end
  end.

(** The digits of a [%i] field, base chosen by prefix as [strtol] with
    base 0 does: [0x] before a hexadecimal digit, a leading [0] for
    octal, decimal otherwise.  At least one digit is required; an [x]
    that no hexadecimal digit follows is left unread behind the [0]. *)
Definition scan_unsigned (s : chars) : option (Z * chars) :=
  match s with
  | [] => None
  | c :: r =>
      if ceq c "0" then
        match r with
        | x :: h :: r' =>
            if (ceq x "x" || ceq x "X") && is_digit 16 h
            then Some (scan_digits 16 0 (h :: r'))
            else Some (scan_digits 8 0 r)
        | _ => Some (scan_digits 8 0 r)
        end
      else if is_digit 10 c then Some (scan_digits 10 0 s)
      else None
  end.

(** What is stored in an [int]: the low 32 bits of the value, as a
    signed number. *)
Definition to_int (z : Z) : Z :=
  ((z + 2147483648) mod 4294967296 - 2147483648)%Z.

Definition INTMAX_MAX : Z := 9223372036854775807.
Definition INTMAX_MIN : Z := (-9223372036854775808)%Z.

(** What [strtoimax] answers for the number [z]: [z] when it fits 64
    bits, the nearest of [INTMAX_MIN] and [INTMAX_MAX] when not. *)
Definition saturate (z : Z) : Z :=
  Z.max INTMAX_MIN (Z.min z INTMAX_MAX).

(** The [int] a [%i] stores for the number [z] it has read: the
    scanner converts the digits to the widest integer, as
    [strtoimax] does, and the assignment to the [int] keeps the low
    32 bits.  A number beyond 64 bits is stored as -1 or as 0. *)
Definition stored (z : Z) : Z := to_int (saturate z).

Inductive conversion :=
| Converted (v : Z) (rest : chars)
| MatchFailure (rest : chars)
| InputFailure.

(** [%i]: white space is skipped, then an optional sign, then the
    digits; the field is read to its last digit, whatever its
    length. *)
Definition scan_int (s : chars) : conversion :=
  match skip_space s with
  | [] => InputFailure
  | c :: r =>
      if ceq c "-" then
        match scan_unsigned r with
        | Some (v, rest) => Converted (stored (- v)) rest
        | None => MatchFailure r
        end
      else if ceq c "+" then
        match scan_unsigned r with
        | Some (v, rest) => Converted (stored v) rest
        | None => MatchFailure r
        end
      else
        match scan_unsigned (c :: r) with
        | Some (v, rest) => Converted (stored v) rest
        | None => MatchFailure (c :: r)
        end
  end.

(** The return value of a [fscanf] that stops after [vals] were
    assigned; [eof] says that it stopped on an input failure. *)
Definition scanf_count (vals : list Z) (eof : bool) : Z :=
  match vals with
  | [] => if eof then EOF else 0%Z
  | _ => Z.of_nat (length vals)
  end.

Fixpoint run_directives (ds : list directive) (s : chars) (vals : list Z)
  : Z * list Z * chars :=
  match ds with
  | [] => (scanf_count vals false, vals, s)
  | DWhite :: ds' => run_directives ds' (skip_space s) vals
  | DLit c :: ds' =>
      match s with
      | [] => (scanf_count vals true, vals, [])
      | c' :: r =>
          if ceq c c' then run_directives ds' r vals
          else (scanf_count vals false, vals, s)
      end
  | DInt :: ds' =>
      match scan_int s with
      | Converted v rest => run_directives ds' rest (vals ++ [v])
      | MatchFailure rest => (scanf_count vals false, vals, rest)
      | InputFailure => (scanf_count vals true, vals, [])
      end
  end.

(** [fscanf f fmt]: the count returned, the values assigned in order,
    and the stream that is left. *)
Definition fscanf (f : chars) (fmt : string) : Z * list Z * chars :=
  run_directives (parse_format (cs fmt)) f [].

Definition fgetc (f : chars) : Z * chars :=
  match f with
  | [] => (EOF, [])
  | c :: r => (code c, r)
  end.

End CLib.

(** ** install.c *)

Module Install.
Import CLib.
Local Open Scope Z_scope.

(** *** Key store

    [RSAPublicKey] comes from [mincrypt/rsa.h], which fixes the number
    of words [RSANUMWORDS] of the arrays [n] and [rr]. *)

Record RSAPublicKey := {
  len : Z;
  n0inv : Z;
  n : list Z;
  rr : list Z
}.

Section KeyStore.

Variable RSANUMWORDS : nat.

(** [for (i = 1; i < key->len; ++i)
       if (fscanf(f, " , %i", &(key->n[i])) != 1) goto exit;]
    with [count] iterations to go; [None] is the [goto exit]. *)
Fixpoint scan_words (count : nat) (f : chars) : option (list Z * chars) :=
  match count with
  | O => Some ([], f)
  | S count' =>
      let '(got, vals, f) := fscanf f " , %i" in
      if negb (got =? 1) then None
      else match scan_words count' f with
           | Some (ws, f) => Some (nth 0 vals 0 :: ws, f)
           | None => None
           end
  end.

(** One turn of the [while (!done)] loop up to the [switch]: the
    fields of the next key and the stream behind them, [None] for
    [goto exit]. *)
Definition scan_key (f : chars) : option (RSAPublicKey * chars) :=
  let '(got, vals, f) := fscanf f " { %i , %i , { %i" in
  if negb (got =? 3) then None
  else
    let key_len := nth 0 vals 0 in
    let key_n0inv := nth 1 vals 0 in
    let n_0 := nth 2 vals 0 in
    if negb (key_len =? Z.of_nat RSANUMWORDS) then None
    else
      match scan_words (Z.to_nat (key_len - 1)) f with
      | None => None
      | Some (ns, f) =>
          let '(got, vals, f) := fscanf f " } , { %i" in
          if negb (got =? 1) then None
          else
            let rr_0 := nth 0 vals 0 in
            match scan_words (Z.to_nat (key_len - 1)) f with
            | None => None
            | Some (rs, f) =>
                let '(_, _, f) := fscanf f " } } " in
                Some ({| len := key_len; n0inv := key_n0inv;
                         n := n_0 :: ns; rr := rr_0 :: rs |}, f)
            end
      end.

(** What [load_keys] hands back: the array ([None] is NULL) and
    [*numKeys]. *)
Definition keys_result : Type := option (list RSAPublicKey) * Z.

Definition load_keys_exit : keys_result := (None, 0).

(** The [while (!done)] loop.  Every turn reads at least one
    character, so the length of the file bounds the number of turns;
    the outer [None] is a turn count that was too small. *)
Fixpoint load_keys_loop (turns : nat) (f : chars)
    (out : list RSAPublicKey) (numKeys : Z) : option keys_result :=
  match turns with
  | O => None
  | S turns' =>
      let numKeys := numKeys + 1 in
      match scan_key f with
      | None => Some load_keys_exit
      | Some (key, f) =>
          let out := out ++ [key] in
          let '(c, f) := fgetc f in
          if c =? code "," then load_keys_loop turns' f out numKeys
          else if c =? EOF then Some (Some out, numKeys)
          else Some load_keys_exit
      end
  end.

(** [load_keys]; [file] is the contents of the key file, [None] when
    [fopen] fails. *)
Definition load_keys (file : option chars) : option keys_result :=
  match file with
  | None => Some load_keys_exit
  | Some f => load_keys_loop (S (length f)) f [] 0
  end.

End KeyStore.

(** *** Results, archive, events *)

(** Modelled from the spec: [install.h] is not under src/.  The spec
    lists the outcomes as the enumeration SUCCESS, ERROR, CORRUPT with
    SUCCESS the 0-equivalent, hence the C enumeration values 0, 1, 2. *)
Definition INSTALL_SUCCESS : Z := 0.
Definition INSTALL_ERROR : Z := 1.
Definition INSTALL_CORRUPT : Z := 2.

Definition ASSUMED_UPDATE_BINARY_NAME : chars :=
  cs "META-INF/com/google/android/update-binary".
Definition ASSUMED_UPDATE_SCRIPT_NAME : chars :=
  cs "META-INF/com/google/android/update-script".
Definition PUBLIC_KEYS_FILE : chars := cs "/res/keys".

(** An entry of the archive, as the archive library answers about it:
    [uncompLen], the bytes [mzReadZipEntry] delivers ([readable] says
    whether it succeeds) and whether [mzExtractZipEntryToFile]
    succeeds. *)
Record ZipEntry := {
  uncompLen : Z;
  contents : chars;
  readable : bool;
  extractable : bool
}.

(** [mzFindZipEntry zip name] is [zip !! name]. *)
Abbreviation ZipArchive := (gmap chars ZipEntry).

(** How the child ended: [WIFEXITED] and [WEXITSTATUS]. *)
Record wait_status := {
  WIFEXITED : bool;
  WEXITSTATUS : Z
}.

(** The line the script diagnostic shows for [%s]. *)
Inductive shown_line :=
| LineText (text : chars)
| LineNotFound
| LineNull.

(** The fixed texts of [ui_print], [LOGE] and [LOGI], named by what
    they say. *)
Inductive message :=
| PreparingInstall
| OpeningPackage
| VerifyingPackage
| InstallingUpdate
| UpdateLocation (root_path : chars)
| UpdateFilePath (path : chars)
| KeysLoaded (numKeys : Z)
| VerifyReturned (err : Z)
| CantMount (root_path : chars)
| BadPath (root_path : chars)
| CantLoadKeys
| CantOpenPackage (path : chars) (err : Z)
| SignatureFailed
| CantFindScript
| CantSetUpRoot
| BadDataLength (len : Z)
| CantAllocate (bytes : Z)
| CantReadData
| CantReadScript
| ScriptSyntaxError
| ScriptParsed
| ScriptLineError (num : Z) (line : shown_line)
| CantCreate (path : chars)
| CantCopy (name : chars)
| DuplicateFirmware
| UnknownCommand (command : chars)
| ChildFailed (path : chars) (status : Z)
| FirmwareNotInPackage (name : chars)
| CantStat (filename : chars)
| FirmwareInfo (type : chars) (size : Z) (filename : chars)
| CantReadFromPackage (name : chars)
| CantOpenFile (filename : chars)
| CantReadFirmware
| CantSaveFirmware (type : chars).

(** What the installer does to the world outside, in order. *)
Inductive event :=
| LogE (m : message)
| LogI (m : message)
| UiPrint (m : message)
| UiPrintText (text : chars)
| UiSetBackgroundInstalling
| UiShowIndeterminateProgress
| UiShowVerificationProgress
| UiShowProgress (fraction_s seconds_s : chars)
| UiSetProgress (fraction_s : chars)
| OpenZipArchive (path : chars)
| CloseZipArchive
| FreeKeys
| RegisterPackageRoot (package : option chars)
| ParseAmendScript (script : chars)
| ExecCommandList
| Unlink (path : chars)
| Creat (path : chars)
| ExtractToFile (name : chars)
| ForkExec (args : list chars)
| Waitpid
| RememberFirmware (type data : chars) (size : Z).

(** Computations that append to the event trace; [None] is a run that
    the C code does not survive (a NULL handed to [strtof] or
    [strtol]). *)
Definition M (A : Type) : Type := list event -> option (A * list event).

#[export] Instance M_ret : MRet M := fun A a t => Some (a, t).
#[export] Instance M_bind : MBind M := fun A B k m t =>
  match m t with
  | Some (a, t') => k a t'
  | None => None
  end.

Definition emit (e : event) : M unit := fun t => Some (tt, t ++ [e]).
Definition crash {A : Type} : M A := fun _ => None.

Definition streq (a b : chars) : bool := bool_decide (a = b).

Definition to_uint (z : Z) : Z := z mod 4294967296.

(** *** The collaborators

    Everything [install.c] calls that lives outside it.  Results are
    functions of the arguments; that the call happened is recorded by
    the caller in the trace. *)
Record Env := {
  RSANUMWORDS : nat;
  RECOVERY_API_VERSION : chars;
  ensure_root_path_mounted : chars -> Z;
  translate_root_path : chars -> option chars;
  (** contents of [PUBLIC_KEYS_FILE]; [None] when it cannot be opened *)
  keys_file : option chars;
  (** the error code, and the archive when the code is 0 *)
  mzOpenZipArchive : chars -> Z * ZipArchive;
  verify_jar_signature : ZipArchive -> list RSAPublicKey -> Z -> bool;
  AmCommandList : Type;
  parseAmendScript : chars -> Z -> option AmCommandList;
  execCommandList : AmCommandList -> Z;
  (** result of [register_package_root (zip, path)] *)
  register_package_root : ZipArchive -> chars -> Z;
  (** does [malloc] of that many bytes succeed *)
  malloc : Z -> bool;
  creat : chars -> Z;
  (** the write end of the pipe, as [sprintf "%d"] prints it *)
  pipe_write_fd : chars;
  (** what the child given these arguments writes to the pipe, and
      how it ends *)
  child : list chars -> chars * wait_status;
  (** [st_size] of a file; [None] when [stat] fails *)
  stat : chars -> option Z;
  (** contents of a file; [None] when [fopen] fails *)
  fopen : chars -> option chars;
  remember_firmware_update : chars -> chars -> Z -> Z
}.

Section Installer.

Variable env : Env.

Definition find_update_script (zip : ZipArchive) : option ZipEntry :=
  zip !! ASSUMED_UPDATE_SCRIPT_NAME.

(** [read_data]: the return value, [*ppData] and [*pLength]. *)
Definition read_data (entry : ZipEntry) : M (Z * chars * Z) :=
  let len := to_int (uncompLen entry) in
  if len <=? 0 then
    _ ← emit (LogE (BadDataLength len)); mret (-1, [], 0)
  else if negb (malloc env (len + 1)) then
    _ ← emit (LogE (CantAllocate (len + 1))); mret (-2, [], 0)
  else if negb (readable entry) then
    _ ← emit (LogE CantReadData); mret (-3, [], 0)
  else mret (0, take (Z.to_nat len) (contents entry), len).

(** [memchr (line, '\n', ...)]: the text before the first newline and
    what follows it. *)
Fixpoint split_newline (s : chars) : option (chars * chars) :=
  match s with
  | [] => None
  | c :: r =>
      if ceq c LF then Some ([], r)
      else match split_newline r with
           | Some (before, after) => Some (c :: before, after)
           | None => None
           end
  end.

(** The [while (next != NULL && ret-- > 0)] loop of
    [handle_update_script] with [ret] turns to go.  [line] is the
    text [%s] would print at the pointer [line] ([None] for NULL),
    [next] the rest of the buffer at the pointer [next]. *)
Fixpoint locate_line (ret : nat) (line next : option chars)
  : option chars * option chars :=
  match next, ret with
  | Some from, S ret' =>
      match split_newline from with
      | Some (before, after) =>
          locate_line ret' (Some (cstr before)) (Some after)
      | None => locate_line ret' (Some (cstr from)) None
      end
  | _, _ => (line, next)
  end.

Definition script_diagnostic (script_data : chars) (ret : Z) : shown_line :=
  match locate_line (Z.to_nat ret) None (Some script_data) with
  | (_, None) => LineNotFound
  | (Some line, Some _) => LineText line
  | (None, Some _) => LineNull
  end.

Definition handle_update_script (zip : ZipArchive)
    (update_script_entry : ZipEntry) : M Z :=
  '(rc, script_data, script_len) ← read_data update_script_entry;
  if rc <? 0 then
    _ ← emit (LogE CantReadScript); mret INSTALL_ERROR
  else
    _ ← emit (ParseAmendScript script_data);
    match parseAmendScript env script_data script_len with
    | None => _ ← emit (LogE ScriptSyntaxError); mret INSTALL_ERROR
    | Some commands =>
        _ ← emit (LogI ScriptParsed);
        _ ← emit ExecCommandList;
        let ret := execCommandList env commands in
        if negb (ret =? 0) then
          _ ← emit (LogE (ScriptLineError ret
                            (script_diagnostic script_data ret)));
          mret INSTALL_ERROR
        else mret INSTALL_SUCCESS
    end.

Definition handle_firmware_update (type filename : chars)
    (zip : ZipArchive) : M Z :=
  let finish (entry : option ZipEntry) (data_size : Z) : M Z :=
    _ ← emit (LogI (FirmwareInfo type data_size filename));
    if negb (malloc env data_size) then
      _ ← emit (LogI (CantAllocate data_size)); mret INSTALL_ERROR
    else
      let remember (data : chars) : M Z :=
        _ ← emit (RememberFirmware type data data_size);
        if negb (remember_firmware_update env type data data_size =? 0)
        then _ ← emit (LogE (CantSaveFirmware type)); mret INSTALL_ERROR
        else mret INSTALL_SUCCESS in
      match entry with
      | Some e =>
          if negb (readable e) then
            _ ← emit (LogE (CantReadFromPackage (drop 8 filename)));
            mret INSTALL_ERROR
          else remember (take (Z.to_nat data_size) (contents e))
      | None =>
          match fopen env filename with
          | None =>
              _ ← emit (LogE (CantOpenFile filename)); mret INSTALL_ERROR
          | Some f =>
              let data := take (Z.to_nat data_size) f in
              if negb (Z.of_nat (length data) =? data_size) then
                _ ← emit (LogE CantReadFirmware); mret INSTALL_ERROR
              else remember data
          end
      end in
  if streq (take 8 filename) (cs "PACKAGE:") then
    match zip !! drop 8 filename with
    | None =>
        _ ← emit (LogE (FirmwareNotInPackage (drop 8 filename)));
        mret INSTALL_ERROR
    | Some e => finish (Some e) (to_uint (uncompLen e))
    end
  else
    match stat env filename with
    | None => _ ← emit (LogE (CantStat filename)); mret INSTALL_ERROR
    | Some st_size => finish None (to_uint st_size)
    end.


(** The pending firmware request of [try_update_binary]: the pair
    of [firmware_type] and [firmware_filename], which the code sets
    together; [None] while both are NULL. *)
Definition pending : Type := option (chars * chars).

(** [strtok (NULL, delim)] on what the previous call left; the token
    ([None] for NULL) and what is left now. *)
Definition strtok_next (delim rest : chars) : option chars * chars :=
  match strtok delim rest with
  | Some (tok, rest') => (Some tok, rest')
  | None => (None, [])
  end.

(** The body of the [while (fgets (...) != NULL)] loop, on one
    buffer that [fgets] filled. *)
Definition protocol_line (buffer : chars) (fw : pending) : M pending :=
  match strtok (cs " " ++ [LF]) (cstr buffer) with
  | None => mret fw
  | Some (command, rest) =>
      if streq command (cs "progress") then
        let '(fraction_s, rest) := strtok_next (cs " " ++ [LF]) rest in
        let '(seconds_s, rest) := strtok_next (cs " " ++ [LF]) rest in
        match fraction_s, seconds_s with
        | Some fraction_s, Some seconds_s =>
            _ ← emit (UiShowProgress fraction_s seconds_s); mret fw
        | _, _ => crash
        end
      else if streq command (cs "set_progress") then
        let '(fraction_s, rest) := strtok_next (cs " " ++ [LF]) rest in
        match fraction_s with
        | Some fraction_s => _ ← emit (UiSetProgress fraction_s); mret fw
        | None => crash
        end
      else if streq command (cs "firmware") then
        let '(type, rest) := strtok_next (cs " " ++ [LF]) rest in
        let '(filename, rest) := strtok_next (cs " " ++ [LF]) rest in
        match type, filename with
        | Some type, Some filename =>
            match fw with
            | Some _ => _ ← emit (LogE DuplicateFirmware); mret fw
            | None => mret (Some (type, filename))
            end
        | _, _ => mret fw
        end
      else if streq command (cs "ui_print") then
        let '(str, rest) := strtok_next [LF] rest in
        match str with
        | Some str => _ ← emit (UiPrintText str); mret fw
        | None => _ ← emit (UiPrintText [LF]); mret fw
        end
      else
        _ ← emit (LogE (UnknownCommand command)); mret fw
  end.

Fixpoint protocol_loop (buffers : list chars) (fw : pending) : M pending :=
  match buffers with
  | [] => mret fw
  | buffer :: buffers' =>
      fw ← protocol_line buffer fw; protocol_loop buffers' fw
  end.

Definition update_binary_path : chars := cs "/tmp/update_binary".

Definition try_update_binary (path : chars) (zip : ZipArchive) : M Z :=
  match zip !! ASSUMED_UPDATE_BINARY_NAME with
  | None => mret INSTALL_CORRUPT
  | Some binary_entry =>
      let binary := update_binary_path in
      _ ← emit (Unlink binary);
      _ ← emit (Creat binary);
      if creat env binary <? 0 then
        _ ← emit (LogE (CantCreate binary)); mret 1
      else
        _ ← emit (ExtractToFile ASSUMED_UPDATE_BINARY_NAME);
        if negb (extractable binary_entry) then
          _ ← emit (LogE (CantCopy ASSUMED_UPDATE_BINARY_NAME)); mret 1
        else
          let args := [binary; RECOVERY_API_VERSION env;
                       pipe_write_fd env; path] in
          _ ← emit (ForkExec args);
          let '(from_child, status) := child env args in
          fw ← protocol_loop (fgets_all 1024 from_child) None;
          _ ← emit Waitpid;
          if negb (WIFEXITED status) || negb (WEXITSTATUS status =? 0) then
            _ ← emit (LogE (ChildFailed path (WEXITSTATUS status)));
            mret INSTALL_ERROR
          else
            match fw with
            | Some (firmware_type, firmware_filename) =>
                handle_firmware_update firmware_type firmware_filename zip
            | None => mret INSTALL_SUCCESS
            end
  end.

Definition handle_update_package (path : chars) (zip : ZipArchive) : M Z :=
  _ ← emit (UiPrint InstallingUpdate);
  result ← try_update_binary path zip;
  _ ← emit (RegisterPackageRoot None);
  if negb (result =? INSTALL_SUCCESS) && negb (result =? INSTALL_ERROR)
  then
    match find_update_script zip with
    | None => _ ← emit (LogE CantFindScript); mret INSTALL_CORRUPT
    | Some script_entry =>
        _ ← emit (RegisterPackageRoot (Some path));
        if register_package_root env zip path <? 0 then
          _ ← emit (LogE CantSetUpRoot); mret INSTALL_ERROR
        else
          result ← handle_update_script zip script_entry;
          _ ← emit (RegisterPackageRoot None);
          mret result
    end
  else mret result.

Definition install_package (root_path : chars) : M Z :=
  _ ← emit UiSetBackgroundInstalling;
  _ ← emit (UiPrint PreparingInstall);
  _ ← emit UiShowIndeterminateProgress;
  _ ← emit (LogI (UpdateLocation root_path));
  if negb (ensure_root_path_mounted env root_path =? 0) then
    _ ← emit (LogE (CantMount root_path)); mret INSTALL_CORRUPT
  else
    match translate_root_path env root_path with
    | None => _ ← emit (LogE (BadPath root_path)); mret INSTALL_CORRUPT
    | Some path =>
        _ ← emit (UiPrint OpeningPackage);
        _ ← emit (LogI (UpdateFilePath path));
        match load_keys (RSANUMWORDS env) (keys_file env) with
        | None => crash (* never: [load_keys] gives enough turns *)
        | Some (None, _) =>
            _ ← emit (LogE CantLoadKeys); mret INSTALL_CORRUPT
        | Some (Some loadedKeys, numKeys) =>
            _ ← emit (LogI (KeysLoaded numKeys));
            _ ← emit (UiPrint VerifyingPackage);
            _ ← emit UiShowVerificationProgress;
            _ ← emit (OpenZipArchive path);
            let '(err, zip) := mzOpenZipArchive env path in
            if negb (err =? 0) then
              _ ← emit (LogE (CantOpenPackage path err));
              mret INSTALL_CORRUPT
            else
              let err : Z :=
                if verify_jar_signature env zip loadedKeys numKeys
                then 1 else 0 in
              _ ← emit FreeKeys;
              _ ← emit (LogI (VerifyReturned err));
              if negb (err =? 1) then
                _ ← emit (LogE SignatureFailed); mret INSTALL_CORRUPT
              else
                status ← handle_update_package path zip;
                _ ← emit CloseZipArchive;
                mret status
        end
    end.

End Installer.

(** *** Key files, by their grammar *)

Definition COMMA : ascii := ","%char.













(** *** The lines of a script *)

(** The source lines of a buffer: the texts between its newlines,
    and the text behind the last newline when there is some. *)
Fixpoint source_lines (s : chars) : list chars :=
  match s with
  | [] => []
  | c :: r =>
      if ceq c LF then [] :: source_lines r
      else match source_lines r with
           | [] => [[c]]
           | line :: lines => (c :: line) :: lines
           end
  end.

Fixpoint newlines (s : chars) : nat :=
  match s with
  | [] => 0
  | c :: r => if ceq c LF then S (newlines r) else newlines r
  end.

(** *** Reading the protocol lines by their tokens *)

(** The blank-separated tokens of a buffer the loop reads. *)
Definition line_tokens (buffer : chars) : list chars :=
  all_tokens (cs " " ++ [LF]) (cstr buffer).

(** The request a buffer makes when it is a complete
    [firmware <type> <filename>] line. *)
Definition firmware_request (buffer : chars) : option (chars * chars) :=
  match line_tokens buffer with
  | verb :: type :: filename :: _ =>
      if streq verb (cs "firmware") then Some (type, filename) else None
  | _ => None
  end.







(** The warnings one buffer adds. *)
Definition warned (fw : pending) (buffer : chars) : nat :=
  match fw, firmware_request buffer with
  | Some _, Some _ => 1
  | _, _ => 0
  end.


(** *** Reading the trace *)

(** The arguments of the child, and what [try_update_binary] does up
    to the [fork]. *)
Definition child_args (env : Env) (path : chars) : list chars :=
  [update_binary_path; RECOVERY_API_VERSION env; pipe_write_fd env; path].

Definition launch_events (env : Env) (path : chars) : list event :=
  [Unlink update_binary_path; Creat update_binary_path;
   ExtractToFile ASSUMED_UPDATE_BINARY_NAME; ForkExec (child_args env path)].

(** The payload of a firmware request, as the request names it: for
    [PACKAGE:name] the entry [name] of the archive, which must be
    there and be read; for another name the file of that name, which
    [stat] and [fopen] must accept and which must hold the [st_size]
    bytes.  The size is that of the entry or of the file, as an
    [unsigned int], and [malloc] must give that many bytes.  [None]
    is a payload that cannot be had. *)
Definition firmware_payload (env : Env) (zip : ZipArchive)
    (filename : chars) : option (chars * Z) :=
  if streq (take 8 filename) (cs "PACKAGE:") then
    match zip !! drop 8 filename with
    | None => None
    | Some e =>
        let size := to_uint (uncompLen e) in
        if malloc env size && readable e
        then Some (take (Z.to_nat size) (contents e), size)
        else None
    end
  else
    match stat env filename, fopen env filename with
    | Some st_size, Some f =>
        let size := to_uint st_size in
        let data := take (Z.to_nat size) f in
        if malloc env size && (Z.of_nat (length data) =? size)%Z
        then Some (data, size)
        else None
    | _, _ => None
    end.

(** The events of a request that was handed to the store. *)
Definition stored_events (type filename data : chars) (size : Z)
  : list event :=
  [LogI (FirmwareInfo type size filename); RememberFirmware type data size].

Definition is_remember (e : event) : bool :=
  match e with RememberFirmware _ _ _ => true | _ => false end.

(** The events only [handle_update_package] and what it calls
    produce. *)
Definition is_install_event (e : event) : bool :=
  match e with
  | UiPrint InstallingUpdate
  | RegisterPackageRoot _
  | ParseAmendScript _
  | ExecCommandList
  | Unlink _
  | Creat _
  | ExtractToFile _
  | ForkExec _
  | Waitpid
  | RememberFirmware _ _ _ => true
  | _ => false
  end.

(** A step of [install_package] before the dispatch fails. *)
Inductive pre_dispatch_failure (env : Env) (root_path : chars) : Prop :=
| mount_fails :
    ensure_root_path_mounted env root_path <> 0%Z ->
    pre_dispatch_failure env root_path
| resolve_fails :
    translate_root_path env root_path = None ->
    pre_dispatch_failure env root_path
| keys_fail :
    (forall keys numKeys,
        load_keys (RSANUMWORDS env) (keys_file env)
        <> Some (Some keys, numKeys)) ->
    pre_dispatch_failure env root_path
| open_fails path :
    translate_root_path env root_path = Some path ->
    fst (mzOpenZipArchive env path) <> 0%Z ->
    pre_dispatch_failure env root_path
| verify_fails path keys numKeys :
    translate_root_path env root_path = Some path ->
    load_keys (RSANUMWORDS env) (keys_file env) = Some (Some keys, numKeys) ->
    verify_jar_signature env (snd (mzOpenZipArchive env path)) keys numKeys
    = false ->
    pre_dispatch_failure env root_path.

Definition count_event (p : event -> bool) (trace : list event) : nat :=
  length (filter (fun e => p e = true) trace).

Definition is_open (e : event) : bool :=
  match e with OpenZipArchive _ => true | _ => false end.

Definition is_close (e : event) : bool :=
  match e with CloseZipArchive => true | _ => false end.

End Install.

(** ** recovery.c *)

Module Recovery.
Import CLib.

Definition COMMAND_FILE : chars := cs "CACHE:recovery/command".
Definition INTENT_FILE : chars := cs "CACHE:recovery/intent".
Definition LOG_FILE : chars := cs "CACHE:recovery/log".
Definition TEMPORARY_LOG_FILE : chars := cs "/tmp/recovery.log".

Definition MAX_ARG_LENGTH : nat := 4096.
Definition MAX_ARGS : nat := 100.

(** [struct bootloader_message] of [bootloader.h]: three character
    arrays.  A field is kept as the text up to its first NUL. *)
Record bootloader_message := {
  command : chars;
  status : chars;
  recovery : chars
}.

(** [memset (&boot, 0, sizeof (boot))] *)
Definition zeroed : bootloader_message :=
  {| command := []; status := []; recovery := [] |}.

Inductive message :=
| BootCommand
| BootStatus
| GotArgsFromBootMessage
| BadBootMessage
| GotArgsFromCommandFile
| CantMount (root_path : chars)
| BadPath (root_path : chars)
| CantOpen (name : chars)
| CantUnlink (name : chars).

Inductive event :=
| LogE (m : message)
| LogI (m : message)
| LogW (m : message)
| Sync.

(** The collaborators of [recovery.c], and the sizes [bootloader.h]
    gives the fields of the control block. *)
Record Env := {
  sizeof_command : nat;
  sizeof_recovery : nat;
  (** does [get_bootloader_message] succeed *)
  bcb_readable : bool;
  ensure_root_path_mounted : chars -> Z;
  translate_root_path : chars -> option chars;
  (** does [fopen] for writing or appending succeed on this path *)
  fopen_writable : chars -> bool;
  (** does [unlink] of an existing file fail *)
  unlink_refused : chars -> bool;
  (** have [freopen (TEMPORARY_LOG_FILE, "a", stdout)] and
      [freopen (TEMPORARY_LOG_FILE, "a", stderr)] of [main]
      succeeded *)
  streams_reopened : bool;
  (** what [LOGE], [LOGI] and [LOGW] write to [stdout] or [stderr]
      for a message; the macros are in [common.h], which is not
      among the sources *)
  printed : event -> chars
}.

(** The state [recovery.c] works on: the bootloader control block,
    the files by path, the function-static [tmplog_offset] of
    [finish_recovery], and the calls that were made, in [trace]. *)
Record world := {
  bcb : bootloader_message;
  files : gmap chars chars;
  tmplog_offset : nat;
  trace : list event
}.

(** A call that is only kept in [trace]. *)
Definition note (e : event) (w : world) : world :=
  {| bcb := bcb w; files := files w; tmplog_offset := tmplog_offset w;
     trace := trace w ++ [e] |}.

Definition set_files (fs : gmap chars chars) (w : world) : world :=
  {| bcb := bcb w; files := fs; tmplog_offset := tmplog_offset w;
     trace := trace w |}.

Definition set_tmplog_offset (o : nat) (w : world) : world :=
  {| bcb := bcb w; files := files w; tmplog_offset := o;
     trace := trace w |}.

(** Modelled from the spec: [bootloader.c] is not under src/.  The
    control block is a persistent slot holding one message;
    [set_bootloader_message] replaces what it holds. *)
Definition set_bootloader_message (boot : bootloader_message) (w : world)
  : world :=
  {| bcb := boot; files := files w; tmplog_offset := tmplog_offset w;
     trace := trace w |}.

(** The temporary log grows by [extra].  When no file has its path
    any more, the stream writes to a file that was removed: nothing
    of it is seen under the path. *)
Definition append_tmplog (extra : chars) (w : world) : world :=
  match files w !! TEMPORARY_LOG_FILE with
  | Some tmplog =>
      set_files (<[TEMPORARY_LOG_FILE := tmplog ++ extra]> (files w)) w
  | None => w
  end.

Section Recovery.

Variable env : Env.

(** [LOGE], [LOGI] and [LOGW] are macros of [common.h], which is not
    among the sources; they are taken to write to [stdout] or
    [stderr].  [main] has reopened both onto the temporary log, for
    appending and without a buffer: what is logged is at the end of
    that file at once, also for the [finish_recovery] that copies
    it.  When the [freopen] has failed the text is lost. *)
Definition log (e : event) (w : world) : world :=
  let w := note e w in
  if streams_reopened env then append_tmplog (printed env e) w else w.

(** [get_bootloader_message]: on failure [boot] stays as the caller
    zeroed it. *)
Definition get_bootloader_message (w : world) : bootloader_message :=
  if bcb_readable env then bcb w else zeroed.

Inductive mode := ModeR | ModeW | ModeA.

(** [fopen_root_path]: the path of the stream that was opened
    ([None] for NULL) and the world, in which a file opened for
    writing is empty and one opened for appending exists. *)
Definition fopen_root_path (root_path : chars) (m : mode) (w : world)
  : option chars * world :=
  if negb (ensure_root_path_mounted env root_path =? 0)%Z then
    (None, log (LogE (CantMount root_path)) w)
  else
    match translate_root_path env root_path with
    | None => (None, log (LogE (BadPath root_path)) w)
    | Some path =>
        match m with
        | ModeR =>
            match files w !! path with
            | Some _ => (Some path, w)
            | None => (None, w)
            end
        | ModeW =>
            if fopen_writable env path
            then (Some path, set_files (<[path := []]> (files w)) w)
            else (None, w)
        | ModeA =>
            if fopen_writable env path
            then (Some path,
                  set_files (<[path := default [] (files w !! path)]>
                               (files w)) w)
            else (None, w)
        end
    end.

(** [fputs (s, fp)] on a stream opened for writing or appending.
    The streams are taken to write without an error: [check_and_fclose]
    has nothing to log. *)
Definition fputs (s path : chars) (w : world) : world :=
  set_files (<[path := default [] (files w !! path) ++ cstr s]> (files w)) w.

(** The arguments after ["recovery"] in the control block:
    [for ( *argc = 1; *argc < MAX_ARGS; ++*argc)] over
    [strtok (NULL, "\n")], with [count] turns to go. *)
Fixpoint boot_args (count : nat) (rest : chars) : list chars :=
  match count with
  | O => []
  | S count' =>
      match strtok [LF] rest with
      | None => []
      | Some (arg, rest') => arg :: boot_args count' rest'
      end
  end.

(** The arguments of the command file, one per buffer [fgets]
    fills: [strdup (strtok (buf, "\r\n"))].  [None] when [strtok]
    finds no token and [strdup] gets NULL. *)
Fixpoint file_args (buffers : list chars) : option (list chars) :=
  match buffers with
  | [] => Some []
  | buf :: buffers' =>
      match strtok [CR; LF] (cstr buf) with
      | None => None
      | Some (arg, _) =>
          match file_args buffers' with
          | Some args => Some (arg :: args)
          | None => None
          end
      end
  end.

(** The recovery field [get_args] writes back. *)
Definition recovery_field (argv : list chars) : chars :=
  fold_left
    (fun field arg =>
       strlcat (sizeof_recovery env)
         (strlcat (sizeof_recovery env) field arg) [LF])
    (drop 1 argv)
    (strlcpy (sizeof_recovery env) (cs "recovery" ++ [LF])).

Definition not_blank (field : chars) : bool :=
  match field with
  | [] => false
  | c :: _ => negb (code c =? 0)%Z && negb (code c =? 255)%Z
  end.

(** The steps of [get_args], in its order; [argv] holds [argc]
    arguments. *)

(* --- if arguments weren't supplied, look in the bootloader
   control block *)
Definition args_from_boot_message (boot : bootloader_message)
    (argv : list chars) (w : world) : list chars * world :=
  if (length argv <=? 1)%nat then
    (* boot.recovery[sizeof(boot.recovery) - 1] = '\0' *)
    let boot_recovery :=
      cstr (take (sizeof_recovery env - 1) (recovery boot)) in
    let refused :=
      if not_blank boot_recovery
      then (argv, log (LogE BadBootMessage) w)
      else (argv, w) in
    match strtok [LF] boot_recovery with
    | Some (arg, rest) =>
        if bool_decide (arg = cs "recovery") then
          (arg :: boot_args (MAX_ARGS - 1) rest,
           log (LogI GotArgsFromBootMessage) w)
        else refused
    | None => refused
    end
  else (argv, w).

(* --- if that doesn't work, try the command file.  [None] is a run
   that hands NULL to [strdup]. *)
Definition args_from_command_file (argv : list chars) (w : world)
  : option (list chars * world) :=
  if (length argv <=? 1)%nat then
    match fopen_root_path COMMAND_FILE ModeR w with
    | (Some path, w) =>
        let argv0 := hd [] argv in
        let content := default [] (files w !! path) in
        match file_args (take (MAX_ARGS - 1)
                           (fgets_all MAX_ARG_LENGTH content)) with
        | Some args =>
            Some (argv0 :: args, log (LogI GotArgsFromCommandFile) w)
        | None => None
        end
    | (None, w) => Some (argv, w)
    end
  else Some (argv, w).

(* --> write the arguments we have back into the bootloader
   control block *)
Definition persist_args (boot : bootloader_message) (argv : list chars)
    (w : world) : world :=
  set_bootloader_message
    {| command := strlcpy (sizeof_command env) (cs "boot-recovery");
       status := status boot;
       recovery := recovery_field argv |} w.

Definition get_args (argv : list chars) (w : world)
  : option (list chars * world) :=
  let boot := get_bootloader_message w in
  let w := if not_blank (command boot)
           then log (LogI BootCommand) w else w in
  let w := if not_blank (status boot)
           then log (LogI BootStatus) w else w in
  let '(argv, w) := args_from_boot_message boot argv w in
  match args_from_command_file argv w with
  | Some (argv, w) => Some (argv, persist_args boot argv w)
  | None => None
  end.

(** The [while (fgets (buf, sizeof (buf), tmplog)) fputs (buf, log)]
    loop: what reaches the log from the part of the temporary log
    that is read. *)
Definition copy_lines (unread : chars) : chars :=
  concat (map cstr (fgets_all 4096 unread)).

(** The steps of [finish_recovery], in its order. *)

(* By this point, we're ready to return to the main system... *)
Definition record_intent (send_intent : option chars) (w : world)
  : world :=
  match send_intent with
  | Some intent =>
      match fopen_root_path INTENT_FILE ModeW w with
      | (None, w) => log (LogE (CantOpen INTENT_FILE)) w
      | (Some fp, w) => fputs intent fp w
      end
  | None => w
  end.

(* Copy logs to cache so the system can find out what happened. *)
Definition copy_log (w : world) : world :=
  match fopen_root_path LOG_FILE ModeA w with
  | (None, w) => log (LogE (CantOpen LOG_FILE)) w
  | (Some log_fp, w) =>
      match files w !! TEMPORARY_LOG_FILE with
      | None => log (LogE (CantOpen TEMPORARY_LOG_FILE)) w
      | Some tmplog =>
          (* fseek (tmplog, tmplog_offset, SEEK_SET) *)
          let unread := drop (tmplog_offset w) tmplog in
          let w :=
            set_files (<[log_fp := default [] (files w !! log_fp)
                                     ++ copy_lines unread]> (files w)) w in
          (* tmplog_offset = ftell (tmplog) *)
          set_tmplog_offset (tmplog_offset w `max` length tmplog) w
      end
  end.

(* Remove the command file, so recovery won't repeat indefinitely. *)
Definition remove_command_file (w : world) : world :=
  if negb (ensure_root_path_mounted env COMMAND_FILE =? 0)%Z then
    log (LogW (CantUnlink COMMAND_FILE)) w
  else
    match translate_root_path env COMMAND_FILE with
    | None => log (LogW (CantUnlink COMMAND_FILE)) w
    | Some path =>
        match files w !! path with
        | None => w (* unlink fails with ENOENT *)
        | Some _ =>
            if unlink_refused env path
            then log (LogW (CantUnlink COMMAND_FILE)) w
            else set_files (delete path (files w)) w
        end
    end.

Definition finish_recovery (send_intent : option chars) (w : world)
  : world :=
  let w := record_intent send_intent w in
  let w := copy_log w in
  (* Reset the bootloader message to revert to a normal boot. *)
  let w := set_bootloader_message zeroed w in
  let w := remove_command_file w in
  note Sync w.

End Recovery.

(** *** Reading the state *)

(** ["recovery"] followed by every argument behind the program name,
    one per line. *)
Definition full_text (argv : list chars) : chars :=
  cs "recovery" ++ [LF] ++ concat (map (fun arg => arg ++ [LF]) (drop 1 argv)).

(** The recovery slot as [get_args] reads it. *)
Definition boot_recovery (env : Env) (w : world) : chars :=
  cstr (take (sizeof_recovery env - 1)
          (recovery (get_bootloader_message env w))).

(** A line of the command file that makes one argument: not empty,
    short enough for the buffer, and free of NUL, CR and LF. *)
Definition plain_line (line : chars) : Prop :=
  line <> [] /\ length line + 1 < MAX_ARG_LENGTH
  /\ Forall (fun c => mem c [NUL; CR; LF] = false) line.

Definition unlines (lines : list chars) : chars :=
  concat (map (fun line => line ++ [LF]) lines).

(** The arguments the control block supplies: the lines behind the
    first of its recovery slot, when the first is ["recovery"]. *)
Definition boot_message_args (env : Env) (w : world) : list chars :=
  match strtok [LF] (boot_recovery env w) with
  | Some (arg, rest) =>
      if bool_decide (arg = cs "recovery")
      then boot_args (MAX_ARGS - 1) rest else []
  | None => []
  end.

(** The contents of the command file, when it can be opened. *)
Definition command_file (env : Env) (w : world) : option chars :=
  if negb (ensure_root_path_mounted env COMMAND_FILE =? 0)%Z then None
  else match translate_root_path env COMMAND_FILE with
       | Some path => files w !! path
       | None => None
       end.

(** Two places of which none is the other's. *)
Definition differ (a b : option chars) : Prop :=
  forall p, a = Some p -> b <> Some p.

(** The four files [finish_recovery] touches are four different
    files. *)
Definition paths_apart (env : Env) : Prop :=
  let place := translate_root_path env in
  differ (Some TEMPORARY_LOG_FILE) (place INTENT_FILE)
  /\ differ (Some TEMPORARY_LOG_FILE) (place LOG_FILE)
  /\ differ (Some TEMPORARY_LOG_FILE) (place COMMAND_FILE)
  /\ differ (place LOG_FILE) (place INTENT_FILE)
  /\ differ (place LOG_FILE) (place COMMAND_FILE)
  /\ differ (place COMMAND_FILE) (place INTENT_FILE).

(** The path of the persistent log when [fopen_root_path] opens it
    for appending. *)
Definition log_opened (env : Env) : option chars :=
  if negb (ensure_root_path_mounted env LOG_FILE =? 0)%Z then None
  else match translate_root_path env LOG_FILE with
       | Some path => if fopen_writable env path then Some path else None
       | None => None
       end.

(** The temporary log as a reader finds it. *)
Definition tmplog (w : world) : chars :=
  default [] (files w !! TEMPORARY_LOG_FILE).

(** [w'] is [w] but for what was logged: the temporary log may have
    grown and the trace may be longer. *)
Definition logged_more (w w' : world) : Prop :=
  bcb w' = bcb w /\ tmplog_offset w' = tmplog_offset w
  /\ (forall p, p <> TEMPORARY_LOG_FILE -> files w' !! p = files w !! p)
  /\ tmplog w `prefix_of` tmplog w'.

(** [finish_recovery] has nothing to log about the command file: it
    can be looked for, and is not there or can be removed. *)
Definition command_file_goes (env : Env) (w : world) : Prop :=
  ensure_root_path_mounted env COMMAND_FILE = 0%Z
  /\ exists path,
       translate_root_path env COMMAND_FILE = Some path
       /\ (files w !! path = None \/ unlink_refused env path = false).

(** [finish_recovery] has nothing to log about the intent: there is
    none, or its file can be opened. *)
Definition intent_goes (env : Env) (send_intent : option chars) : Prop :=
  match send_intent with
  | None => True
  | Some _ =>
      ensure_root_path_mounted env INTENT_FILE = 0%Z
      /\ exists path,
           translate_root_path env INTENT_FILE = Some path
           /\ fopen_writable env path = true
  end.

Definition is_unlink_warning (e : event) : bool :=
  match e with
  | LogW (CantUnlink _) => true
  | _ => false
  end.

Definition unlink_warnings (t : list event) : nat :=
  length (filter (fun e => is_unlink_warning e = true) t).

(** What [copy_log] leaves in the files and in [tmplog_offset]. *)
Definition copied (w : world) : chars :=
  match files w !! TEMPORARY_LOG_FILE with
  | Some tmplog => copy_lines (drop (tmplog_offset w) tmplog)
  | None => []
  end.

Definition offset_after (w : world) : nat :=
  match files w !! TEMPORARY_LOG_FILE with
  | Some tmplog => tmplog_offset w `max` length tmplog
  | None => tmplog_offset w
  end.

End Recovery.

(** ** Sample inputs *)

Module Samples.
Import CLib Install.

(** [count] words with the text [word], separated by commas. *)
Definition key_words (word : chars) (count : nat) : chars :=
  word ++ concat (replicate (count - 1) (COMMA :: word)).

(** A key file as [DumpPublicKey] prints it: one key of 64 words. *)
Definition keys_text (len_text : chars) : chars :=
  cs "{" ++ len_text ++ cs ",0xc926ad21,{"
     ++ key_words (cs "1795090719") 64
     ++ cs "},{" ++ key_words (cs "-857949815") 64 ++ cs "}}" ++ [LF].

Definition sample_keys_file : chars := keys_text (cs "64").

Definition sample_key : RSAPublicKey :=
  {| len := 64; n0inv := -920212191;
     n := replicate 64 1795090719%Z;
     rr := replicate 64 (-857949815)%Z |}.

Definition entry_of (text : chars) : ZipEntry :=
  {| uncompLen := Z.of_nat (length text); contents := text;
     readable := true; extractable := true |}.

(** A script of three lines, the last one without a newline. *)
Definition sample_script : chars :=
  cs "show_progress 0.1 0" ++ [LF] ++ cs "format SYSTEM:" ++ [LF]
    ++ cs "copy_dir PACKAGE:system SYSTEM:".

Definition script_package : ZipArchive :=
  {[ ASSUMED_UPDATE_SCRIPT_NAME := entry_of sample_script ]}.

(** A package with a binary installer, a script and a radio image. *)
Definition binary_package : ZipArchive :=
  <[ ASSUMED_UPDATE_BINARY_NAME := entry_of (cs "#!") ]>
    (<[ cs "radio.img" := entry_of (cs "RADIO") ]> script_package).

Definition sample_path : chars := cs "/sdcard/update.zip".

Definition exited (code : Z) : wait_status :=
  {| WIFEXITED := true; WEXITSTATUS := code |}.

(** Collaborators that all succeed, around a package, a verdict of
    the verifier, a result of the interpreter and a child. *)
Definition sample_env (package : ZipArchive) (signed : bool)
    (script_result : Z) (child_output : chars) (status : wait_status)
  : Env :=
  {| RSANUMWORDS := 64;
     RECOVERY_API_VERSION := cs "2";
     ensure_root_path_mounted := fun _ => 0%Z;
     translate_root_path := fun _ => Some sample_path;
     keys_file := Some sample_keys_file;
     mzOpenZipArchive := fun _ => (0%Z, package);
     verify_jar_signature := fun _ _ _ => signed;
     AmCommandList := unit;
     parseAmendScript := fun _ _ => Some tt;
     execCommandList := fun _ => script_result;
     register_package_root := fun _ _ => 0%Z;
     malloc := fun _ => true;
     creat := fun _ => 3%Z;
     pipe_write_fd := cs "5";
     child := fun _ => (child_output, status);
     stat := fun _ => None;
     fopen := fun _ => None;
     remember_firmware_update := fun _ _ _ => 0%Z |}.

(** What a child that asks twice for a firmware update writes. *)
Definition firmware_twice : chars :=
  cs "progress 0.5 10" ++ [LF]
    ++ cs "firmware radio PACKAGE:radio.img" ++ [LF]
    ++ cs "firmware" ++ [LF]
    ++ cs "firmware hboot /sdcard/hboot.img" ++ [LF]
    ++ cs "ui_print done" ++ [LF].

(** The recovery side: the CACHE root is at /cache, everything can
    be written and removed, the control block has the sizes of
    [bootloader.h], and what is logged reaches the temporary log. *)
Definition recovery_env : Recovery.Env :=
  {| Recovery.sizeof_command := 32;
     Recovery.sizeof_recovery := 1024;
     Recovery.bcb_readable := true;
     Recovery.ensure_root_path_mounted := fun _ => 0%Z;
     Recovery.translate_root_path := fun root_path =>
       if bool_decide (take 6 root_path = cs "CACHE:")
       then Some (cs "/cache/" ++ drop 6 root_path) else None;
     Recovery.fopen_writable := fun _ => true;
     Recovery.unlink_refused := fun _ => false;
     Recovery.streams_reopened := true;
     Recovery.printed := fun e =>
       match e with
       | Recovery.LogE _ => cs "E:failed" ++ [LF]
       | Recovery.LogW _ => cs "W:failed" ++ [LF]
       | _ => cs "I:done" ++ [LF]
       end |}.

(** The same, but the command file cannot be removed. *)
Definition stubborn_env : Recovery.Env :=
  {| Recovery.sizeof_command := 32;
     Recovery.sizeof_recovery := 1024;
     Recovery.bcb_readable := true;
     Recovery.ensure_root_path_mounted := fun _ => 0%Z;
     Recovery.translate_root_path := Recovery.translate_root_path recovery_env;
     Recovery.fopen_writable := fun _ => true;
     Recovery.unlink_refused := fun _ => true;
     Recovery.streams_reopened := true;
     Recovery.printed := Recovery.printed recovery_env |}.

Definition command_path : chars := cs "/cache/recovery/command".

(** A world after boot: an empty control block, a temporary log and
    a command file that asks to wipe the data. *)
Definition recovery_world : Recovery.world :=
  {| Recovery.bcb := Recovery.zeroed;
     Recovery.files :=
       <[ Recovery.TEMPORARY_LOG_FILE :=
            cs "Starting recovery" ++ [LF] ]>
         (<[ command_path := cs "--wipe_data" ++ [LF] ]> ∅);
     Recovery.tmplog_offset := 0;
     Recovery.trace := [] |}.

(** An invocation with one argument of 1100 characters. *)
Definition long_argv : list chars :=
  [cs "recovery"; cs "--update_package=" ++ replicate 1100 "a"%char].

(** The environments and traces the examples below run in. *)
Definition failing_child : Env :=
  sample_env binary_package true 0 [] (exited 1).

Definition unsigned_package : Env :=
  sample_env binary_package false 0 [] (exited 0).

Definition asking_child : Env :=
  sample_env binary_package true 0 firmware_twice (exited 0).

Definition asked_events : list event :=
  launch_events asking_child sample_path
    ++ [UiShowProgress (cs "0.5") (cs "10"); LogE DuplicateFirmware;
        UiPrintText (cs "done")].

(** The interpreter stops at line 3 of the sample script. *)
Definition failing_script : Env :=
  sample_env script_package true 3 [] (exited 0).

Definition wipe_argv : list chars := [cs "recovery"; cs "--wipe_data"].

Definition wipe_world : Recovery.world :=
  Recovery.persist_args recovery_env Recovery.zeroed wipe_argv
    (Recovery.log recovery_env
       (Recovery.LogI Recovery.GotArgsFromCommandFile) recovery_world).

End Samples.

(** ** The display, the keys and the device: recovery_ui.c *)

Module RecoveryUI.
Import CLib.

(** The actions of [recovery_ui.h] and the key codes of
    [linux/input.h] that the program names.  Neither header is among
    the sources: their values are parameters. *)
Record Codes := {
  NO_ACTION : Z;
  HIGHLIGHT_UP : Z;
  HIGHLIGHT_DOWN : Z;
  SELECT_ITEM : Z;
  SELECT_BACK : Z;
  SELECT_LEFT : Z;
  SELECT_RIGHT : Z;
  KEY_DOWN : Z;
  KEY_UP : Z;
  KEY_ENTER : Z;
  KEY_CENTER : Z;
  BTN_MOUSE : Z;
  KEY_F21 : Z;
  KEY_BACK : Z;
  KEY_POWER : Z;
  KEY_LEFT : Z;
  KEY_SEND : Z;
  KEY_VOLUMEDOWN : Z;
  KEY_RIGHT : Z;
  KEY_END : Z;
  KEY_VOLUMEUP : Z;
  KEY_HOME : Z
}.

(** What a menu shows.  The texts are fixed by the program; the
    numbers are what [sprintf] puts into them. *)
Inductive headers :=
| ChooseZip
| ChooseBmp.

Inductive menu :=
| ConfirmWipe
| FileMenu (h : headers) (items : list chars)
| PartitionMenu (mbsd unallocated vfat ext3 swap : Z).

Inductive message :=
| WipingData
| DataWiped
| Formatting (root : chars)
| SdcardNotReady
| NeedVfat
| PressAgain
| CantOpenDirectory
| CantCloseDirectory
| NothingMatches
| NoScreenSize
| CantOpenBitmap (file : chars)
| SizeWarning (sx sy bx by_ : Z)
| CantConvertBitmap (file : chars)
| Output (text : chars).

Inductive event :=
| UiPrint (m : message)
| LogE (m : message)
| UiClearKeyQueue
| UiStartMenu (m : menu)
| UiModifyMenu (m : menu)
| UiMenuSelect (sel : Z)
| UiEndMenu
| UiSetBackgroundInstalling
| UiShowIndeterminateProgress
| DeviceWipeData
| FormatRootDevice (root : chars)
| Execvp (argv : list chars).

(** The number of items of a menu, [ui_menu_select] works on. *)
Definition menu_items (m : menu) : nat :=
  match m with
  | ConfirmWipe => 2
  | FileMenu _ items => length items
  | PartitionMenu _ _ _ _ _ => 3
  end.

(** A turn of the keys: what [ui_wait_key] returns, and what
    [ui_text_visible] answers right after it. *)
Definition keypress : Type := Z * Z.

Section Device.

Variable k : Codes.

(** [ui_menu_select] of [ui.c]: the selection the display settles on
    in a menu of that many items. *)
Variable ui_menu_select : nat -> Z -> Z.

Definition device_toggle_display (key_code : Z) : Z :=
  if (key_code =? KEY_HOME k)%Z then 1%Z else 0%Z.

Definition device_reboot_now (key_code : Z) : Z := 0%Z.

(** The [switch] takes the first label that is equal to the key. *)
Definition device_handle_key (key_code visible : Z) : Z :=
  if negb (visible =? 0)%Z then
    if (key_code =? KEY_DOWN k)%Z then HIGHLIGHT_DOWN k
    else if (key_code =? KEY_UP k)%Z then HIGHLIGHT_UP k
    else if ((key_code =? KEY_ENTER k) || (key_code =? KEY_CENTER k)
             || (key_code =? BTN_MOUSE k) || (key_code =? KEY_F21 k))%Z
    then SELECT_ITEM k
    else if ((key_code =? KEY_BACK k) || (key_code =? KEY_POWER k))%Z
    then SELECT_BACK k
    else if ((key_code =? KEY_LEFT k) || (key_code =? KEY_SEND k)
             || (key_code =? KEY_VOLUMEDOWN k))%Z
    then SELECT_LEFT k
    else if ((key_code =? KEY_RIGHT k) || (key_code =? KEY_END k)
             || (key_code =? KEY_VOLUMEUP k))%Z
    then SELECT_RIGHT k
    else NO_ACTION k
  else NO_ACTION k.

Definition device_perform_action (which : Z) : Z := which.

Definition device_wipe_data : Z := 0%Z.

(** The highlight after [--selected] or [++selected] and
    [ui_menu_select]; other actions leave it. *)
Definition move_highlight (items : nat) (action selected : Z)
  : Z * list event :=
  if (action =? HIGHLIGHT_UP k)%Z then
    let selected := to_int (selected - 1) in
    (ui_menu_select items selected, [UiMenuSelect selected])
  else if (action =? HIGHLIGHT_DOWN k)%Z then
    let selected := to_int (selected + 1) in
    (ui_menu_select items selected, [UiMenuSelect selected])
  else (selected, []).

(** The [switch] of [get_menu_selection]: the highlight, the chosen
    item and what the display was asked. *)
Definition menu_switch (items : nat) (action selected chosen_item : Z)
  : Z * Z * list event :=
  if ((action =? HIGHLIGHT_UP k) || (action =? HIGHLIGHT_DOWN k))%Z then
    let '(selected, moved) := move_highlight items action selected in
    (selected, chosen_item, moved)
  else if (action =? SELECT_ITEM k)%Z then (selected, selected, [])
  else (selected, chosen_item, []).

(** The [while (chosen_item < 0)] loop of [get_menu_selection] over
    the keys to come.  [None] when the keys end before an item is
    chosen: [ui_wait_key] keeps waiting. *)
Fixpoint menu_loop (items : nat) (menu_only : Z) (keys : list keypress)
    (selected chosen_item : Z) (shown : list event)
  : option Z * list keypress * list event :=
  if (chosen_item <? 0)%Z then
    match keys with
    | [] => (None, [], shown)
    | (key, visible) :: keys' =>
        let action := device_handle_key key visible in
        if (action <? 0)%Z then
          let '(selected, chosen_item, moved) :=
            menu_switch items action selected chosen_item in
          if (action =? SELECT_BACK k)%Z
          then (Some action, keys', shown ++ moved)
          else menu_loop items menu_only keys' selected chosen_item
                 (shown ++ moved)
        else if (menu_only =? 0)%Z
        then menu_loop items menu_only keys' selected action shown
        else menu_loop items menu_only keys' selected chosen_item shown
    end
  else (Some chosen_item, keys, shown).

(** [get_menu_selection]: the item, the keys that are left and what
    the display was asked. *)
Definition get_menu_selection (m : menu) (menu_only : Z)
    (keys : list keypress) : option Z * list keypress * list event :=
  let '(chosen_item, keys, shown) :=
    menu_loop (menu_items m) menu_only keys 0 (-1)
      [UiClearKeyQueue; UiStartMenu m] in
  match chosen_item with
  | Some _ => (chosen_item, keys, shown ++ [UiEndMenu])
  | None => (None, keys, shown)
  end.

End Device.

End RecoveryUI.

(** ** extra.c *)

Module Extra.
Import CLib RecoveryUI.

Local Open Scope Z_scope.

(** *** Descriptors *)

(** How the kernel answers one call of [read] or [write]: it moves at
    most [most] bytes, and at least one when one is asked for and can
    be moved, or it fails with -1. *)
Inductive answer :=
| Give (most : nat)
| Fail.

Definition granted (a : option answer) (count : nat) : option nat :=
  match a with
  | Some (Give most) => Some (count `min` (1 `max` most))%nat
  | Some Fail => None
  | None => Some count
  end.

(** A descriptor open for reading: the bytes still to come, and the
    answers to the next calls; when the answers are used up every call
    gets all it asks for. *)
Record descriptor := {
  unread : chars;
  answers : list answer
}.

(** [read (fd, buf, count)]: the return value, the bytes put into
    [buf], and the descriptor afterwards. *)
Definition read (count : nat) (d : descriptor) : Z * chars * descriptor :=
  match granted (head (answers d)) count with
  | Some n =>
      let got := take n (unread d) in
      (Z.of_nat (length got), got,
       {| unread := drop n (unread d); answers := tail (answers d) |})
  | None => (-1, [], {| unread := unread d; answers := tail (answers d) |})
  end.

(** A descriptor open for writing, without [O_TRUNC] or [O_APPEND]:
    the contents of the file, the offset, and the answers to come. *)
Record sink := {
  contents : chars;
  offset : nat;
  replies : list answer
}.

(** A file with [put] written over it from [offset] on. *)
Definition overlay (file : chars) (offset : nat) (put : chars) : chars :=
  take offset file ++ put ++ drop (offset + length put) file.

(** [write (fd, buf, count)] with [data] the [count] bytes at
    [buf]. *)
Definition write (data : chars) (s : sink) : Z * sink :=
  match granted (head (replies s)) (length data) with
  | Some n =>
      let put := take n data in
      (Z.of_nat (length put),
       {| contents := overlay (contents s) (offset s) put;
          offset := offset s + length put;
          replies := tail (replies s) |})
  | None => (-1, {| contents := contents s; offset := offset s;
                    replies := tail (replies s) |})
  end.

(** *** ensure_read, ensure_write *)

(** The [while (n < size)] loop of [ensure_read]; [data] is what has
    been put into the buffer.  Every turn that goes on has read a
    byte, so [size] turns are enough. *)
Fixpoint ensure_read_loop (turns : nat) (d : descriptor) (size n : Z)
    (data : chars) : option (Z * chars * descriptor) :=
  if n <? size then
    match turns with
    | O => None
    | S turns' =>
        let '(tmp, got, d) := read (Z.to_nat (size - n)) d in
        if tmp <=? 0 then Some (n, data, d)
        else ensure_read_loop turns' d size (n + tmp) (data ++ got)
    end
  else Some (n, data, d).

(** [ensure_read (fd, data, size)]: the return value, what was put
    into [data], and the descriptor afterwards. *)
Definition ensure_read (d : descriptor) (size : Z)
  : option (Z * chars * descriptor) :=
  '(n, data, d) ← ensure_read_loop (Z.to_nat size) d size 0 [];
  Some (if n =? size then 0 else -1, data, d).

Fixpoint ensure_write_loop (turns : nat) (s : sink) (data : chars)
    (size n : Z) : option (Z * sink) :=
  if n <? size then
    match turns with
    | O => None
    | S turns' =>
        let '(tmp, s) :=
          write (take (Z.to_nat (size - n)) (drop (Z.to_nat n) data)) s in
        if tmp <=? 0 then Some (n, s)
        else ensure_write_loop turns' s data size (n + tmp)
    end
  else Some (n, s).

(** [ensure_write (fd, data, size)]: the return value and the
    descriptor afterwards.  [None] when the block at [data] has fewer
    than [size] bytes. *)
Definition ensure_write (s : sink) (data : chars) (size : Z)
  : option (Z * sink) :=
  if Z.of_nat (length data) <? size then None
  else
    '(n, s) ← ensure_write_loop (Z.to_nat size) s data size 0;
    Some (if n =? size then 0 else -1, s).

(** *** Bitmaps *)

(** The headers are packed ([#pragma pack (1)]) and are read in
    place from the bytes of the file: the program is built for a
    little-endian machine on which [unsigned long] has 32 bits. *)
Definition sizeof_bmp_file_header : Z := 14.
Definition sizeof_bmp_data_header : Z := 40.

(** [struct bmp_file_header] *)
Definition at_type : Z := 0.
Definition at_file_size : Z := 2.
Definition at_file_r0 : Z := 6.
Definition at_file_r1 : Z := 8.
Definition at_data_offset : Z := 10.

(** [struct bmp_data_header], behind the file header *)
Definition at_x : Z := sizeof_bmp_file_header + 4.
Definition at_y : Z := sizeof_bmp_file_header + 8.
Definition at_depth : Z := sizeof_bmp_file_header + 14.
Definition at_compress : Z := sizeof_bmp_file_header + 16.

(** [struct rgbquad] *)
Definition sizeof_rgbquad : Z := 4.
Definition at_red : Z := 0.
Definition at_green : Z := 1.
Definition at_blue : Z := 2.

(** The byte at an offset of a block; [None] outside the block. *)
Definition peek (block : chars) (at_ : Z) : option Z :=
  if at_ <? 0 then None else code <$> block !! Z.to_nat at_.

Definition u16 (block : chars) (at_ : Z) : option Z :=
  b0 ← peek block at_;
  b1 ← peek block (at_ + 1);
  Some (b0 + 256 * b1).

Definition u32 (block : chars) (at_ : Z) : option Z :=
  b0 ← peek block at_;
  b1 ← peek block (at_ + 1);
  b2 ← peek block (at_ + 2);
  b3 ← peek block (at_ + 3);
  Some (b0 + 256 * b1 + 65536 * b2 + 16777216 * b3).

(** The character with that code, modulo 256. *)
Definition chr (z : Z) : ascii := ascii_of_N (Z.to_N (z mod 256)).

(** rgb888 to rgb565: the parameters are [unsigned char], the result
    is [unsigned short]. *)
Definition convert (r g b : Z) : Z :=
  let rr := Z.shiftr (r mod 256) 3 in
  let gg := Z.shiftr (g mod 256) 2 in
  let bb := Z.shiftr (b mod 256) 3 in
  Z.lor (Z.lor rr (Z.shiftl gg 5)) (Z.shiftl bb 11) mod 65536.

(** The loop of [bits], [turns] turns from [i] on, over the block
    [addr] points into at offset [base].  [None] when it reads
    outside the block or shifts by a negative count. *)
Fixpoint bits_loop (turns : nat) (block : chars) (base n i ret v : Z)
  : option Z :=
  match turns with
  | O => Some ret
  | S turns' =>
      let place := to_int (n + i) in
      if Z.rem place 8 <? 0 then None
      else
        byte ← peek block (base + Z.quot place 8);
        let t := Z.land byte (Z.shiftl 1 (Z.rem place 8)) in
        let ret := if t =? 0 then ret else Z.lor ret v in
        bits_loop turns' block base n (i + 1) ret (to_int (Z.shiftl v 1))
  end.

(** get c bits from addr+n as a little endian number *)
Definition bits (block : chars) (base n c : Z) : option Z :=
  bits_loop (Z.to_nat c) block base n 0 0 1.

(** What the functions of [extra.c] find around them. *)
Record Env := {
  codes : Codes;
  ui_menu_select : nat -> Z -> Z;
  (** how the kernel answers the reads and the writes on a path *)
  reading : chars -> list answer;
  writing : chars -> list answer;
  (** does [open (path, O_CREAT|O_WRONLY)] succeed *)
  creatable : chars -> bool;
  (** do [malloc] and [realloc] of that many bytes succeed *)
  malloc : Z -> bool;
  realloc : Z -> bool;
  (** what a cell of fresh memory holds *)
  garbage : nat -> Z;
  (** [/dev/graphics/fb0]: [None] when it cannot be opened, else what
      [ioctl (FBIOGET_VSCREENINFO)] returns, [xres] and [yres] *)
  fb0 : option (Z * Z * Z);
  (** [/dev/block/mmcblk0]: [None] when it cannot be opened, else
      what [ioctl (BLKGETSIZE64)] returns and the size it stores *)
  mmcblk0 : option (Z * Z);
  (** does [pipe] succeed *)
  pipe_ok : bool;
  (** does [fork] succeed *)
  fork_ok : bool;
  (** the standard output of the child that [fork] and [execvp] start
      with these arguments, as the parent reads it from the pipe *)
  spawn : list chars -> descriptor;
  (** the names [readdir] gives for a directory, again the same after
      [rewinddir]; [None] when [opendir] fails *)
  opendir : chars -> option (list chars);
  (** does [closedir] fail *)
  closedir_fails : chars -> bool;
  (** [S_ISDIR] of what [stat] stores for a path *)
  is_dir : chars -> bool
}.

Definition PATH_MAX : nat := 4096.

Section Extra.

Variable env : Env.

Definition get_screen_xy : option (Z * Z) :=
  match fb0 env with
  | None => None
  | Some (ret, xres, yres) =>
      if ret <? 0 then None else Some (to_int xres, to_int yres)
  end.

Definition get_sdcard_size : Z :=
  match mmcblk0 env with
  | None => 0
  | Some (ret, size) => if ret =? 0 then size else 0
  end.

(** A cell of an array of strings: fresh from [malloc], NULL, or the
    address of a string. *)
Inductive slot :=
| Fresh
| Null
| Ptr (s : chars).

(** [array[i] = v]; [None] outside the array. *)
Definition poke {A} (i : nat) (v : A) (array : list A) : option (list A) :=
  if decide (i < length array)%nat then Some (<[i := v]> array) else None.

(** The strings of an array up to its NULL; [None] when a cell before
    it was never set, or when there is no NULL. *)
Fixpoint strings (array : list slot) : option (list chars) :=
  match array with
  | [] => None
  | Fresh :: _ => None
  | Null :: _ => Some []
  | Ptr s :: rest => args ← strings rest; Some (s :: args)
  end.

(** [while (i) { argv[i] = args[i-1]; i--; }] *)
Fixpoint fill_argv (i : nat) (args : list chars) (argv : list slot)
  : option (list slot) :=
  match i with
  | O => Some argv
  | S i' =>
      arg ← args !! i';
      argv ← poke i (Ptr arg) argv;
      fill_argv i' args argv
  end.

(** The [for (;;)] loop of the parent in [execute]. *)
Fixpoint execute_loop (turns : nat) (fd : descriptor) (show : Z)
    (shown : list event) : option (list event) :=
  match turns with
  | O => None
  | S turns' =>
      let '(rdsz, buffer, fd) := read 64 fd in
      if rdsz <=? 0 then Some shown
      else execute_loop turns' fd show
             (if show =? 0 then shown
              else shown ++ [UiPrint (Output (cstr buffer))])
  end.

(** [execute (show, file, args)], with [args] NULL or the strings of
    an array that ends in NULL: what the display has shown when it
    returns.  When [fork] fails the parent is the only one to hold
    the pipe, and its first [read] ends the loop. *)
Definition execute (show : Z) (file : chars) (args : option (list chars))
    (shown : list event) : option (list event) :=
  let i := length (default [] args) in
  if negb (malloc env (4 * (Z.of_nat i + 2))) then Some shown
  else
    argv ← poke 0%nat (Ptr file) (replicate (i + 2) Fresh);
    argv ← poke (i + 1)%nat Null argv;
    argv ← fill_argv i (default [] args) argv;
    if negb (pipe_ok env) then Some shown
    else if negb (fork_ok env) then Some shown
    else
      argv ← strings argv;
      let fd := spawn env argv in
      execute_loop (S (length (unread fd))) fd show (shown ++ [Execvp argv]).

(** Does the loop of [enumerate_files_in_directory] go on to count
    or to store an entry.  The code copies the name of a directory
    to [fullFileName] without a test of its length: [None] is a name
    that does not fit, written beyond the array. *)
Definition listed (directory : chars) (extension : option chars)
    (d_name : chars) : option bool :=
  if bool_decide (head d_name = Some "."%char) then Some false
  else
    match extension with
    | Some extension =>
        let extLen := length extension in
        if (length d_name <? extLen)%nat then Some false
        else if bool_decide (drop (length d_name - extLen) d_name = extension)
        then Some true
        else Some false
    | None =>
        let fullFileName := directory ++ d_name in
        if (PATH_MAX <=? length fullFileName)%nat then None
        else Some (is_dir env fullFileName)
    end.

(** The first pass over the entries: [total]. *)
Fixpoint count_pass (directory : chars) (extension : option chars)
    (entries : list chars) (total : nat) : option nat :=
  match entries with
  | [] => Some total
  | d_name :: entries' =>
      go ← listed directory extension d_name;
      count_pass directory extension entries'
        (if go : bool then S total else total)
  end.

(** The second pass: [files] and [i].  [None] when [malloc] gives
    NULL or [files[i]] is outside the array. *)
Fixpoint store_pass (directory : chars) (extension : option chars)
    (entries : list chars) (files : list slot) (i : nat)
  : option (list slot) :=
  match entries with
  | [] => Some files
  | d_name :: entries' =>
      go ← listed directory extension d_name;
      if go : bool then
        if negb (malloc env (Z.of_nat (length directory + length d_name + 2)))
        then None
        else
          let path :=
            directory ++ d_name
              ++ match extension with None => ["/"%char] | Some _ => [] end in
          files ← poke i (Ptr path) files;
          store_pass directory extension entries' files (S i)
      else store_pass directory extension entries' files i
  end.

(** [enumerate_files_in_directory]: the array returned (NULL as
    [None]), [*numFiles], and what the display has shown. *)
Definition enumerate_files_in_directory (directory : chars)
    (extension : option chars) (shown : list event)
  : option (option (list slot) * nat * list event) :=
  match opendir env directory with
  | None => Some (None, 0%nat, shown ++ [UiPrint CantOpenDirectory])
  | Some entries =>
      total ← count_pass directory extension entries 0;
      files ←
        (if (total =? 0)%nat then Some []
         else
           if negb (malloc env (4 * (Z.of_nat total + 1))) then None
           else
             files ← poke total Null (replicate (total + 1) Fresh);
             store_pass directory extension entries files 0);
      let shown :=
        if closedir_fails env directory
        then shown ++ [LogE CantCloseDirectory] else shown in
      if (total =? 0)%nat then Some (None, 0%nat, shown)
      else Some (Some files, total, shown)
  end.

(** [free_string_array] walks to the NULL of the array: it must be
    there, behind cells that were set. *)
Definition free_string_array (array : option (list slot)) : option unit :=
  match array with
  | None => Some tt
  | Some array => _ ← strings array; Some tt
  end.

(** [array[i]] as a string. *)
Definition string_at (array : option (list slot)) (i : Z) : option chars :=
  array ← array;
  if i <? 0 then None
  else
    match array !! Z.to_nat i with
    | Some (Ptr s) => Some s
    | _ => None
    end.

(** [list[i] = strdup (array[i] + dir_len)] for the [count] first
    strings of an array; [strdup] is taken to succeed. *)
Fixpoint tails (dir_len : nat) (array : option (list slot)) (count : nat)
  : option (list chars) :=
  match count with
  | O => Some []
  | S count' =>
      names ← tails dir_len array count';
      path ← string_at array (Z.of_nat count');
      if (length path <? dir_len)%nat then None
      else Some (names ++ [drop dir_len path])
  end.

(** The [for (;;)] loop of [choose_file_menu], with [descend] for
    [choose_file_menu] itself on a directory that is chosen.  What
    [descend] returns is the static array [ret] itself; the [strcpy]
    of it onto itself is taken to leave it.  The code copies a path
    to [ret] without a test of its length: a path of [PATH_MAX]
    characters or more is written beyond the array, which is
    undefined and has no result here. *)
Fixpoint file_menu_loop
    (descend : chars -> list keypress -> list event ->
               option (option chars * list keypress * list event))
    (h : headers) (items : list chars) (files dirs : option (list slot))
    (numDirs : nat) (turns : nat) (keys : list keypress)
    (shown : list event)
  : option (option chars * list keypress * list event) :=
  match turns with
  | O => None
  | S turns' =>
      let '(chosen_item, keys, asked) :=
        get_menu_selection (codes env) (ui_menu_select env)
          (FileMenu h items) 0 keys in
      chosen_item ← chosen_item;
      let shown := shown ++ asked in
      if chosen_item =? SELECT_BACK (codes env) then Some (None, keys, shown)
      else if chosen_item <? Z.of_nat numDirs then
        dir ← string_at dirs chosen_item;
        '(subret, keys, shown) ← descend dir keys shown;
        match subret with
        | Some path =>
            if (PATH_MAX <=? length path)%nat then None
            else Some (Some path, keys, shown)
        | None =>
            file_menu_loop descend h items files dirs numDirs turns'
              keys shown
        end
      else
        path ← string_at files (chosen_item - Z.of_nat numDirs);
        if (PATH_MAX <=? length path)%nat then None
        else Some (Some path, keys, shown)
  end.

(** [choose_file_menu]: the path returned (NULL as [None]), the keys
    that are left and what the display has shown.  No result when the
    keys end while a menu waits, and when the behaviour is undefined.
    [depth] bounds the menus that are opened one in another and the
    turns of each; every menu that returns has taken a key. *)
Fixpoint choose_file_menu (depth : nat) (directory : chars)
    (extension : option chars) (h : headers) (keys : list keypress)
    (shown : list event)
  : option (option chars * list keypress * list event) :=
  match depth with
  | O => None
  | S depth' =>
      '(files, numFiles, shown) ←
        enumerate_files_in_directory directory extension shown;
      '(dirs, numDirs, shown) ←
        match extension with
        | Some _ => enumerate_files_in_directory directory None shown
        | None => Some (None, 0%nat, shown)
        end;
      let total := (numDirs + numFiles)%nat in
      if (total =? 0)%nat then
        _ ← free_string_array files;
        _ ← free_string_array dirs;
        Some (None, keys, shown ++ [UiPrint NothingMatches])
      else
        if negb (malloc env (4 * (Z.of_nat total + 1))) then None
        else
          dir_names ← tails (length directory) dirs numDirs;
          file_names ← tails (length directory) files numFiles;
          '(return_value, keys, shown) ←
            file_menu_loop
              (fun dir => choose_file_menu depth' dir extension h)
              h (dir_names ++ file_names) files dirs numDirs depth'
              keys shown;
          _ ← free_string_array files;
          _ ← free_string_array dirs;
          Some (return_value, keys, shown)
  end.

End Extra.

Section Bitmaps.

Variable env : Env.

(** [open (fn, O_RDONLY)] *)
Definition open_rdonly (files : gmap chars chars) (fn : chars)
  : option descriptor :=
  content ← files !! fn;
  Some {| unread := content; answers := reading env fn |}.

(** [bmp_info], called with [w] and [h] that are not NULL: [None]
    inside for -1, the width and the height for 0. *)
Definition bmp_info (files : gmap chars chars) (fn : chars)
  : option (option (Z * Z)) :=
  match open_rdonly files fn with
  | None => Some None
  | Some fd =>
      '(ret, buffer, _) ←
        ensure_read fd (sizeof_bmp_file_header + sizeof_bmp_data_header);
      if ret <? 0 then Some None
      else
        x ← u32 buffer at_x;
        y ← u32 buffer at_y;
        Some (Some (to_int x, to_int y))
  end.

(** [bmp_load]: [None] inside for NULL, the block for its address.
    The outer [None] is a read outside a block, or a first [malloc]
    that gives NULL, which goes to [read] unchecked. *)
Definition bmp_load (files : gmap chars chars) (fn : chars)
  : option (option chars) :=
  match open_rdonly files fn with
  | None => Some None
  | Some fd =>
      if negb (malloc env sizeof_bmp_file_header) then None else
      '(ret, content, fd) ← ensure_read fd sizeof_bmp_file_header;
      if ret <? 0 then Some None
      else
        type ← u16 content at_type;
        r0 ← u16 content at_file_r0;
        r1 ← u16 content at_file_r1;
        data_offset ← u32 content at_data_offset;
        file_size ← u32 content at_file_size;
        if negb (type =? 19778) || negb (r0 =? 0) || negb (r1 =? 0)
           || (file_size <? data_offset)
        then Some None
        else if negb (realloc env file_size) then Some None
        else
          let content := take (Z.to_nat file_size) content in
          file_size ← u32 content at_file_size;
          '(ret, more, _) ←
            ensure_read fd
              (to_int ((file_size - sizeof_bmp_file_header) mod 4294967296));
          if ret <? 0 then Some None
          else
            let content := content ++ more in
            compress ← u32 content at_compress;
            if negb (compress =? 0) then Some None
            else Some (Some content)
  end.

(** The colour of pixel [c]: looked up in the palette behind the
    headers, or taken from the bits of [c] themselves. *)
Definition colour (content : chars) (palette : bool) (c : Z) : option Z :=
  if palette then
    let rgb :=
      sizeof_bmp_file_header + sizeof_bmp_data_header + sizeof_rgbquad * c in
    red ← peek content (rgb + at_red);
    green ← peek content (rgb + at_green);
    blue ← peek content (rgb + at_blue);
    Some (convert red green blue)
  else
    Some (convert (Z.land c 255)
                  (Z.shiftr (Z.land c 65280) 8)
                  (Z.shiftr (Z.land c 16711680) 16)).

(** What is put into [logo] for pixel [i]: [depth] bits from bit
    [depth*i] of the data on. *)
Definition pixel (content : chars) (palette : bool) (data_offset i : Z)
  : option Z :=
  depth ← u16 content at_depth;
  c ← bits content data_offset (to_int (depth * i)) depth;
  colour content palette c.

(** The cell of [logo] pixel [i] goes to: [(y-1-i/x)*x+i%x] in
    [int]s. *)
Definition cell (x y i : Z) : Z :=
  to_int (to_int (to_int (to_int (y - 1) - Z.quot i x) * x) + Z.rem i x).

(** The [for (i = 0; i < x*y; i++)] loops of [bmp_convert], [turns]
    turns from [i] on.  [None] when a read or the write is outside
    its block. *)
Fixpoint convert_loop (turns : nat) (content : chars) (palette : bool)
    (x y data_offset i : Z) (logo : list Z) : option (list Z) :=
  match turns with
  | O => Some logo
  | S turns' =>
      colour ← pixel content palette data_offset i;
      let at_ := cell x y i in
      if (at_ <? 0) || (Z.of_nat (length logo) <=? at_) then None
      else convert_loop turns' content palette x y data_offset (i + 1)
             (<[Z.to_nat at_ := colour]> logo)
  end.

(** [bmp_convert]: [None] inside for NULL, the [unsigned short]s of
    [logo] for its address. *)
Definition bmp_convert (content : chars) : option (option (list Z)) :=
  x ← u32 content at_x;
  y ← u32 content at_y;
  let x := to_int x in
  let y := to_int y in
  let size := (2 * x * y) mod 4294967296 in
  if negb (malloc env size) then Some None
  else
    data_offset ← u32 content at_data_offset;
    let palette :=
      sizeof_bmp_file_header + sizeof_bmp_data_header <? data_offset in
    logo ← convert_loop (Z.to_nat (to_int (x * y))) content palette
             x y data_offset 0
             (map (garbage env) (seq 0 (Z.to_nat (size / 2))));
    Some (Some logo).

(** The bytes of a block of [unsigned short]s. *)
Definition short_bytes (logo : list Z) : chars :=
  flat_map (fun v => [chr v; chr (v / 256)]) logo.

(** [bmp_to_565]: the return value and the files afterwards. *)
Definition bmp_to_565 (files : gmap chars chars) (in_ out : chars)
  : option (Z * gmap chars chars) :=
  info ← bmp_info files in_;
  match info with
  | None => Some (-1, files)
  | Some (x, y) =>
      data ← bmp_load files in_;
      match data with
      | None => Some (-1, files)
      | Some data =>
          logo ← bmp_convert data;
          match logo with
          | None => Some (-1, files)
          | Some logo =>
              if negb (creatable env out) then Some (-1, files)
              else
                let fd := {| contents := default [] (files !! out);
                             offset := 0;
                             replies := writing env out |} in
                '(ret, fd) ←
                  ensure_write fd (short_bytes logo)
                    (to_int ((2 * x * y) mod 4294967296));
                Some (ret, <[out := contents fd]> files)
          end
      end
  end.

End Bitmaps.

End Extra.

(** ** The menus of recovery.c *)

Module Menus.
Import CLib RecoveryUI Extra.

Local Open Scope Z_scope.

Definition SDCARD_SPLASH_FILE : chars := cs "/sdcard/splash.bmp".
Definition RGB565_SPLASH_FILE : chars := cs "/tmp/splash.565".

Record Env := {
  extra : Extra.Env;
  ensure_root_path_mounted : chars -> Z;
  format_root_device : chars -> Z
}.

(** The sizes [process_partition] works on, and the highlight. *)
Record table := {
  selected : Z;
  mbvf : Z;
  mbex : Z;
  mbsw : Z
}.

Section Menus.

Variable env : Env.

Let k : Codes := codes (extra env).

(** [erase_root]: the return value and what the display has shown. *)
Definition erase_root (root : chars) (shown : list event)
  : Z * list event :=
  (format_root_device env root,
   shown ++ [UiSetBackgroundInstalling; UiShowIndeterminateProgress;
             UiPrint (Formatting root); FormatRootDevice root]).

(** [wipe_data]: the keys that are left and what the display has
    shown; no result when the keys end while the menu waits. *)
Definition wipe_data (confirm : Z) (keys : list keypress)
    (shown : list event) : option (list keypress * list event) :=
  let wipe (keys : list keypress) (shown : list event) :=
    let shown := shown ++ [UiPrint WipingData; DeviceWipeData] in
    let '(_, shown) := erase_root (cs "DATA:") shown in
    let '(_, shown) := erase_root (cs "CACHE:") shown in
    Some (keys, shown ++ [UiPrint DataWiped]) in
  if negb (confirm =? 0) then
    let '(chosen_item, keys, asked) :=
      get_menu_selection k (ui_menu_select (extra env)) ConfirmWipe 1 keys in
    chosen_item ← chosen_item;
    if negb (chosen_item =? 1) then Some (keys, shown ++ asked)
    else wipe keys (shown ++ asked)
  else wipe keys shown.

(** [install_bmp_file]: the files and what the display has shown. *)
Definition install_bmp_file (file : chars) (files : gmap chars chars)
    (shown : list event) : option (gmap chars chars * list event) :=
  if negb (ensure_root_path_mounted env (cs "SDCARD:") =? 0)
  then Some (files, shown)
  else
    match get_screen_xy (extra env) with
    | None => Some (files, shown ++ [UiPrint NoScreenSize])
    | Some (sx, sy) =>
        info ← bmp_info (extra env) files file;
        match info with
        | None => Some (files, shown ++ [UiPrint (CantOpenBitmap file)])
        | Some (bx, by_) =>
            let shown :=
              if negb (sx =? bx) || negb (sy =? by_)
              then shown ++ [UiPrint (SizeWarning sx sy bx by_)]
              else shown in
            '(ret, files) ←
              bmp_to_565 (extra env) files file RGB565_SPLASH_FILE;
            if ret <? 0
            then Some (files, shown ++ [UiPrint (CantConvertBitmap file)])
            else
              shown ←
                execute (extra env) 1 (cs "/bin/sh")
                  (Some [cs "/sbin/flash.sh"; cs "splash";
                         RGB565_SPLASH_FILE])
                  shown;
              Some (files, shown)
        end
    end.

Definition process_ums_toggle (shown : list event) : option (list event) :=
  execute (extra env) 1 (cs "/bin/sh") (Some [cs "/sbin/umstgl.sh"]) shown.

Definition process_browse_splash (files : gmap chars chars)
    (keys : list keypress) (shown : list event)
  : option (gmap chars chars * list keypress * list event) :=
  if negb (ensure_root_path_mounted env (cs "SDCARD:") =? 0)
  then Some (files, keys, shown)
  else
    '(file, keys, shown) ←
      choose_file_menu (extra env) (S (length keys)) (cs "/sdcard/")
        (Some (cs ".bmp")) ChooseBmp keys shown;
    match file with
    | Some file =>
        '(files, shown) ← install_bmp_file file files shown;
        Some (files, keys, shown)
    | None => Some (files, keys, shown)
    end.

(** The menu [sprintf] fills in. *)
Definition partition_menu (mbsd : Z) (t : table) : menu :=
  PartitionMenu mbsd
    (to_int (to_int (to_int (mbsd - mbvf t) - mbex t) - mbsw t))
    (mbvf t) (mbex t) (mbsw t).

(** A size after [+= step] or [+= -step], kept between 0 and the
    room the two other sizes leave. *)
Definition resize (size step a b mbsd : Z) (left : bool) : Z :=
  let size := to_int (size + (if left then - step else step)) in
  let size := if size <? 0 then 0 else size in
  let room := to_int (to_int (mbsd - a) - b) in
  if room <? size then room else size.

(** The sizes after SELECT_LEFT or SELECT_RIGHT. *)
Definition resized (mbsd : Z) (left : bool) (t : table) : table :=
  if selected t =? 0 then
    {| selected := selected t;
       mbvf := resize (mbvf t) 128 (mbex t) (mbsw t) mbsd left;
       mbex := mbex t; mbsw := mbsw t |}
  else if selected t =? 1 then
    {| selected := selected t; mbvf := mbvf t;
       mbex := resize (mbex t) 128 (mbvf t) (mbsw t) mbsd left;
       mbsw := mbsw t |}
  else if selected t =? 2 then
    {| selected := selected t; mbvf := mbvf t; mbex := mbex t;
       mbsw := resize (mbsw t) 16 (mbex t) (mbvf t) mbsd left |}
  else t.

(** The [while (1)] loop of [process_partition] over the keys to
    come: the action it ends on, the sizes, the keys that are left
    and what the display has shown. *)
Fixpoint partition_loop (mbsd : Z) (keys : list keypress) (t : table)
    (shown : list event)
  : option (Z * table * list keypress * list event) :=
  match keys with
  | [] => None
  | (key, visible) :: keys' =>
      let action := device_handle_key k key visible in
      if action <? 0 then
        let '(highlight, moved) :=
          move_highlight k (ui_menu_select (extra env)) 3 action
            (selected t) in
        let t := {| selected := highlight; mbvf := mbvf t;
                    mbex := mbex t; mbsw := mbsw t |} in
        let shown := shown ++ moved in
        if action =? SELECT_BACK k then Some (action, t, keys', shown)
        else if action =? SELECT_ITEM k then
          if mbvf t =? 0
          then partition_loop mbsd keys' t (shown ++ [UiPrint NeedVfat])
          else Some (action, t, keys', shown)
        else if (action =? SELECT_LEFT k) || (action =? SELECT_RIGHT k) then
          let t := resized mbsd (action =? SELECT_LEFT k) t in
          partition_loop mbsd keys' t
            (shown ++ [UiModifyMenu (partition_menu mbsd t)])
        else partition_loop mbsd keys' t shown
      else partition_loop mbsd keys' t shown
  end.

(** [sprintf (s, "%d", v)] *)
Definition decimal (v : Z) : chars := cs (pretty v).

(** The sizes [process_partition] starts with: 70% vfat, the rest
    ext3, no swap. *)
Definition first_table (mbsd : Z) : table :=
  let mbvf := Z.quot (to_int (mbsd * 70)) 100 in
  {| selected := 0; mbvf := mbvf; mbex := to_int (mbsd - mbvf); mbsw := 0 |}.

Definition process_partition (keys : list keypress) (shown : list event)
  : option (list keypress * list event) :=
  let size := get_sdcard_size (extra env) in
  if size =? 0 then Some (keys, shown ++ [UiPrint SdcardNotReady])
  else
    let mbsd := to_int (Z.land (Z.shiftr size 20) 4294967295) in
    let t := first_table mbsd in
    '(action, t, keys, shown) ←
      partition_loop mbsd keys t
        (shown ++ [UiClearKeyQueue; UiStartMenu (partition_menu mbsd t)]);
    if action =? SELECT_ITEM k then
      match keys with
      | [] => None
      | (key, _) :: keys =>
          let shown := shown ++ [UiPrint PressAgain] in
          if (key =? KEY_CENTER k) || (key =? KEY_ENTER k)
             || (key =? BTN_MOUSE k) || (key =? KEY_F21 k)
          then
            shown ←
              execute (extra env) 1 (cs "/bin/sh")
                (Some [cs "/sbin/partsdc.sh";
                       cs "-v"; decimal (mbvf t);
                       cs "-e"; decimal (mbex t);
                       cs "-s"; decimal (mbsw t)])
                shown;
            Some (keys, shown ++ [UiEndMenu])
          else Some (keys, shown ++ [UiEndMenu])
      end
    else Some (keys, shown ++ [UiEndMenu]).

End Menus.

End Menus.

(** ** What the facts are stated with *)

Module ExtraSpec.
Import CLib RecoveryUI Extra.

Local Open Scope Z_scope.

(** No call fails: every answer hands bytes over. *)
Definition gives (a : answer) : Prop :=
  match a with Give _ => True | Fail => False end.

(** The packing, checked on every triple of channel values. *)
Definition packed (rr gg bb : Z) : bool :=
  let p := Z.lor (Z.lor rr (Z.shiftl gg 5)) (Z.shiftl bb 11) in
  (p mod 65536 =? p) && (Z.land p 31 =? rr)
  && (Z.land (Z.shiftr p 5) 63 =? gg) && (Z.shiftr p 11 =? bb).

(** Bit [k] of the bytes that start at [base]: bit [k mod 8] of
    byte [k / 8]. *)
Definition stream_bit (block : chars) (base k : Z) : option bool :=
  byte ← peek block (base + k / 8);
  Some (Z.testbit byte (k mod 8)).

(** The texts [execute] has passed on to the display. *)
Definition relayed (new : list event) : chars :=
  flat_map (fun e => match e with UiPrint (Output t) => t | _ => [] end) new.

Definition is_output (e : event) : Prop :=
  match e with UiPrint (Output _) => True | _ => False end.

(** The width and the height in the header of a file. *)
Definition header_size (file : chars) : option (Z * Z) :=
  x ← u32 file at_x;
  y ← u32 file at_y;
  Some (to_int x, to_int y).

(** A file whose header passes the tests of [bmp_load] and that has
    the [file_size] bytes its header declares. *)
Definition loadable (file : chars) (file_size : Z) : Prop :=
  u16 file at_type = Some 19778
  /\ u16 file at_file_r0 = Some 0
  /\ u16 file at_file_r1 = Some 0
  /\ u32 file at_file_size = Some file_size
  /\ (exists data_offset,
        u32 file at_data_offset = Some data_offset
        /\ data_offset <= file_size)
  /\ u32 file at_compress = Some 0
  /\ file_size <= Z.of_nat (length file).




(** An entry that is offered for an extension: not hidden, and its
    name ends in the extension. *)
Definition offered (extension d_name : chars) : Prop :=
  head d_name <> Some "."%char /\ extension `suffix_of` d_name.

#[export] Instance offered_dec extension d_name :
  Decision (offered extension d_name).
Proof. unfold offered. apply _. Defined.

(** The path stored for an entry. *)
Definition stored (directory : chars) (extension : option chars)
    (d_name : chars) : chars :=
  directory ++ d_name
    ++ match extension with None => ["/"%char] | Some _ => [] end.

(** A path [choose_file_menu] may return for a directory and an
    extension: below the directory, with the extension at its
    end. *)
Definition inside (directory extension path : chars) : Prop :=
  directory `prefix_of` path /\ extension `suffix_of` path.

End ExtraSpec.

Module MenuSpec.
Import CLib RecoveryUI Extra Menus.

Local Open Scope Z_scope.

(** The sizes are not negative and leave the card no smaller than
    their sum. *)
Definition fits (mbsd : Z) (t : table) : Prop :=
  0 <= mbvf t /\ 0 <= mbex t /\ 0 <= mbsw t
  /\ mbvf t + mbex t + mbsw t <= mbsd.

(** A partition menu accounts for the whole card: the three sizes
    and what is not allocated are not negative and add up to it. *)
Definition accounted (mbsd : Z) (e : event) : Prop :=
  match e with
  | UiStartMenu (PartitionMenu m u v x s)
  | UiModifyMenu (PartitionMenu m u v x s) =>
      m = mbsd /\ 0 <= u /\ 0 <= v /\ 0 <= x /\ 0 <= s
      /\ u + v + x + s = mbsd
  | _ => True
  end.

Definition is_execvp (e : event) : Prop :=
  match e with Execvp _ => True | _ => False end.

(** The script that [process_partition] starts. *)
Definition partsdc (vf ex sw : Z) : list chars :=
  [cs "/bin/sh"; cs "/sbin/partsdc.sh"; cs "-v"; decimal vf;
   cs "-e"; decimal ex; cs "-s"; decimal sw].

(** The actions are negative numbers, as [recovery_ui.h] has them,
    and NO_ACTION is neither SELECT_ITEM nor SELECT_BACK. *)
Definition actions_apart (k : Codes) : Prop :=
  NO_ACTION k < 0 /\ HIGHLIGHT_UP k < 0 /\ HIGHLIGHT_DOWN k < 0
  /\ SELECT_ITEM k < 0 /\ SELECT_BACK k < 0
  /\ SELECT_LEFT k < 0 /\ SELECT_RIGHT k < 0
  /\ NO_ACTION k <> SELECT_ITEM k /\ NO_ACTION k <> SELECT_BACK k.

(** The item the display has settled on: what the last
    [ui_menu_select] returned, and the first item before that. *)
Definition highlight (ui_menu_select : nat -> Z -> Z) (items : nat)
    (shown : list event) : Z :=
  fold_left
    (fun item e =>
       match e with
       | UiMenuSelect sel => ui_menu_select items sel
       | _ => item
       end)
    shown 0.

(** The roots that were formatted, in order. *)
Definition formatted (shown : list event) : list chars :=
  omap (fun e => match e with FormatRootDevice root => Some root | _ => None end)
       shown.

(** The script that [install_bmp_file] starts. *)
Definition flash_splash : list chars :=
  [cs "/bin/sh"; cs "/sbin/flash.sh"; cs "splash"; RGB565_SPLASH_FILE].

End MenuSpec.

Module ResumeSpec.
Import CLib Recovery.

(** An argument that comes back from the control block as it went
    in: not empty, and free of NUL and of newlines. *)
Definition resumable (arg : chars) : Prop :=
  arg <> [] /\ Forall (fun c => mem c [NUL; LF] = false) arg.

End ResumeSpec.

Module TraceSpec.
Import CLib Install.

(** A computation only appends events, and each of them satisfies
    [P]. *)
Definition appends {A : Type} (P : event -> Prop) (m : M A) : Prop :=
  forall t a t', m t = Some (a, t') ->
    exists evs, t' = t ++ evs /\ Forall P evs.

(** Events that leave the archive alone and are not the verdict on
    the signature. *)
Definition beside_archive (e : event) : Prop :=
  is_open e = false /\ is_close e = false
  /\ forall err, e <> LogI (VerifyReturned err).

Definition is_accepted (e : event) : bool :=
  match e with
  | LogI (VerifyReturned err) => (err =? 1)%Z
  | _ => false
  end.

End TraceSpec.

(** ** Sample inputs for the menus and the bitmaps *)

Module Examples.
Import CLib RecoveryUI Extra Menus.

Local Open Scope Z_scope.

(** Values for the actions and for the keys, all apart. *)
Definition sample_codes : Codes :=
  {| NO_ACTION := -1; HIGHLIGHT_UP := -2; HIGHLIGHT_DOWN := -3;
     SELECT_ITEM := -4; SELECT_BACK := -5; SELECT_LEFT := -6;
     SELECT_RIGHT := -7;
     KEY_DOWN := 108; KEY_UP := 103; KEY_ENTER := 28; KEY_CENTER := 232;
     BTN_MOUSE := 272; KEY_F21 := 191; KEY_BACK := 158; KEY_POWER := 116;
     KEY_LEFT := 105; KEY_SEND := 231; KEY_VOLUMEDOWN := 114;
     KEY_RIGHT := 106; KEY_END := 107; KEY_VOLUMEUP := 115;
     KEY_HOME := 102 |}.

(** A display that keeps the highlight inside the menu. *)
Definition sample_select (items : nat) (sel : Z) : Z :=
  Z.max 0 (Z.min sel (Z.of_nat items - 1)).

(** A bitmap of 24 bits a pixel and two pixels a row, with the four
    bytes [height] for its height: the two headers and 12 bytes of
    data, the pixels red, green, blue and white.  The rows of six
    bytes stand back to back, as [bmp_convert] reads them, without
    the two bytes of padding a bitmap file has behind each. *)
Definition bitmap_of (height : list Z) : chars :=
  map chr ([66; 77; 66; 0; 0; 0; 0; 0; 0; 0; 54; 0; 0; 0]
           ++ [40; 0; 0; 0; 2; 0; 0; 0] ++ height
           ++ [1; 0; 24; 0; 0; 0; 0; 0; 12; 0; 0; 0]
           ++ replicate 16 0
           ++ [255; 0; 0; 0; 255; 0; 0; 0; 255; 255; 255; 255]).

(** Two rows, the lower one first. *)
Definition sample_bitmap : chars := bitmap_of [2; 0; 0; 0].



(** Two rows, the upper one first: the height is -2. *)
Definition top_down_bitmap : chars := bitmap_of [254; 255; 255; 255].

(** A file header alone, which declares its own 14 bytes. *)
Definition short_bitmap : chars :=
  map chr [66; 77; 14; 0; 0; 0; 0; 0; 0; 0; 14; 0; 0; 0].

Definition logo_path : chars := cs "/sdcard/logo.bmp".
Definition flipped_path : chars := cs "/sdcard/flipped.bmp".


Definition sample_files : gmap chars chars :=
  <[ logo_path := sample_bitmap ]>
    (<[ flipped_path := top_down_bitmap ]>
       (<[ RGB565_SPLASH_FILE := cs "0123456789" ]> ∅)).


(** A card of 2 GB, a screen of 320 by 480 pixels, a kernel that cuts
    the reads and the writes short, a child that prints a line, and a
    directory with a bitmap among other entries. *)
Definition extra_env (malloc : Z -> bool) : Extra.Env :=
  {| codes := sample_codes;
     ui_menu_select := sample_select;
     reading := fun _ => [Give 5; Give 1; Give 100];
     writing := fun _ => [Give 3];
     creatable := fun _ => true;
     malloc := malloc;
     realloc := fun size => size <? 1048576;
     garbage := fun _ => 0;
     fb0 := Some (0, 320, 480);
     mmcblk0 := Some (0, 2147483648);
     pipe_ok := true;
     fork_ok := true;
     spawn := fun _ => {| unread := cs "done" ++ [LF]; answers := [Give 2] |};
     opendir := fun directory =>
       if bool_decide (directory = cs "/sdcard/")
       then Some [cs ".android"; cs "logo.bmp"; cs "notes.txt";
                  cs "update.zip"; cs ".hidden.bmp"; cs "bmp"]
       else None;
     closedir_fails := fun _ => false;
     is_dir := fun _ => false |}.

(** [malloc] gives up to a megabyte. *)
Definition sample_extra : Extra.Env := extra_env (fun size => size <? 1048576).

(** [malloc] never fails. *)
Definition roomy_extra : Extra.Env := extra_env (fun _ => true).

Definition sample_menus : Menus.Env :=
  {| extra := sample_extra;
     ensure_root_path_mounted := fun _ => 0;
     format_root_device := fun _ => 0 |}.

(** Down, then the key that selects. *)
Definition confirm_keys : list keypress := [(108, 1); (28, 1)].

Definition confirm_shown : list event :=
  Eval vm_compute in
    match wipe_data sample_menus 1 confirm_keys [] with
    | Some (_, shown) => shown
    | None => []
    end.

(** More vfat than there is room for, down to ext3, less of it, the
    key that selects, and the key that confirms. *)
Definition partition_keys : list keypress :=
  [(106, 1); (108, 1); (105, 1); (28, 1); (28, 1)].

Definition partition_shown : list event :=
  Eval vm_compute in
    match process_partition sample_menus partition_keys [] with
    | Some (_, shown) => shown
    | None => []
    end.

(** The key that selects, on the first entry. *)
Definition browse_keys : list keypress := [(28, 1)].

Definition browse_shown : list event :=
  Eval vm_compute in
    match choose_file_menu sample_extra 2 (cs "/sdcard/") (Some (cs ".bmp"))
            ChooseBmp browse_keys [] with
    | Some (_, _, shown) => shown
    | None => []
    end.

(** What [install_bmp_file] leaves of the sample bitmap. *)
Definition splash_files : gmap chars chars :=
  Eval vm_compute in
    match install_bmp_file sample_menus logo_path sample_files [] with
    | Some (files, _) => files
    | None => ∅
    end.

Definition splash_shown : list event :=
  Eval vm_compute in
    match install_bmp_file sample_menus logo_path sample_files [] with
    | Some (_, shown) => shown
    | None => []
    end.

End Examples.

Module InstallExamples.
Import CLib Install Samples.

(** The interpreter stops at line 2 of the sample script. *)
Definition failing_second_line : Env :=
  sample_env script_package true 2 [] (exited 0).

(** What [install_package] does around a child that fails. *)
Definition failing_child_trace : list event :=
  Eval vm_compute in
    match install_package failing_child (cs "SDCARD:update.zip") [] with
    | Some (_, t) => t
    | None => []
    end.

End InstallExamples.

(** * Facts *)

(** ** The C library *)

Module CLibFacts.
Import CLib.







Lemma skip_space_length s : length (skip_space s) <= length s.
Proof.
  induction s as [|c r IH]; simpl; [lia|].
  destruct (isspace c); simpl; lia.
Qed.

Lemma scan_digits_length base s : forall acc v rest,
  scan_digits base acc s = (v, rest) -> length rest <= length s.
Proof.
  induction s as [|c r IH]; intros acc v rest; simpl.
  - intros [= <- <-]. simpl. lia.
  - destruct (digit_val base c).
    + intros H. apply IH in H. lia.
    + intros [= <- <-]. simpl. lia.
Qed.

Lemma Some_eq {A : Type} (a b : A) : Some a = Some b -> a = b.
Proof. congruence. Qed.

Lemma scan_unsigned_length s v rest :
  scan_unsigned s = Some (v, rest) -> length rest <= length s.
Proof.
  unfold scan_unsigned. destruct s as [|c r]; [discriminate|].
  assert (Hd : forall base s', length s' <= length (c :: r) ->
            Some (scan_digits base 0 s') = Some (v, rest) ->
            length rest <= length (c :: r)).
  { intros base s' Hs H. apply Some_eq, scan_digits_length in H. lia. }
  destruct (ceq c "0").
  - destruct r as [|x [|h r']]; try (apply Hd; simpl; lia).
    destruct ((ceq x "x" || ceq x "X") && is_digit 16 h);
      apply Hd; simpl; lia.
  - destruct (is_digit 10 c); [|discriminate]. apply Hd; simpl; lia.
Qed.

Lemma scan_int_length s :
  match scan_int s with
  | Converted _ rest | MatchFailure rest => length rest <= length s
  | InputFailure => True
  end.
Proof.
  unfold scan_int. pose proof (skip_space_length s) as Hs.
  destruct (skip_space s) as [|c r]; [exact I|]. simpl in Hs.
  destruct (ceq c "-"); [|destruct (ceq c "+")].
  - destruct (scan_unsigned r) as [[v rest]|] eqn:E; [|lia].
    apply scan_unsigned_length in E. lia.
  - destruct (scan_unsigned r) as [[v rest]|] eqn:E; [|lia].
    apply scan_unsigned_length in E. lia.
  - destruct (scan_unsigned (c :: r)) as [[v rest]|] eqn:E; [|simpl; lia].
    apply scan_unsigned_length in E. simpl in E. lia.
Qed.

Lemma run_directives_length ds : forall s vals got vals' rest,
  run_directives ds s vals = (got, vals', rest) -> length rest <= length s.
Proof.
  induction ds as [|d ds IH]; intros s vals got vals' rest; simpl.
  - intros [= _ _ <-]. lia.
  - destruct d as [|c|].
    + intros H. apply IH in H. pose proof (skip_space_length s). lia.
    + destruct s as [|c' r]; [intros [= _ _ <-]; simpl; lia|].
      destruct (ceq c c').
      * intros H. apply IH in H. simpl. lia.
      * intros [= _ _ <-]. lia.
    + pose proof (scan_int_length s) as Hi.
      destruct (scan_int s) as [v r|r|].
      * intros H. apply IH in H. lia.
      * intros [= _ _ <-]. lia.
      * intros [= _ _ <-]. simpl. lia.
Qed.

Lemma fscanf_length f fmt got vals rest :
  fscanf f fmt = (got, vals, rest) -> length rest <= length f.
Proof. apply run_directives_length. Qed.

End CLibFacts.

(** ** install.c *)

Module InstallFacts.
Import CLib Install CLibFacts Samples.

(** *** The key store reads to the end *)

Lemma scan_words_length count : forall f ws rest,
  scan_words count f = Some (ws, rest) -> length rest <= length f.
Proof.
  induction count as [|count IH]; intros f ws rest; simpl.
  - intros [= _ <-]. lia.
  - destruct (fscanf f " , %i") as [[got vals] f1] eqn:E1.
    apply fscanf_length in E1.
    destruct (negb (got =? 1)%Z); [discriminate|].
    destruct (scan_words count f1) as [[ws' f2]|] eqn:E2; [|discriminate].
    apply IH in E2. intros [= _ <-]. lia.
Qed.

Lemma scan_key_length words f key rest :
  scan_key words f = Some (key, rest) -> length rest <= length f.
Proof.
  unfold scan_key.
  destruct (fscanf f " { %i , %i , { %i") as [[got vals] f1] eqn:E1.
  apply fscanf_length in E1.
  destruct (negb (got =? 3)%Z); [discriminate|].
  destruct (negb _); [discriminate|].
  destruct (scan_words _ f1) as [[ns f2]|] eqn:E2; [|discriminate].
  apply scan_words_length in E2.
  destruct (fscanf f2 " } , { %i") as [[got' vals'] f3] eqn:E3.
  apply fscanf_length in E3.
  destruct (negb (got' =? 1)%Z); [discriminate|].
  destruct (scan_words _ f3) as [[rs f4]|] eqn:E4; [|discriminate].
  apply scan_words_length in E4.
  destruct (fscanf f4 " } } ") as [[got'' vals''] f5] eqn:E5.
  apply fscanf_length in E5.
  intros [= _ <-]. lia.
Qed.

(** With a turn for every character and one more, the loop of
    [load_keys] comes to its end: it hands back either nothing, or
    all the keys appended to [out] with their count. *)
Lemma load_keys_loop_total words turns : forall f out numKeys,
  length f < turns ->
  load_keys_loop words turns f out numKeys = Some load_keys_exit
  \/ exists more, more <> [] /\
       load_keys_loop words turns f out numKeys
       = Some (Some (out ++ more), (numKeys + Z.of_nat (length more))%Z).
Proof.
  induction turns as [|turns IH]; intros f out numKeys Hlen; [lia|].
  simpl. destruct (scan_key words f) as [[key f1]|] eqn:E; [|now left].
  apply scan_key_length in E.
  destruct f1 as [|c f2]; simpl.
  - right. exists [key]. split; [discriminate|]. simpl. repeat f_equal; try lia.
  - destruct (code c =? code ",")%Z.
    + simpl in E.
      destruct (IH f2 (out ++ [key]) (numKeys + 1)%Z) as [H|(more & Hne & H)];
        [lia | now left |].
      right. exists (key :: more). split; [discriminate|].
      rewrite H, <- app_assoc. change ([key] ++ more) with (key :: more).
      f_equal. f_equal. change (length (key :: more)) with (S (length more)).
      lia.
    + destruct (code c =? EOF)%Z eqn:Eeof; [|now left].
      right. exists [key]. split; [discriminate|]. simpl. repeat f_equal; try lia.
Qed.

Lemma load_keys_total words file :
  load_keys words file = Some load_keys_exit
  \/ exists keys, keys <> [] /\
       load_keys words file = Some (Some keys, Z.of_nat (length keys)).
Proof.
  destruct file as [f|]; simpl; [|now left].
  destruct (load_keys_loop_total words (S (length f)) f [] 0%Z) as [H|(more & Hne & H)];
    [lia | now left |].
  right. exists more. split; [exact Hne|]. exact H.
Qed.

(** *** Well-formed key files are read whole *)






















(** *** What is not a key file is refused *)
















(** *** A field that [%i] leaves before its end *)















(** *** The protocol loop *)















(** *** The firmware deferral and the exit of the child *)

Ltac mrun := unfold mbind, M_bind, mret, M_ret, emit, crash; simpl.

(** [handle_firmware_update] by the payload of the request: a
    payload that can be had goes to the store, whose answer decides;
    without it the store is not called and the answer is ERROR. *)
Lemma handle_firmware_update_payload env type filename zip t :
  match firmware_payload env zip filename with
  | Some (data, size) =>
      handle_firmware_update env type filename zip t
      = if (remember_firmware_update env type data size =? 0)%Z
        then Some (INSTALL_SUCCESS,
                   t ++ stored_events type filename data size)
        else Some (INSTALL_ERROR,
                   t ++ stored_events type filename data size
                     ++ [LogE (CantSaveFirmware type)])
  | None =>
      exists evs,
        handle_firmware_update env type filename zip t
        = Some (INSTALL_ERROR, t ++ evs)
        /\ forallb (fun e => negb (is_remember e)) evs = true
  end.
Proof.
  unfold handle_firmware_update, firmware_payload, stored_events.
  assert (Hstop : forall (evs : list event),
    forallb (fun e => negb (is_remember e)) evs = true ->
    exists evs',
      Some (INSTALL_ERROR, t ++ evs) = Some (INSTALL_ERROR, t ++ evs')
      /\ forallb (fun e => negb (is_remember e)) evs' = true).
  { intros evs H. now exists evs. }
  destruct (streq (take 8 filename) (cs "PACKAGE:")).
  - destruct (zip !! drop 8 filename) as [e|].
    + mrun. destruct (malloc env (to_uint (uncompLen e))); simpl.
      * destruct (readable e); simpl.
        -- destruct (remember_firmware_update env type _ _ =? 0)%Z; simpl;
             now rewrite <- !app_assoc.
        -- rewrite <- app_assoc. apply Hstop. reflexivity.
      * rewrite <- app_assoc. apply Hstop. reflexivity.
    + mrun. apply Hstop. reflexivity.
  - destruct (stat env filename) as [st|].
    + mrun. destruct (fopen env filename) as [f|].
      * destruct (malloc env (to_uint st)); simpl.
        -- destruct (_ =? to_uint st)%Z; simpl.
           ++ destruct (remember_firmware_update env type _ _ =? 0)%Z; simpl;
                now rewrite <- !app_assoc.
           ++ rewrite <- app_assoc. apply Hstop. reflexivity.
        -- rewrite <- app_assoc. apply Hstop. reflexivity.
      * destruct (malloc env (to_uint st)); simpl;
          rewrite <- app_assoc; apply Hstop; reflexivity.
    + mrun. apply Hstop. reflexivity.
Qed.

(** [handle_firmware_update] always comes back, with SUCCESS or
    ERROR. *)
Lemma handle_firmware_update_result env type filename zip t :
  exists result evs,
    handle_firmware_update env type filename zip t = Some (result, t ++ evs)
    /\ (result = INSTALL_SUCCESS \/ result = INSTALL_ERROR).
Proof.
  pose proof (handle_firmware_update_payload env type filename zip t) as H.
  destruct (firmware_payload env zip filename) as [[data size]|].
  - rewrite H.
    destruct (remember_firmware_update env type data size =? 0)%Z; eauto.
  - destruct H as (evs & -> & _). eauto.
Qed.

(** C4.  Once the pipe is closed, [try_update_binary] waits for the
    child.  A child that did not exit, or exited with a status other
    than zero, makes the result ERROR.  After a clean exit the result
    is SUCCESS when no firmware request was recorded, and otherwise
    that of [handle_firmware_update] on the recorded request: when
    the payload the request names can be had, it is handed to the
    store with its type and size, and the result is SUCCESS when the
    store keeps it and ERROR when it does not; when the payload
    cannot be had the result is ERROR and the store is not called. *)
Theorem try_update_binary_exit (env : Env) (path : chars) (zip : ZipArchive)
    (binary_entry : ZipEntry) (t t1 : list event) (fw : pending) :
  zip !! ASSUMED_UPDATE_BINARY_NAME = Some binary_entry ->
  (creat env update_binary_path <? 0)%Z = false ->
  extractable binary_entry = true ->
  protocol_loop (fgets_all 1024 (fst (child env (child_args env path))))
    None (t ++ launch_events env path) = Some (fw, t1) ->
  let status := snd (child env (child_args env path)) in
  if negb (WIFEXITED status) || negb (WEXITSTATUS status =? 0)%Z then
    try_update_binary env path zip t
    = Some (INSTALL_ERROR,
            t1 ++ [Waitpid; LogE (ChildFailed path (WEXITSTATUS status))])
  else
    match fw with
    | None =>
        try_update_binary env path zip t
        = Some (INSTALL_SUCCESS, t1 ++ [Waitpid])
    | Some (type, filename) =>
        try_update_binary env path zip t
        = handle_firmware_update env type filename zip (t1 ++ [Waitpid])
        /\ match firmware_payload env zip filename with
           | Some (data, size) =>
               try_update_binary env path zip t
               = if (remember_firmware_update env type data size =? 0)%Z
                 then Some (INSTALL_SUCCESS,
                            t1 ++ [Waitpid]
                               ++ stored_events type filename data size)
                 else Some (INSTALL_ERROR,
                            t1 ++ [Waitpid]
                               ++ stored_events type filename data size
                               ++ [LogE (CantSaveFirmware type)])
           | None =>
               exists evs,
                 try_update_binary env path zip t
                 = Some (INSTALL_ERROR, t1 ++ [Waitpid] ++ evs)
                 /\ forallb (fun e => negb (is_remember e)) evs = true
           end
    end.
Proof.
  intros Hentry Hcreat Hextract Hloop status. subst status.
  unfold try_update_binary. rewrite Hentry. mrun.
  rewrite Hcreat, Hextract. simpl.
  fold (child_args env path).
  destruct (child env (child_args env path)) as [from_child status] eqn:Echild.
  simpl in *. unfold launch_events in Hloop.
  rewrite <- !app_assoc. simpl. rewrite Hloop.
  destruct (negb (WIFEXITED status) || negb (WEXITSTATUS status =? 0)%Z).
  - simpl. rewrite <- app_assoc. reflexivity.
  - destruct fw as [[type filename]|]; [|reflexivity].
    split; [reflexivity|].
    pose proof (handle_firmware_update_payload env type filename zip
                  (t1 ++ [Waitpid])) as H.
    destruct (firmware_payload env zip filename) as [[data size]|].
    + rewrite H. now rewrite <- !app_assoc.
    + destruct H as (evs & -> & Hevs). exists evs.
      now rewrite <- app_assoc.
Qed.

Lemma try_update_binary_exit_witness :
  firmware_payload asking_child binary_package (cs "PACKAGE:radio.img")
  = Some (cs "RADIO", 5%Z)
  /\ try_update_binary asking_child sample_path binary_package []
     = Some (INSTALL_SUCCESS,
             asked_events
               ++ [Waitpid;
                   LogI (FirmwareInfo (cs "radio") 5 (cs "PACKAGE:radio.img"));
                   RememberFirmware (cs "radio") (cs "RADIO") 5]).
Proof.
  split; [vm_compute; reflexivity|].
  assert (Hloop :
    protocol_loop
      (fgets_all 1024
         (fst (child asking_child (child_args asking_child sample_path))))
      None ([] ++ launch_events asking_child sample_path)
    = Some (Some (cs "radio", cs "PACKAGE:radio.img"), asked_events))
    by (vm_compute; reflexivity).
  destruct (try_update_binary_exit asking_child sample_path binary_package
              (entry_of (cs "#!")) [] asked_events
              (Some (cs "radio", cs "PACKAGE:radio.img"))
              ltac:(vm_compute; reflexivity) eq_refl eq_refl Hloop)
    as [_ Hpayload].
  exact Hpayload.
Defined.

(** [try_update_binary] answers with one of the three results, and
    with CORRUPT exactly when the archive has no binary entry. *)
Lemma try_update_binary_result env path zip t result t1 :
  try_update_binary env path zip t = Some (result, t1) ->
  (result = INSTALL_SUCCESS \/ result = INSTALL_ERROR
   \/ result = INSTALL_CORRUPT)
  /\ (result = INSTALL_CORRUPT <->
      zip !! ASSUMED_UPDATE_BINARY_NAME = None).
Proof.
  unfold try_update_binary.
  destruct (zip !! ASSUMED_UPDATE_BINARY_NAME) as [binary_entry|].
  2: { intros [= <- <-]. split; [auto|]. split; reflexivity. }
  assert (Hdone : forall r,
    r = INSTALL_SUCCESS \/ r = INSTALL_ERROR ->
    (r = INSTALL_SUCCESS \/ r = INSTALL_ERROR \/ r = INSTALL_CORRUPT)
    /\ (r = INSTALL_CORRUPT <-> Some binary_entry = None)).
  { intros r [-> | ->]; (split; [auto|]); split; discriminate. }
  mrun. destruct (creat env update_binary_path <? 0)%Z; simpl.
  { intros [= <- <-]. apply Hdone. now right. }
  destruct (extractable binary_entry); simpl.
  2: { intros [= <- <-]. apply Hdone. now right. }
  destruct (child env _) as [from_child status].
  destruct (protocol_loop _ _ _) as [[fw t2]|]; [|discriminate].
  destruct (negb (WIFEXITED status) || negb (WEXITSTATUS status =? 0)%Z).
  { simpl. intros [= <- <-]. apply Hdone. now right. }
  destruct fw as [[type filename]|].
  - destruct (handle_firmware_update_result env type filename zip (t2 ++ [Waitpid]))
      as (r & evs & H & Hr).
    rewrite H. intros [= <- <-]. now apply Hdone.
  - intros [= <- <-]. apply Hdone. now left.
Qed.

(** [handle_update_script] always comes back, with SUCCESS or ERROR. *)
Lemma handle_update_script_result env zip entry t :
  exists result evs,
    handle_update_script env zip entry t = Some (result, t ++ evs)
    /\ (result = INSTALL_SUCCESS \/ result = INSTALL_ERROR).
Proof.
  unfold handle_update_script, read_data.
  destruct (to_int (uncompLen entry) <=? 0)%Z.
  { mrun. do 2 eexists. rewrite <- app_assoc. split; [reflexivity|auto]. }
  destruct (negb (malloc env _)).
  { mrun. do 2 eexists. rewrite <- app_assoc. split; [reflexivity|auto]. }
  destruct (negb (readable entry)).
  { mrun. do 2 eexists. rewrite <- app_assoc. split; [reflexivity|auto]. }
  mrun. destruct (parseAmendScript env _ _) as [commands|].
  - mrun. destruct (negb (execCommandList env commands =? 0)%Z); simpl;
      do 2 eexists; rewrite <- !app_assoc; (split; [reflexivity|auto]).
  - mrun. do 2 eexists. rewrite <- app_assoc. split; [reflexivity|auto].
Qed.

(** C1.  [handle_update_package] runs the binary path first.  That
    path answers CORRUPT exactly when the archive has no binary
    entry; any other answer of it (SUCCESS, or ERROR from a failed
    extraction or a failed child) is the result, and nothing of the
    script path happens.  Without a binary entry the script path
    runs, and when the script entry is missing too the result is
    CORRUPT. *)
Theorem handle_update_package_dispatch (env : Env) (path : chars)
    (zip : ZipArchive) (t : list event) :
  let t0 := t ++ [UiPrint InstallingUpdate] in
  (* the binary path runs first *)
  (forall result t', handle_update_package env path zip t = Some (result, t') ->
     exists binary_result t1,
       try_update_binary env path zip t0 = Some (binary_result, t1)
       /\ t1 `prefix_of` t')
  (* its CORRUPT is the absent entry *)
  /\ (forall binary_result t1,
        try_update_binary env path zip t0 = Some (binary_result, t1) ->
        (binary_result = INSTALL_CORRUPT <->
         zip !! ASSUMED_UPDATE_BINARY_NAME = None))
  (* any other result is final *)
  /\ (forall binary_result t1,
        try_update_binary env path zip t0 = Some (binary_result, t1) ->
        binary_result <> INSTALL_CORRUPT ->
        handle_update_package env path zip t
        = Some (binary_result, t1 ++ [RegisterPackageRoot None]))
  (* without a binary entry the script path runs *)
  /\ (forall script_entry,
        zip !! ASSUMED_UPDATE_BINARY_NAME = None ->
        zip !! ASSUMED_UPDATE_SCRIPT_NAME = Some script_entry ->
        handle_update_package env path zip t
        = (if (register_package_root env zip path <? 0)%Z then
             _ ← emit (LogE CantSetUpRoot); mret INSTALL_ERROR
           else
             result ← handle_update_script env zip script_entry;
             _ ← emit (RegisterPackageRoot None);
             mret result)
            (t0 ++ [RegisterPackageRoot None; RegisterPackageRoot (Some path)]))
  (* without either entry the package is corrupt *)
  /\ (zip !! ASSUMED_UPDATE_BINARY_NAME = None ->
      zip !! ASSUMED_UPDATE_SCRIPT_NAME = None ->
      handle_update_package env path zip t
      = Some (INSTALL_CORRUPT,
              t0 ++ [RegisterPackageRoot None; LogE CantFindScript])).
Proof.
  intros t0.
  assert (Habsent : zip !! ASSUMED_UPDATE_BINARY_NAME = None ->
          try_update_binary env path zip t0 = Some (INSTALL_CORRUPT, t0)).
  { intros H. unfold try_update_binary. now rewrite H. }
  split; [|split; [|split; [|split]]].
  - intros result t'. unfold handle_update_package. mrun. fold t0.
    destruct (try_update_binary env path zip t0) as [[r t1]|] eqn:E;
      [|discriminate].
    intros H. exists r, t1. split; [reflexivity|].
    destruct (negb (r =? INSTALL_SUCCESS)%Z && negb (r =? INSTALL_ERROR)%Z).
    + unfold find_update_script in H.
      destruct (zip !! ASSUMED_UPDATE_SCRIPT_NAME) as [e|].
      * revert H. mrun.
        destruct (register_package_root env zip path <? 0)%Z; simpl.
        -- intros [= _ <-]. rewrite <- !app_assoc. now apply prefix_app_r.
        -- destruct (handle_update_script_result env zip e
                       ((t1 ++ [RegisterPackageRoot None])
                          ++ [RegisterPackageRoot (Some path)]))
             as (r' & evs & -> & _).
           intros [= _ <-]. rewrite <- !app_assoc. now apply prefix_app_r.
      * revert H. mrun. intros [= _ <-]. rewrite <- !app_assoc.
        now apply prefix_app_r.
    + injection H as _ <-. now apply prefix_app_r.
  - intros binary_result t1 H.
    apply (try_update_binary_result _ _ _ _ _ _ H).
  - intros binary_result t1 H Hne.
    pose proof (try_update_binary_result _ _ _ _ _ _ H) as [[-> | [-> | ->]] _];
      try congruence;
      unfold handle_update_package; mrun; fold t0; rewrite H; reflexivity.
  - intros script_entry Hb Hs. unfold handle_update_package. mrun. fold t0.
    rewrite (Habsent Hb). simpl. unfold find_update_script. rewrite Hs.
    mrun. rewrite <- !app_assoc. reflexivity.
  - intros Hb Hs. unfold handle_update_package. mrun. fold t0.
    rewrite (Habsent Hb). simpl. unfold find_update_script. rewrite Hs.
    mrun. rewrite <- !app_assoc. reflexivity.
Qed.

Lemma handle_update_package_dispatch_witness :
  handle_update_package (sample_env ∅ true 0 [] (exited 0)) sample_path ∅ []
  = Some (INSTALL_CORRUPT,
          [UiPrint InstallingUpdate; RegisterPackageRoot None;
           LogE CantFindScript])
  /\ handle_update_package failing_child sample_path binary_package []
     = Some (INSTALL_ERROR,
             ([UiPrint InstallingUpdate]
                ++ launch_events failing_child sample_path
                ++ [Waitpid; LogE (ChildFailed sample_path 1)])
               ++ [RegisterPackageRoot None]).
Proof.
  split.
  - apply (handle_update_package_dispatch
             (sample_env ∅ true 0 [] (exited 0)) sample_path ∅ []);
      reflexivity.
  - apply (handle_update_package_dispatch
             failing_child sample_path binary_package []).
    + vm_compute. reflexivity.
    + discriminate.
Defined.

(** *** Before the dispatch *)

Lemma Zeqb_neq_negb (a b : Z) : a <> b -> negb (a =? b)%Z = true.
Proof. intros H. apply Z.eqb_neq in H. now rewrite H. Qed.

Ltac stop_corrupt :=
  eexists; rewrite <- ?app_assoc; split; [reflexivity|];
  repeat constructor.

(** C2.  When mounting, resolving the path, loading the keys,
    opening the archive or verifying its signature fails,
    [install_package] returns CORRUPT and none of its events belongs
    to an install path. *)
Theorem install_package_corrupt_before_dispatch (env : Env)
    (root_path : chars) (t : list event) :
  pre_dispatch_failure env root_path ->
  exists evs,
    install_package env root_path t = Some (INSTALL_CORRUPT, t ++ evs)
    /\ Forall (fun e => is_install_event e = false) evs.
Proof.
  intros Hfail. unfold install_package. mrun.
  destruct (negb (ensure_root_path_mounted env root_path =? 0)%Z) eqn:Emount;
    simpl; [stop_corrupt|].
  destruct (translate_root_path env root_path) as [path|] eqn:Epath;
    [|mrun; stop_corrupt].
  mrun.
  destruct (load_keys_total (RSANUMWORDS env) (keys_file env))
    as [Hkeys | (keys & _ & Hkeys)]; rewrite Hkeys.
  { unfold load_keys_exit. mrun. stop_corrupt. }
  mrun.
  destruct (mzOpenZipArchive env path) as [err zip] eqn:Eopen.
  destruct (negb (err =? 0)%Z) eqn:Eerr; simpl; [stop_corrupt|].
  destruct (verify_jar_signature env zip keys (Z.of_nat (length keys))) eqn:Everify;
    simpl; [|stop_corrupt].
  exfalso. destruct Hfail as [H | H | H | path' H H' | path' keys' n' H H' H''].
  - apply Zeqb_neq_negb in H. congruence.
  - congruence.
  - eapply H, Hkeys.
  - assert (path' = path) as -> by congruence. rewrite Eopen in H'.
    apply Zeqb_neq_negb in H'. simpl in H'. congruence.
  - assert (path' = path) as -> by congruence. rewrite Eopen in H''.
    simpl in H''. congruence.
Qed.

Lemma install_package_corrupt_before_dispatch_witness :
  exists evs,
    install_package unsigned_package (cs "SDCARD:update.zip") []
    = Some (INSTALL_CORRUPT, [] ++ evs)
    /\ Forall (fun e => is_install_event e = false) evs.
Proof.
  apply (install_package_corrupt_before_dispatch
           unsigned_package (cs "SDCARD:update.zip") []).
  apply (verify_fails unsigned_package _ sample_path [sample_key] 1%Z).
  - reflexivity.
  - vm_compute. reflexivity.
  - reflexivity.
Defined.

(** Whenever the archive opens and its signature is refused,
    [install_package] returns without closing it. *)
Lemma install_package_open_without_close env root_path path keys numKeys t :
  ensure_root_path_mounted env root_path = 0%Z ->
  translate_root_path env root_path = Some path ->
  load_keys (RSANUMWORDS env) (keys_file env) = Some (Some keys, numKeys) ->
  fst (mzOpenZipArchive env path) = 0%Z ->
  verify_jar_signature env (snd (mzOpenZipArchive env path)) keys numKeys
    = false ->
  exists evs,
    install_package env root_path t = Some (INSTALL_CORRUPT, t ++ evs)
    /\ count_event is_open evs = 1
    /\ count_event is_close evs = 0.
Proof.
  intros Hm Hp Hk Ho Hv. unfold install_package. mrun.
  rewrite Hm, Hp. mrun. rewrite Hk. mrun.
  destruct (mzOpenZipArchive env path) as [err zip]. simpl in *. subst err.
  rewrite Hv. simpl. eexists. rewrite <- !app_assoc.
  split; [reflexivity|]. split; reflexivity.
Qed.

(** C9.  On a package whose signature is refused, [install_package]
    opens the archive, returns CORRUPT, and does not close it. *)
Theorem install_package_leaves_archive_open :
  exists evs,
    install_package unsigned_package (cs "SDCARD:update.zip") []
    = Some (INSTALL_CORRUPT, evs)
    /\ count_event is_open evs = 1
    /\ count_event is_close evs = 0.
Proof. eexists. split; [vm_compute; reflexivity|]. split; reflexivity. Qed.


(** *** The diagnostic of a failed script *)

Lemma split_newline_lines s before after :
  split_newline s = Some (before, after) ->
  source_lines s = before :: source_lines after
  /\ newlines s = S (newlines after).
Proof.
  revert before. induction s as [|c r IH]; intros before; simpl; [discriminate|].
  destruct (ceq c LF).
  - intros [= <- <-]. auto.
  - destruct (split_newline r) as [[b a]|]; [|discriminate].
    intros [= <- <-]. destruct (IH b eq_refl) as [-> ->]. auto.
Qed.

Lemma split_newline_none s : split_newline s = None -> newlines s = 0.
Proof.
  induction s as [|c r IH]; simpl; [reflexivity|].
  destruct (ceq c LF); [discriminate|].
  destruct (split_newline r) as [[b a]|]; [discriminate|]. auto.
Qed.

Lemma locate_line_null k line : locate_line k line None = (line, None).
Proof. destruct k; reflexivity. Qed.

Lemma locate_line_found k : forall s line,
  1 <= k <= newlines s ->
  exists after,
    locate_line k line (Some s)
    = (Some (cstr (nth (k - 1) (source_lines s) [])), Some after).
Proof.
  induction k as [|k IH]; intros s line Hk; [lia|].
  simpl. destruct (split_newline s) as [[before after]|] eqn:E.
  - destruct (split_newline_lines _ _ _ E) as [-> Hn].
    destruct k as [|k].
    + simpl. eauto.
    + destruct (IH after (Some (cstr before))) as (rest & ->); [lia|].
      exists rest. simpl. rewrite Nat.sub_0_r. reflexivity.
  - apply split_newline_none in E. lia.
Qed.

Lemma locate_line_missing k : forall s line,
  newlines s < k -> snd (locate_line k line (Some s)) = None.
Proof.
  induction k as [|k IH]; intros s line Hk; [lia|].
  simpl. destruct (split_newline s) as [[before after]|] eqn:E.
  - destruct (split_newline_lines _ _ _ E) as [_ Hn]. apply IH. lia.
  - now rewrite locate_line_null.
Qed.

(** What the diagnostic shows: the line numbered [ret] when that many
    lines end in a newline, "not found" when fewer do, and a NULL
    when [ret] is not positive. *)
Lemma script_diagnostic_shows script ret :
  script_diagnostic script ret =
    if (ret <=? 0)%Z then LineNull
    else if (Z.to_nat ret <=? newlines script)%nat
         then LineText (cstr (nth (Z.to_nat ret - 1) (source_lines script) []))
         else LineNotFound.
Proof.
  unfold script_diagnostic.
  destruct (ret <=? 0)%Z eqn:E0.
  - apply Z.leb_le in E0. rewrite (Z2Nat.nonpos ret) by exact E0. reflexivity.
  - apply Z.leb_gt in E0.
    destruct (Z.to_nat ret <=? newlines script)%nat eqn:E1.
    + apply Nat.leb_le in E1.
      assert (Hk : 1 <= Z.to_nat ret <= newlines script) by lia.
      destruct (locate_line_found (Z.to_nat ret) script None Hk)
        as (after & Hloc).
      now rewrite Hloc.
    + apply Nat.leb_gt in E1.
      pose proof (locate_line_missing (Z.to_nat ret) script None E1) as H.
      destruct (locate_line _ _ _) as [line next]. simpl in H. subst next.
      now destruct line.
Qed.

(** C7.  The sample script has a third line, without a newline
    behind it.  When the interpreter stops at line 3,
    [handle_update_script] returns ERROR and its diagnostic says
    "not found" where that line should be. *)
Theorem script_diagnostic_misses_last_line :
  source_lines sample_script !! 2%nat
  = Some (cs "copy_dir PACKAGE:system SYSTEM:")
  /\ handle_update_script failing_script script_package
       (entry_of sample_script) []
     = Some (INSTALL_ERROR,
             [ParseAmendScript sample_script; LogI ScriptParsed;
              ExecCommandList; LogE (ScriptLineError 3 LineNotFound)]).
Proof. split; vm_compute; reflexivity. Qed.

End InstallFacts.

(** ** recovery.c *)

Module RecoveryFacts.
Import CLib Recovery CLibFacts Samples.

(** *** get_args *)

Lemma strlcat_take size (text more : chars) :
  strlcat size (take (size - 1) text) more = take (size - 1) (text ++ more).
Proof.
  unfold strlcat. rewrite take_app, length_take.
  f_equal. destruct (decide (length text <= size - 1)) as [H|H].
  - now rewrite Nat.min_r by lia.
  - rewrite Nat.min_l by lia. rewrite Nat.sub_diag.
    replace (size - 1 - length text) with 0 by lia. reflexivity.
Qed.

Lemma recovery_field_fold size (args : list chars) : forall text,
  fold_left (fun field arg => strlcat size (strlcat size field arg) [LF])
    args (take (size - 1) text)
  = take (size - 1) (text ++ concat (map (fun arg => arg ++ [LF]) args)).
Proof.
  induction args as [|arg args IH]; intros text; simpl.
  - now rewrite app_nil_r.
  - rewrite !strlcat_take, IH. now rewrite <- !app_assoc.
Qed.

(** The field written back is the full text, cut to the size of the
    field. *)
Lemma recovery_field_take env argv :
  recovery_field env argv = take (sizeof_recovery env - 1) (full_text argv).
Proof.
  unfold recovery_field, full_text, strlcpy.
  rewrite recovery_field_fold. now rewrite <- app_assoc.
Qed.

(** *** What is logged *)

Lemma logged_more_refl w : logged_more w w.
Proof. repeat split; reflexivity. Qed.

Lemma logged_more_trans w1 w2 w3 :
  logged_more w1 w2 -> logged_more w2 w3 -> logged_more w1 w3.
Proof.
  intros (Hb1 & Ho1 & Hf1 & Ht1) (Hb2 & Ho2 & Hf2 & Ht2).
  split; [congruence|]. split; [congruence|]. split.
  - intros p Hp. rewrite Hf2, Hf1 by assumption. reflexivity.
  - now transitivity (tmplog w2).
Qed.

Lemma tmplog_append extra w :
  is_Some (files w !! TEMPORARY_LOG_FILE) ->
  tmplog (append_tmplog extra w) = tmplog w ++ extra.
Proof.
  intros [t Ht]. unfold tmplog, append_tmplog. rewrite Ht. simpl.
  now rewrite lookup_insert_eq.
Qed.

Lemma append_logged_more extra w : logged_more w (append_tmplog extra w).
Proof.
  unfold append_tmplog.
  destruct (files w !! TEMPORARY_LOG_FILE) as [t|] eqn:Et;
    [|apply logged_more_refl].
  split; [reflexivity|]. split; [reflexivity|]. split.
  - intros p Hp. simpl. now rewrite lookup_insert_ne by congruence.
  - unfold tmplog. simpl. rewrite lookup_insert_eq, Et. now exists extra.
Qed.

Lemma log_logged_more env e w : logged_more w (log env e w).
Proof.
  unfold log. destruct (streams_reopened env).
  - apply (logged_more_trans _ (note e w)); [|apply append_logged_more].
    repeat split; reflexivity.
  - repeat split; reflexivity.
Qed.

Lemma log_trace env e w : trace (log env e w) = trace w ++ [e].
Proof.
  unfold log, append_tmplog. destruct (streams_reopened env); [|reflexivity].
  cbn [files note]. now destruct (files w !! TEMPORARY_LOG_FILE).
Qed.

Lemma args_from_boot_message_spec env argv w :
  let boot := get_bootloader_message env w in
  forall w0, logged_more w w0 ->
  let '(argv', w') := args_from_boot_message env boot argv w0 in
  logged_more w w'
  /\ argv' =
       (if (length argv <=? 1)%nat then
          match boot_message_args env w with
          | [] =>
              match strtok [LF] (boot_recovery env w) with
              | Some (arg, _) =>
                  if bool_decide (arg = cs "recovery") then [arg] else argv
              | None => argv
              end
          | args => cs "recovery" :: args
          end
        else argv).
Proof.
  intros boot w0 Hw0.
  unfold args_from_boot_message, boot_message_args, boot_recovery.
  fold boot.
  set (text := cstr (take (sizeof_recovery env - 1) (recovery boot))).
  destruct (length argv <=? 1)%nat; [|auto].
  assert (Hlog : forall e, logged_more w (log env e w0)).
  { intros e. eapply logged_more_trans; [exact Hw0|apply log_logged_more]. }
  assert (Hrefused :
    let '(argv', w') :=
      (if not_blank text
       then (argv, log env (LogE BadBootMessage) w0) else (argv, w0)) in
    logged_more w w' /\ argv' = argv).
  { destruct (not_blank text); auto. }
  destruct (strtok [LF] text) as [[arg rest]|].
  - destruct (bool_decide (arg = cs "recovery")) eqn:E.
    + apply bool_decide_eq_true in E. subst arg.
      generalize (boot_args (MAX_ARGS - 1) rest). intros args.
      destruct args; auto.
    + destruct (if not_blank _ then _ else _) as [argv' w'].
      destruct Hrefused as (? & ->). auto.
  - destruct (if not_blank _ then _ else _) as [argv' w'].
    destruct Hrefused as (? & ->). auto.
Qed.

Lemma args_from_command_file_spec env argv w0 w argv' w' :
  logged_more w w0 ->
  args_from_command_file env argv w0 = Some (argv', w') ->
  if (length argv <=? 1)%nat then
    translate_root_path env COMMAND_FILE <> Some TEMPORARY_LOG_FILE ->
    match command_file env w with
    | Some content =>
        file_args (take (MAX_ARGS - 1) (fgets_all MAX_ARG_LENGTH content))
        = Some (drop 1 argv')
    | None => argv' = argv
    end
  else argv' = argv.
Proof.
  intros (_ & _ & Hf & _).
  unfold args_from_command_file, command_file, fopen_root_path.
  destruct (length argv <=? 1)%nat; [|now intros [= <- _]].
  destruct (negb _); [now intros [= <- _]|].
  destruct (translate_root_path env COMMAND_FILE) as [path|];
    [|now intros [= <- _]].
  intros Hrun Hne. assert (Hp : path <> TEMPORARY_LOG_FILE) by congruence.
  rewrite <- (Hf path Hp). revert Hrun.
  destruct (files w0 !! path) as [content|] eqn:E;
    [|now intros [= <- _]].
  rewrite E. simpl.
  destruct (file_args _) as [args|]; [|discriminate].
  now intros [= <- _].
Qed.

(** C5, as claimed, fails: with an argument longer than the recovery
    field, [get_args] returns, and the field it has written is not
    ["recovery"] followed by every argument. *)
Lemma get_args_cuts_long_arguments :
  exists w',
    get_args recovery_env long_argv recovery_world = Some (long_argv, w')
    /\ length (recovery (bcb w')) = 1023
    /\ recovery (bcb w') <> full_text long_argv.
Proof.
  eexists. split; [vm_compute; reflexivity|]. split; [reflexivity|].
  intros H. apply (f_equal length) in H. vm_compute in H. discriminate.
Qed.

(** C5, amended.  When [get_args] returns, its arguments are those of
    the invocation if there is more than the program name; else
    those behind ["recovery"] in the control block if there are any;
    else those of the command file if it opens, one for each buffer
    [fgets] fills.  The command file is taken to be another file
    than the temporary log, which grows while [get_args] logs.  The
    control block then holds the command ["boot-recovery"] and a
    recovery field with ["recovery"] and every argument, one per
    line, cut to the size of the field: all of it whenever it
    fits. *)
Theorem get_args_resolves_and_persists (env : Env) (argv argv' : list chars)
    (w w' : world) :
  get_args env argv w = Some (argv', w') ->
  (* the arguments of the invocation *)
  (1 < length argv -> argv' = argv)
  (* else those of the control block *)
  /\ (length argv <= 1 -> boot_message_args env w <> [] ->
      argv' = cs "recovery" :: boot_message_args env w)
  (* else those of the command file *)
  /\ (length argv <= 1 -> boot_message_args env w = [] ->
      translate_root_path env COMMAND_FILE <> Some TEMPORARY_LOG_FILE ->
      forall content,
        command_file env w = Some content ->
        file_args (take (MAX_ARGS - 1) (fgets_all MAX_ARG_LENGTH content))
        = Some (drop 1 argv'))
  (* and the control block holds them again *)
  /\ command (bcb w') = take (sizeof_command env - 1) (cs "boot-recovery")
  /\ recovery (bcb w')
     = take (sizeof_recovery env - 1) (full_text argv')
  /\ (length (full_text argv') < sizeof_recovery env ->
      recovery (bcb w') = full_text argv').
Proof.
  unfold get_args.
  set (boot := get_bootloader_message env w).
  set (w0 := if not_blank (status boot) then _ else _).
  assert (Hw0 : logged_more w w0).
  { subst w0.
    destruct (not_blank (status boot)); destruct (not_blank (command boot));
      repeat first [ apply logged_more_refl
                   | apply log_logged_more
                   | eapply logged_more_trans; [|apply log_logged_more] ]. }
  pose proof (args_from_boot_message_spec env argv w w0 Hw0) as Hboot.
  fold boot in Hboot.
  destruct (args_from_boot_message env boot argv w0) as [argv1 w1].
  destruct Hboot as (Hw1 & Hargv1).
  destruct (args_from_command_file env argv1 w1) as [[argv2 w2]|] eqn:Efile;
    [|discriminate].
  intros [= <- <-].
  pose proof (args_from_command_file_spec env argv1 w1 w argv2 w2 Hw1 Efile)
    as Hfile.
  assert (Hfield : recovery (bcb (persist_args env boot argv2 w2))
                   = take (sizeof_recovery env - 1) (full_text argv2)).
  { simpl. apply recovery_field_take. }
  split; [|split; [|split; [|split; [|split]]]].
  - intros Hlen. apply Nat.leb_gt in Hlen. rewrite Hlen in Hargv1.
    subst argv1. now rewrite Hlen in Hfile.
  - intros Hlen Hargs. apply Nat.leb_le in Hlen. rewrite Hlen in Hargv1.
    destruct (boot_message_args env w) as [|arg args]; [contradiction|].
    subst argv1. simpl in Hfile. exact Hfile.
  - intros Hlen Hargs Hne content Hcontent.
    apply Nat.leb_le in Hlen. rewrite Hlen, Hargs in Hargv1.
    assert (Hlen1 : (length argv1 <=? 1)%nat = true).
    { subst argv1. destruct (strtok _ _) as [[arg rest]|]; [|exact Hlen].
      destruct (bool_decide _); [reflexivity | exact Hlen]. }
    rewrite Hlen1 in Hfile. specialize (Hfile Hne).
    rewrite Hcontent in Hfile. exact Hfile.
  - reflexivity.
  - exact Hfield.
  - intros Hfits. rewrite Hfield. apply take_ge. lia.
Qed.

Lemma get_args_resolves_and_persists_witness :
  file_args (take (MAX_ARGS - 1)
               (fgets_all MAX_ARG_LENGTH (cs "--wipe_data" ++ [LF])))
  = Some (drop 1 wipe_argv)
  /\ command (bcb wipe_world) = cs "boot-recovery"
  /\ recovery (bcb wipe_world) = full_text wipe_argv.
Proof.
  assert (Hrun : get_args recovery_env [cs "recovery"] recovery_world
                 = Some (wipe_argv, wipe_world))
    by (vm_compute; reflexivity).
  destruct (get_args_resolves_and_persists recovery_env [cs "recovery"]
              wipe_argv recovery_world wipe_world Hrun)
    as (_ & _ & Hfile & Hcommand & _ & Hrecovery).
  split; [|split].
  - apply Hfile;
      [simpl; lia | reflexivity | discriminate | vm_compute; reflexivity].
  - exact Hcommand.
  - apply Hrecovery. vm_compute. lia.
Defined.

(** *** One argument for each line of the command file *)

Lemma fgets_go_line size line : forall cur room rest,
  Forall (fun c => ceq c LF = false) line ->
  length line < room ->
  fgets_go size cur room (line ++ LF :: rest)
  = (rev cur ++ line ++ [LF]) :: fgets_go size [] (size - 1) rest.
Proof.
  induction line as [|c line IH]; intros cur room rest Hline Hroom; simpl.
  - reflexivity.
  - inversion Hline as [|? ? Hc Hline']; subst. rewrite Hc.
    destruct room as [|[|room]]; simpl in Hroom; try lia.
    rewrite IH by (assumption || lia). simpl.
    now rewrite <- app_assoc.
Qed.

Lemma fgets_all_unlines size lines :
  Forall (fun line => Forall (fun c => ceq c LF = false) line
                      /\ length line + 1 < size) lines ->
  fgets_all size (unlines lines) = map (fun line => line ++ [LF]) lines.
Proof.
  unfold fgets_all, unlines.
  induction 1 as [|line lines [Hline Hlen] _ IH]; simpl; [reflexivity|].
  rewrite <- app_assoc. simpl.
  rewrite fgets_go_line by (assumption || lia). simpl. now rewrite IH.
Qed.

Lemma mem_three c :
  mem c [NUL; CR; LF] = false ->
  ceq c NUL = false /\ mem c [CR; LF] = false /\ ceq c LF = false.
Proof.
  simpl. destruct (ceq c NUL), (ceq c CR), (ceq c LF); simpl;
    intros; try discriminate; auto.
Qed.

Lemma cstr_plain line rest :
  Forall (fun c => mem c [NUL; CR; LF] = false) line ->
  cstr (line ++ rest) = line ++ cstr rest.
Proof.
  induction 1 as [|c line Hc _ IH]; simpl; [reflexivity|].
  apply mem_three in Hc as (-> & _ & _). now rewrite IH.
Qed.

Lemma span_out_plain line rest :
  Forall (fun c => mem c [NUL; CR; LF] = false) line ->
  span_out [CR; LF] (line ++ LF :: rest) = (line, rest).
Proof.
  induction 1 as [|c line Hc _ IH]; [reflexivity|].
  apply mem_three in Hc as (_ & Hc & _).
  cbn [app span_out]. now rewrite Hc, IH.
Qed.

Lemma strtok_plain_line line :
  plain_line line ->
  strtok [CR; LF] (cstr (line ++ [LF])) = Some (line, []).
Proof.
  intros (Hne & _ & Hline).
  rewrite cstr_plain by assumption.
  change (cstr [LF]) with [LF].
  destruct line as [|c line]; [contradiction|].
  unfold strtok. cbn [app span_in].
  inversion Hline as [|? ? Hc Hline']; subst.
  destruct (mem_three c Hc) as (_ & Hc' & _). rewrite Hc'.
  change (c :: line ++ [LF]) with ((c :: line) ++ [LF]).
  now rewrite span_out_plain.
Qed.

Lemma file_args_plain lines :
  Forall plain_line lines ->
  file_args (map (fun line => line ++ [LF]) lines) = Some lines.
Proof.
  induction 1 as [|line lines Hline _ IH]; [reflexivity|].
  cbn [map file_args]. now rewrite strtok_plain_line, IH.
Qed.

(** A command file of plain lines gives one argument per line, the
    newline taken off. *)
Lemma command_file_lines lines :
  Forall plain_line lines -> length lines < MAX_ARGS ->
  file_args (take (MAX_ARGS - 1) (fgets_all MAX_ARG_LENGTH (unlines lines)))
  = Some lines.
Proof.
  intros Hlines Hcount. rewrite fgets_all_unlines.
  - rewrite take_ge by (rewrite length_map; lia).
    now apply file_args_plain.
  - eapply Forall_impl; [exact Hlines|].
    intros line (_ & Hlen & Hline). split; [|exact Hlen].
    eapply Forall_impl; [exact Hline|].
    intros c Hc. now apply mem_three in Hc.
Qed.

(** *** finish_recovery *)

Lemma copy_lines_nil : copy_lines [] = [].
Proof. reflexivity. Qed.

Lemma copied_tmplog w :
  copied w = copy_lines (drop (tmplog_offset w) (tmplog w)).
Proof.
  unfold copied, tmplog.
  destruct (files w !! TEMPORARY_LOG_FILE); [reflexivity|].
  simpl. now rewrite drop_nil.
Qed.

Lemma offset_after_tmplog w :
  offset_after w = tmplog_offset w `max` length (tmplog w).
Proof.
  unfold offset_after, tmplog.
  destruct (files w !! TEMPORARY_LOG_FILE); [reflexivity|]. simpl. lia.
Qed.

Lemma logged_more_same w w' :
  bcb w' = bcb w -> tmplog_offset w' = tmplog_offset w ->
  (forall p, p <> TEMPORARY_LOG_FILE -> files w' !! p = files w !! p) ->
  files w' !! TEMPORARY_LOG_FILE = files w !! TEMPORARY_LOG_FILE ->
  logged_more w w'.
Proof.
  intros Hb Ho Hf Ht. repeat split; try assumption.
  unfold tmplog. now rewrite Ht.
Qed.

Section Facts.
Variable env : Env.

Lemma log_quiet e w :
  streams_reopened env = false -> files (log env e w) = files w.
Proof. intros H. unfold log. now rewrite H. Qed.

(** [fopen_root_path] for writing or appending, when it fails. *)
Lemma fopen_root_path_none root_path m w w' :
  fopen_root_path env root_path m w = (None, w') -> logged_more w w'.
Proof.
  unfold fopen_root_path.
  destruct (negb _); [intros [= <-]; apply log_logged_more|].
  destruct (translate_root_path env root_path) as [path|];
    [|intros [= <-]; apply log_logged_more].
  destruct m.
  - destruct (files w !! path); [discriminate|].
    intros [= <-]. apply logged_more_refl.
  - destruct (fopen_writable env path); [discriminate|].
    intros [= <-]. apply logged_more_refl.
  - destruct (fopen_writable env path); [discriminate|].
    intros [= <-]. apply logged_more_refl.
Qed.

(** [record_intent] writes to the intent file, and to the temporary
    log when it has to log. *)
Lemma record_intent_keeps send_intent w p :
  translate_root_path env INTENT_FILE <> Some p ->
  p <> TEMPORARY_LOG_FILE ->
  files (record_intent env send_intent w) !! p = files w !! p.
Proof.
  intros Hp Ht. unfold record_intent.
  destruct send_intent as [intent|]; [|reflexivity].
  destruct (fopen_root_path env INTENT_FILE ModeW w) as [[fp|] w1] eqn:E.
  - revert E. unfold fopen_root_path, fputs.
    destruct (negb _); [discriminate|].
    destruct (translate_root_path env INTENT_FILE) as [path|];
      [|discriminate].
    destruct (fopen_writable env path); [|discriminate].
    intros [= <- <-]. simpl.
    assert (path <> p) by congruence.
    now rewrite !lookup_insert_ne by assumption.
  - apply fopen_root_path_none in E as (_ & _ & Hf & _).
    destruct (log_logged_more env (LogE (CantOpen INTENT_FILE)) w1)
      as (_ & _ & Hf' & _).
    now rewrite Hf', Hf by assumption.
Qed.

Lemma record_intent_offset send_intent w :
  tmplog_offset (record_intent env send_intent w) = tmplog_offset w
  /\ bcb (record_intent env send_intent w) = bcb w.
Proof.
  unfold record_intent.
  destruct send_intent as [intent|]; [|auto].
  destruct (fopen_root_path env INTENT_FILE ModeW w) as [[fp|] w1] eqn:E.
  - revert E. unfold fopen_root_path, fputs.
    destruct (negb _); [discriminate|].
    destruct (translate_root_path env INTENT_FILE) as [path|];
      [|discriminate].
    destruct (fopen_writable env path); [|discriminate].
    intros [= <- <-]. auto.
  - apply fopen_root_path_none in E as (Hb & Ho & _).
    destruct (log_logged_more env (LogE (CantOpen INTENT_FILE)) w1)
      as (Hb' & Ho' & _).
    split; congruence.
Qed.

Lemma record_intent_tmplog send_intent w :
  differ (Some TEMPORARY_LOG_FILE) (translate_root_path env INTENT_FILE) ->
  tmplog w `prefix_of` tmplog (record_intent env send_intent w)
  /\ (intent_goes env send_intent ->
      files (record_intent env send_intent w) !! TEMPORARY_LOG_FILE
      = files w !! TEMPORARY_LOG_FILE).
Proof.
  intros Hti. unfold record_intent, intent_goes.
  destruct send_intent as [intent|]; [|auto].
  destruct (fopen_root_path env INTENT_FILE ModeW w) as [[fp|] w1] eqn:E.
  - revert E. unfold fopen_root_path, fputs.
    destruct (negb _); [discriminate|].
    destruct (translate_root_path env INTENT_FILE) as [path|] eqn:Ep;
      [|discriminate].
    destruct (fopen_writable env path); [|discriminate].
    intros [= <- <-].
    assert (Hne : path <> TEMPORARY_LOG_FILE).
    { intros ->. now apply (Hti _ eq_refl). }
    unfold tmplog. simpl. rewrite !lookup_insert_ne by assumption. auto.
  - pose proof (fopen_root_path_none _ _ _ _ E) as (_ & _ & _ & Ht).
    destruct (log_logged_more env (LogE (CantOpen INTENT_FILE)) w1)
      as (_ & _ & _ & Ht').
    split; [now transitivity (tmplog w1)|].
    intros (Hmount & path & Hpath & Hopen). revert E.
    unfold fopen_root_path. rewrite Hmount, Hpath, Hopen. discriminate.
Qed.

(** [copy_log] with a persistent log that opens. *)
Lemma copy_log_opened w path :
  log_opened env = Some path -> path <> TEMPORARY_LOG_FILE ->
  files (copy_log env w) !! path
    = Some (default [] (files w !! path) ++ copied w)
  /\ tmplog w `prefix_of` tmplog (copy_log env w)
  /\ (is_Some (files w !! TEMPORARY_LOG_FILE) ->
      files (copy_log env w) !! TEMPORARY_LOG_FILE
      = files w !! TEMPORARY_LOG_FILE)
  /\ tmplog_offset (copy_log env w) = offset_after w
  /\ bcb (copy_log env w) = bcb w.
Proof.
  unfold log_opened, copy_log, fopen_root_path, copied, offset_after.
  destruct (negb _); [discriminate|].
  destruct (translate_root_path env LOG_FILE) as [lp|]; [|discriminate].
  destruct (fopen_writable env lp); [|discriminate].
  intros [= ->] Hne. simpl.
  rewrite (lookup_insert_ne _ path TEMPORARY_LOG_FILE) by assumption.
  destruct (files w !! TEMPORARY_LOG_FILE) as [tmplog|] eqn:E; simpl.
  - rewrite !lookup_insert_eq. simpl.
    unfold Recovery.tmplog. simpl.
    rewrite !lookup_insert_ne by assumption. rewrite E. auto.
  - set (w1 := set_files _ w).
    destruct (log_logged_more env (LogE (CantOpen TEMPORARY_LOG_FILE)) w1)
      as (Hb & Ho & Hf & Ht).
    rewrite Hf, Ho, Hb by assumption. subst w1. simpl.
    rewrite lookup_insert_eq, app_nil_r.
    split; [reflexivity|]. split.
    + etransitivity; [|exact Ht]. unfold Recovery.tmplog. simpl.
      rewrite lookup_insert_ne by assumption. reflexivity.
    + split; [intros [? [=]]|auto].
Qed.

(** [copy_log] with a persistent log that does not open. *)
Lemma copy_log_closed w :
  log_opened env = None -> logged_more w (copy_log env w).
Proof.
  unfold log_opened, copy_log.
  destruct (fopen_root_path env LOG_FILE ModeA w) as [[fp|] w1] eqn:E.
  - revert E. unfold fopen_root_path.
    destruct (negb _); [discriminate|].
    destruct (translate_root_path env LOG_FILE) as [lp|]; [|discriminate].
    destruct (fopen_writable env lp); discriminate.
  - intros _. apply fopen_root_path_none in E.
    eapply logged_more_trans; [exact E|apply log_logged_more].
Qed.

Lemma log_opened_place path :
  log_opened env = Some path ->
  translate_root_path env LOG_FILE = Some path.
Proof.
  unfold log_opened. destruct (negb _); [discriminate|].
  destruct (translate_root_path env LOG_FILE) as [lp|]; [|discriminate].
  destruct (fopen_writable env lp); [|discriminate]. congruence.
Qed.

(** [copy_log] writes to the persistent log, and to the temporary
    log when it has to log. *)
Lemma copy_log_keeps w p :
  translate_root_path env LOG_FILE <> Some p ->
  p <> TEMPORARY_LOG_FILE ->
  files (copy_log env w) !! p = files w !! p.
Proof.
  intros Hp Ht. unfold copy_log.
  destruct (fopen_root_path env LOG_FILE ModeA w) as [[fp|] w1] eqn:E.
  - revert E. unfold fopen_root_path.
    destruct (negb _); [discriminate|].
    destruct (translate_root_path env LOG_FILE) as [path|]; [|discriminate].
    destruct (fopen_writable env path); [|discriminate].
    intros [= <- <-]. assert (path <> p) by congruence.
    match goal with
    | |- files (match ?x with _ => _ end) !! p = _ => destruct x
    end.
    + simpl. now rewrite !lookup_insert_ne by assumption.
    + match goal with
      | |- files (log env ?e ?w1) !! p = _ =>
          destruct (log_logged_more env e w1) as (_ & _ & Hf & _)
      end.
      rewrite Hf by assumption. simpl.
      now rewrite lookup_insert_ne by assumption.
  - apply fopen_root_path_none in E as (_ & _ & Hf & _).
    match goal with
    | |- files (log env ?e ?w1) !! p = _ =>
        destruct (log_logged_more env e w1) as (_ & _ & Hf' & _)
    end.
    now rewrite Hf', Hf by assumption.
Qed.

(** [remove_command_file] removes the command file, and writes to the
    temporary log when it has to log. *)
Lemma remove_command_file_keeps w p :
  translate_root_path env COMMAND_FILE <> Some p ->
  p <> TEMPORARY_LOG_FILE ->
  files (remove_command_file env w) !! p = files w !! p.
Proof.
  intros Hp Ht. unfold remove_command_file.
  assert (Hlog : forall e, files (log env e w) !! p = files w !! p).
  { intros e. destruct (log_logged_more env e w) as (_ & _ & Hf & _).
    now apply Hf. }
  destruct (negb _); [apply Hlog|].
  destruct (translate_root_path env COMMAND_FILE) as [path|]; [|apply Hlog].
  destruct (files w !! path); [|reflexivity].
  destruct (unlink_refused env path); [apply Hlog|]. simpl.
  assert (path <> p) by congruence.
  now rewrite lookup_delete_ne by assumption.
Qed.

Lemma remove_command_file_offset w :
  tmplog_offset (remove_command_file env w) = tmplog_offset w
  /\ bcb (remove_command_file env w) = bcb w.
Proof.
  unfold remove_command_file.
  assert (Hlog : forall e, tmplog_offset (log env e w) = tmplog_offset w
                           /\ bcb (log env e w) = bcb w).
  { intros e. destruct (log_logged_more env e w) as (Hb & Ho & _). auto. }
  destruct (negb _); [apply Hlog|].
  destruct (translate_root_path env COMMAND_FILE) as [path|]; [|apply Hlog].
  destruct (files w !! path); [|auto].
  destruct (unlink_refused env path); [apply Hlog|auto].
Qed.

Lemma remove_command_file_tmplog w :
  differ (Some TEMPORARY_LOG_FILE) (translate_root_path env COMMAND_FILE) ->
  tmplog w `prefix_of` tmplog (remove_command_file env w)
  /\ (command_file_goes env w ->
      files (remove_command_file env w) !! TEMPORARY_LOG_FILE
      = files w !! TEMPORARY_LOG_FILE).
Proof.
  intros Htc. unfold remove_command_file, command_file_goes.
  assert (Hlog : forall e, tmplog w `prefix_of` tmplog (log env e w)).
  { intros e. now destruct (log_logged_more env e w) as (_ & _ & _ & Ht). }
  destruct (ensure_root_path_mounted env COMMAND_FILE =? 0)%Z eqn:Em;
    cbn [negb].
  2:{ split; [apply Hlog|]. intros [H _]. apply Z.eqb_neq in Em.
      contradiction. }
  destruct (translate_root_path env COMMAND_FILE) as [path|] eqn:Ep.
  2:{ split; [apply Hlog|]. intros (_ & p & [=] & _). }
  assert (Hne : path <> TEMPORARY_LOG_FILE).
  { intros ->. now apply (Htc _ eq_refl). }
  destruct (files w !! path) as [content|] eqn:Ef; [|auto].
  destruct (unlink_refused env path) eqn:Er.
  - split; [apply Hlog|]. intros (_ & p & [= <-] & [H|H]); congruence.
  - unfold tmplog. simpl. rewrite lookup_delete_ne by assumption. auto.
Qed.

Lemma unlink_warnings_log e w :
  unlink_warnings (trace (log env e w))
  = unlink_warnings (trace w) + (if is_unlink_warning e then 1 else 0).
Proof.
  rewrite log_trace. unfold unlink_warnings.
  rewrite filter_app, length_app.
  f_equal. rewrite filter_cons. destruct (is_unlink_warning e); reflexivity.
Qed.

Lemma fopen_root_path_warnings root_path m w :
  unlink_warnings (trace (snd (fopen_root_path env root_path m w)))
  = unlink_warnings (trace w).
Proof.
  unfold fopen_root_path.
  destruct (negb _); [simpl; rewrite unlink_warnings_log; simpl; lia|].
  destruct (translate_root_path env root_path) as [path|];
    [|simpl; rewrite unlink_warnings_log; simpl; lia].
  destruct m; [destruct (files w !! path)| |];
    try destruct (fopen_writable env path); reflexivity.
Qed.

Lemma record_intent_warnings send_intent w :
  unlink_warnings (trace (record_intent env send_intent w))
  = unlink_warnings (trace w).
Proof.
  unfold record_intent.
  destruct send_intent as [intent|]; [|reflexivity].
  pose proof (fopen_root_path_warnings INTENT_FILE ModeW w) as H.
  destruct (fopen_root_path env INTENT_FILE ModeW w) as [[fp|] w1];
    simpl in H.
  - exact H.
  - rewrite unlink_warnings_log, H. simpl. lia.
Qed.

Lemma copy_log_warnings w :
  unlink_warnings (trace (copy_log env w)) = unlink_warnings (trace w).
Proof.
  unfold copy_log.
  pose proof (fopen_root_path_warnings LOG_FILE ModeA w) as H.
  destruct (fopen_root_path env LOG_FILE ModeA w) as [[fp|] w1];
    simpl in H.
  - destruct (files w1 !! TEMPORARY_LOG_FILE).
    + exact H.
    + rewrite unlink_warnings_log, H. simpl. lia.
  - rewrite unlink_warnings_log, H. simpl. lia.
Qed.

Lemma log_exists e w p :
  is_Some (files w !! p) -> is_Some (files (log env e w) !! p).
Proof.
  unfold log, append_tmplog. destruct (streams_reopened env); [|auto].
  cbn [files note]. intros H.
  destruct (files w !! TEMPORARY_LOG_FILE) as [t|]; [|exact H].
  cbn [files set_files].
  destruct (decide (p = TEMPORARY_LOG_FILE)) as [->|Hne].
  - rewrite lookup_insert_eq. now eexists.
  - now rewrite lookup_insert_ne by congruence.
Qed.

Lemma record_intent_exists send_intent w p :
  is_Some (files w !! p) ->
  is_Some (files (record_intent env send_intent w) !! p).
Proof.
  intros H. unfold record_intent, fopen_root_path, fputs.
  destruct send_intent as [intent|]; [|exact H].
  destruct (negb _); [now do 2 apply log_exists|].
  destruct (translate_root_path env INTENT_FILE) as [path|];
    [|now do 2 apply log_exists].
  destruct (fopen_writable env path); [|now apply log_exists].
  simpl. destruct (decide (p = path)) as [->|Hne].
  - rewrite lookup_insert_eq. now eexists.
  - now rewrite !lookup_insert_ne by congruence.
Qed.

Hypothesis apart : paths_apart env.

(** One call, with a persistent log that opens: the log gains what
    the temporary log holds behind the offset when it is copied, and
    the offset moves to the end of that. *)
Lemma finish_recovery_opened send_intent w path :
  log_opened env = Some path ->
  let wa := record_intent env send_intent w in
  let w1 := finish_recovery env send_intent w in
  files w1 !! path
    = Some (default [] (files w !! path)
              ++ copy_lines (drop (tmplog_offset w) (tmplog wa)))
  /\ tmplog_offset w1 = tmplog_offset w `max` length (tmplog wa)
  /\ tmplog wa `prefix_of` tmplog w1
  /\ tmplog w `prefix_of` tmplog wa
  /\ (is_Some (files wa !! TEMPORARY_LOG_FILE) ->
      command_file_goes env w -> tmplog w1 = tmplog wa).
Proof.
  intros Hopen wa w1. pose proof (log_opened_place _ Hopen) as Hplace.
  destruct apart as (Hti & Htl & Htc & Hli & Hlc & Hci).
  assert (Hne : path <> TEMPORARY_LOG_FILE).
  { intros ->. now apply (Htl _ eq_refl). }
  pose proof (record_intent_keeps send_intent w path (Hli _ Hplace) Hne)
    as Hfa.
  destruct (record_intent_offset send_intent w) as [Hoa _].
  destruct (record_intent_tmplog send_intent w Hti) as [Hta _].
  fold wa in Hfa, Hoa, Hta.
  destruct (copy_log_opened wa path Hopen Hne)
    as (Hfb & Htb & Hsame & Hob & _).
  set (wb := copy_log env wa) in *.
  set (wc := set_bootloader_message zeroed wb).
  pose proof (remove_command_file_keeps wc path (Hlc _ Hplace) Hne) as Hfd.
  destruct (remove_command_file_offset wc) as [Hod _].
  destruct (remove_command_file_tmplog wc Htc) as [Htd Hquiet].
  assert (Hw1 : w1 = note Sync (remove_command_file env wc)) by reflexivity.
  rewrite Hw1. unfold tmplog in *. cbn [files tmplog_offset note].
  rewrite Hfd, Hod. subst wc. cbn [files tmplog_offset set_bootloader_message].
  rewrite Hfb, Hob, Hfa, copied_tmplog, offset_after_tmplog, Hoa.
  split; [reflexivity|]. split; [reflexivity|].
  split; [now transitivity (default [] (files wb !! TEMPORARY_LOG_FILE))|].
  split; [exact Hta|].
  intros Hsome Hgoes.
  cbn [files set_bootloader_message] in Hquiet. rewrite Hquiet.
  - now rewrite Hsame.
  - destruct Hgoes as (Hm & cp & Hcp & Hgone).
    split; [exact Hm|]. exists cp. split; [exact Hcp|].
    destruct Hgone as [Hnone|Hfree]; [left|now right].
    cbn [files set_bootloader_message]. subst wb wa.
    assert (Hcne : cp <> TEMPORARY_LOG_FILE).
    { intros ->. now apply (Htc _ eq_refl). }
    rewrite copy_log_keeps by (try assumption; intros H; now apply (Hlc _ H)).
    rewrite record_intent_keeps
      by (try assumption; intros H; now apply (Hci _ Hcp)).
    exact Hnone.
Qed.

(** One call, with a persistent log that does not open: nothing is
    copied. *)
Lemma finish_recovery_closed send_intent w path :
  log_opened env = None ->
  translate_root_path env LOG_FILE = Some path ->
  files (finish_recovery env send_intent w) !! path = files w !! path.
Proof.
  intros Hclosed Hplace.
  destruct apart as (Hti & Htl & Htc & Hli & Hlc & _).
  assert (Hne : path <> TEMPORARY_LOG_FILE).
  { intros ->. now apply (Htl _ eq_refl). }
  unfold finish_recovery. cbn [files note].
  rewrite remove_command_file_keeps by (try assumption; now apply Hlc).
  cbn [files set_bootloader_message].
  destruct (copy_log_closed (record_intent env send_intent w) Hclosed)
    as (_ & _ & Hf & _).
  rewrite Hf by assumption.
  apply record_intent_keeps; [now apply Hli|assumption].
Qed.

End Facts.

Lemma finish_recovery_bcb env send_intent w :
  bcb (finish_recovery env send_intent w) = zeroed.
Proof.
  unfold finish_recovery. cbn [bcb note].
  now rewrite (proj2 (remove_command_file_offset env _)).
Qed.

(** C8.  [finish_recovery] twice in a row copies nothing twice.  The
    offsets cut the temporary log: what lies before the first offset
    was copied by the first call, what lies between the offsets is
    what the second call has appended to the persistent log, and
    that is what was logged since the first copy.  When nothing was
    logged in between (the command file is gone or goes, and the
    second intent can be recorded), the second call leaves the
    persistent log as the first left it.  The control block is zeroed
    after each call.  A command file that is not there is no
    failure: no warning is logged and it stays absent. *)
Theorem finish_recovery_idempotent (env : Env)
    (send_intent again : option chars) (w : world) :
  paths_apart env ->
  let w1 := finish_recovery env send_intent w in
  let w2 := finish_recovery env again w1 in
  (* the copy resumes from the recorded offset *)
  (forall log_path,
      log_opened env = Some log_path ->
      tmplog_offset w <= length (tmplog w) ->
      exists copied1 gained later,
        tmplog w2 = copied1 ++ gained ++ later
        /\ tmplog_offset w1 = length copied1
        /\ tmplog_offset w2 = length (copied1 ++ gained)
        /\ files w1 !! log_path
           = Some (default [] (files w !! log_path)
                     ++ copy_lines (drop (tmplog_offset w) copied1))
        /\ files w2 !! log_path
           = Some (default [] (files w1 !! log_path) ++ copy_lines gained))
  (* no duplicate content *)
  /\ (forall log_path,
        translate_root_path env LOG_FILE = Some log_path ->
        is_Some (files w !! TEMPORARY_LOG_FILE) ->
        command_file_goes env w -> intent_goes env again ->
        files w2 !! log_path = files w1 !! log_path)
  (* the command slot is zeroed *)
  /\ bcb w1 = zeroed /\ bcb w2 = zeroed
  (* no command file is no error *)
  /\ (forall command_path,
        ensure_root_path_mounted env COMMAND_FILE = 0%Z ->
        translate_root_path env COMMAND_FILE = Some command_path ->
        files w !! command_path = None ->
        unlink_warnings (trace w1) = unlink_warnings (trace w)
        /\ files w1 !! command_path = None).
Proof.
  intros apart w1 w2. split; [|split; [|split; [|split]]].
  - intros log_path Hopen Hoff.
    destruct (finish_recovery_opened env apart send_intent w log_path Hopen)
      as (Hf1 & Ho1 & [k1 Ht1] & [k0 Ht0] & _).
    destruct (finish_recovery_opened env apart again w1 log_path Hopen)
      as (Hf2 & Ho2 & [k3 Ht3] & [k2 Ht2] & _).
    fold w1 in Hf1, Ho1, Ht1. fold w2 in Hf2, Ho2, Ht3.
    set (copied1 := tmplog (record_intent env send_intent w)) in *.
    rewrite Ht1 in Ht2. rewrite Ht2 in Hf2, Ho2, Ht3.
    assert (Hlen : length (tmplog w) <= length copied1).
    { rewrite Ht0, length_app. lia. }
    assert (Ho1' : tmplog_offset w1 = length copied1) by lia.
    exists copied1, (k1 ++ k2), k3. rewrite <- !app_assoc in *.
    split; [exact Ht3|]. split; [exact Ho1'|]. split.
    + rewrite Ho2, Ho1'. rewrite !length_app. lia.
    + split; [exact Hf1|]. rewrite Hf2, Ho1'.
      now rewrite drop_app_length.
  - intros log_path Hplace Hsome Hcommand Hintent.
    destruct (log_opened env) as [path|] eqn:Hopen.
    2:{ now apply finish_recovery_closed. }
    assert (path = log_path) as ->.
    { apply log_opened_place in Hopen. congruence. }
    destruct (finish_recovery_opened env apart send_intent w log_path Hopen)
      as (Hf1 & Ho1 & _ & _ & Hquiet).
    destruct (finish_recovery_opened env apart again w1 log_path Hopen)
      as (Hf2 & _).
    fold w1 in Hf1, Ho1, Hquiet. fold w2 in Hf2.
    rewrite Hf2, Hf1. cbn [default]. f_equal.
    etransitivity; [|apply app_nil_r]. f_equal.
    assert (Hsame : tmplog (record_intent env again w1) = tmplog w1).
    { destruct apart as (Hti & _).
      unfold tmplog.
      now rewrite (proj2 (record_intent_tmplog env again w1 Hti) Hintent). }
    rewrite Hsame, Hquiet, Ho1;
      [|now apply record_intent_exists|assumption].
    rewrite drop_ge by lia. reflexivity.
  - apply finish_recovery_bcb.
  - apply finish_recovery_bcb.
  - intros command_path Hmount Hplace Habsent. subst w1.
    destruct apart as (_ & _ & Htc & _ & Hlc & Hci).
    assert (Hne : command_path <> TEMPORARY_LOG_FILE).
    { intros ->. now apply (Htc _ eq_refl). }
    assert (Hkeep : files (copy_log env (record_intent env send_intent w))
                      !! command_path = None).
    { rewrite copy_log_keeps by (try assumption; intros H; now apply (Hlc _ H)).
      rewrite record_intent_keeps
        by (try assumption; intros H; now apply (Hci _ Hplace)).
      exact Habsent. }
    unfold finish_recovery. cbn [trace note files].
    unfold remove_command_file.
    rewrite Hmount, Hplace. cbn [negb Z.eqb files set_bootloader_message].
    rewrite Hkeep. cbn [trace set_bootloader_message].
    split; [|exact Hkeep].
    unfold unlink_warnings at 1. rewrite filter_app, length_app.
    fold (unlink_warnings (trace (copy_log env
                                    (record_intent env send_intent w)))).
    rewrite copy_log_warnings, record_intent_warnings. simpl. lia.
Qed.

Lemma recovery_env_apart : paths_apart recovery_env.
Proof.
  unfold paths_apart, differ.
  repeat split; intros p H; vm_compute in H; injection H as <-;
    vm_compute; discriminate.
Qed.

Lemma stubborn_env_apart : paths_apart stubborn_env.
Proof. exact recovery_env_apart. Qed.

Lemma finish_recovery_idempotent_witness :
  let w1 := finish_recovery recovery_env (Some (cs "done")) recovery_world in
  let w2 := finish_recovery recovery_env None w1 in
  files w2 !! cs "/cache/recovery/log" = files w1 !! cs "/cache/recovery/log"
  /\ files w1 !! cs "/cache/recovery/log"
     = Some (cs "Starting recovery" ++ [LF])
  /\ bcb w1 = zeroed /\ bcb w2 = zeroed.
Proof.
  intros w1 w2.
  destruct (finish_recovery_idempotent recovery_env (Some (cs "done")) None
              recovery_world recovery_env_apart)
    as (_ & Hsame & Hb1 & Hb2 & _).
  split; [|split; [|split]].
  - apply Hsame; [reflexivity|now eexists| |exact I].
    split; [reflexivity|]. eexists. split; [reflexivity|now right].
  - vm_compute. reflexivity.
  - exact Hb1.
  - exact Hb2.
Defined.

End RecoveryFacts.

(** ** install.c: the archive and the diagnostic *)

Module TraceFacts.
Import CLib Install InstallFacts TraceSpec Samples InstallExamples.

Lemma appends_ret {A} P (a : A) : appends P (mret a).
Proof.
  intros t b t' [= <- <-]. exists []. now rewrite app_nil_r.
Qed.

Lemma appends_crash {A} P : appends P (@crash A).
Proof. intros t a t' H. discriminate. Qed.

Lemma appends_emit (P : event -> Prop) e : P e -> appends P (emit e).
Proof.
  intros He t [] t' [= <-]. exists [e]. split; [reflexivity|].
  now repeat constructor.
Qed.

Lemma appends_bind {A B} P (m : M A) (f : A -> M B) :
  appends P m -> (forall a, appends P (f a)) -> appends P (m ≫= f).
Proof.
  intros Hm Hf t b t'. unfold mbind, M_bind.
  destruct (m t) as [[a t1]|] eqn:E; [|discriminate].
  intros H. destruct (Hm _ _ _ E) as (evs1 & -> & H1).
  destruct (Hf a _ _ _ H) as (evs2 & -> & H2).
  exists (evs1 ++ evs2). rewrite app_assoc. split; [reflexivity|].
  now apply Forall_app.
Qed.

Ltac beside := split; [reflexivity|split; [reflexivity|intros ?; discriminate]].

Ltac walk :=
  repeat first
    [ apply appends_ret
    | apply appends_crash
    | apply appends_emit; beside
    | apply appends_bind; [|intros ?]
    | match goal with
      | |- appends _ (if ?c then _ else _) => destruct c
      | |- appends _ (match ?x with Some _ => _ | None => _ end) =>
          destruct x
      | |- appends _ (let '(_, _) := ?x in _) => destruct x
      | a : unit |- _ => destruct a
      end ].

Lemma read_data_beside env entry :
  appends beside_archive (read_data env entry).
Proof. unfold read_data. walk. Qed.

Lemma handle_update_script_beside env zip entry :
  appends beside_archive (handle_update_script env zip entry).
Proof.
  unfold handle_update_script.
  apply appends_bind; [apply read_data_beside|].
  intros [[rc data] len]. walk.
Qed.

Lemma handle_firmware_update_beside env type filename zip :
  appends beside_archive (handle_firmware_update env type filename zip).
Proof. unfold handle_firmware_update. walk. Qed.

Lemma protocol_line_beside buffer fw :
  appends beside_archive (protocol_line buffer fw).
Proof.
  unfold protocol_line.
  destruct (strtok _ _) as [[command rest]|]; [|walk].
  destruct (streq command (cs "progress")).
  { destruct (strtok_next _ rest) as [f r1].
    destruct (strtok_next _ r1) as [s r2]. destruct f, s; walk. }
  destruct (streq command (cs "set_progress")).
  { destruct (strtok_next _ rest) as [f r1]. destruct f; walk. }
  destruct (streq command (cs "firmware")).
  { destruct (strtok_next _ rest) as [f r1].
    destruct (strtok_next _ r1) as [s r2]. destruct f, s; walk. }
  destruct (streq command (cs "ui_print")).
  { destruct (strtok_next _ rest) as [f r1]. destruct f; walk. }
  walk.
Qed.

Lemma protocol_loop_beside buffers : forall fw,
  appends beside_archive (protocol_loop buffers fw).
Proof.
  induction buffers as [|buffer buffers IH]; intros fw; simpl.
  - apply appends_ret.
  - apply appends_bind; [apply protocol_line_beside|exact IH].
Qed.

Lemma try_update_binary_beside env path zip :
  appends beside_archive (try_update_binary env path zip).
Proof.
  unfold try_update_binary.
  destruct (zip !! ASSUMED_UPDATE_BINARY_NAME); [|walk].
  do 2 (apply appends_bind; [apply appends_emit; beside|intros _]).
  destruct (_ <? _)%Z; [walk|].
  apply appends_bind; [apply appends_emit; beside|intros _].
  destruct (negb _); [walk|].
  apply appends_bind; [apply appends_emit; beside|intros _].
  destruct (child env _) as [from_child status].
  apply appends_bind; [apply protocol_loop_beside|intros fw].
  apply appends_bind; [apply appends_emit; beside|intros _].
  destruct (_ || _); [walk|].
  destruct fw as [[type filename]|]; [|walk].
  apply handle_firmware_update_beside.
Qed.

Lemma handle_update_package_beside env path zip :
  appends beside_archive (handle_update_package env path zip).
Proof.
  unfold handle_update_package.
  apply appends_bind; [apply appends_emit; beside|intros _].
  apply appends_bind; [apply try_update_binary_beside|intros result].
  apply appends_bind; [apply appends_emit; beside|intros _].
  destruct (_ && _); [|walk].
  destruct (find_update_script zip); [|walk].
  apply appends_bind; [apply appends_emit; beside|intros _].
  destruct (_ <? _)%Z; [walk|].
  apply appends_bind; [apply handle_update_script_beside|intros r].
  walk.
Qed.

Lemma count_event_app p a b :
  count_event p (a ++ b) = count_event p a + count_event p b.
Proof. unfold count_event. now rewrite filter_app, length_app. Qed.

Lemma count_event_cons p e l :
  count_event p (e :: l) = (if p e then 1 else 0) + count_event p l.
Proof.
  unfold count_event. rewrite filter_cons. now destruct (p e).
Qed.

Lemma beside_counts evs :
  Forall beside_archive evs ->
  count_event is_open evs = 0 /\ count_event is_close evs = 0
  /\ count_event is_accepted evs = 0.
Proof.
  induction 1 as [|e evs (Ho & Hc & Hv) _ (IHo & IHc & IHv)];
    [now repeat split|].
  assert (Ha : is_accepted e = false).
  { destruct e as [| [] | | | | | | | | | | | | | | | | | | |];
      try reflexivity.
    exfalso. eapply Hv. reflexivity. }
  unfold count_event in *. rewrite !filter_cons, Ho, Hc, Ha. simpl.
  auto.
Qed.

(** X20.  In every run of [install_package] that returns, the archive
    is opened at most once, and it is closed once when the signature
    was accepted and not at all otherwise. *)
Theorem install_package_closes_once_accepted env root_path t result t' :
  install_package env root_path t = Some (result, t') ->
  exists evs,
    t' = t ++ evs
    /\ count_event is_open evs <= 1
    /\ count_event is_close evs = count_event is_accepted evs
    /\ count_event is_close evs <= count_event is_open evs.
Proof.
  unfold install_package. mrun.
  destruct (negb (_ =? 0)%Z).
  { intros [= <- <-]. eexists. rewrite <- !app_assoc.
    split; [reflexivity|]. vm_compute. lia. }
  destruct (translate_root_path env root_path) as [path|].
  2:{ intros [= <- <-]. eexists. rewrite <- !app_assoc.
      split; [reflexivity|]. vm_compute. lia. }
  mrun. destruct (load_keys _ _) as [[[keys|] numKeys]|]; mrun;
    [| |discriminate].
  2:{ intros [= <- <-]. eexists. rewrite <- !app_assoc.
      split; [reflexivity|]. vm_compute. lia. }
  destruct (mzOpenZipArchive env path) as [err zip].
  destruct (negb (err =? 0)%Z).
  { simpl. intros [= <- <-]. eexists. rewrite <- !app_assoc.
    split; [reflexivity|]. vm_compute. lia. }
  destruct (verify_jar_signature env zip keys numKeys); simpl.
  2:{ intros [= <- <-]. eexists. rewrite <- !app_assoc.
      split; [reflexivity|]. vm_compute. lia. }
  destruct (handle_update_package env path zip _) as [[status t1]|] eqn:E;
    [|discriminate].
  intros [= <- <-].
  destruct (handle_update_package_beside env path zip _ _ _ E)
    as (evs & -> & Hevs).
  destruct (beside_counts evs Hevs) as (Ho & Hc & Hv).
  eexists. rewrite <- !app_assoc. split; [reflexivity|].
  cbn [app]. rewrite !count_event_cons, !count_event_app, Ho, Hc, Hv.
  vm_compute. lia.
Qed.

Lemma install_package_closes_once_accepted_witness :
  exists evs,
    failing_child_trace = [] ++ evs
    /\ count_event is_open evs <= 1
    /\ count_event is_close evs = count_event is_accepted evs
    /\ count_event is_close evs <= count_event is_open evs.
Proof.
  apply (install_package_closes_once_accepted failing_child
           (cs "SDCARD:update.zip") [] INSTALL_ERROR failing_child_trace).
  vm_compute. reflexivity.
Defined.

(** X21.  When the interpreter stops at line [ret] of a script that
    was read and parsed, [handle_update_script] returns ERROR and
    reports that line's text if at least [ret] lines of the script
    end in a newline, and "(not found)" if fewer do. *)
Theorem handle_update_script_reports_line env zip entry t commands ret :
  let script := take (Z.to_nat (to_int (uncompLen entry))) (contents entry) in
  (0 < to_int (uncompLen entry))%Z ->
  malloc env (to_int (uncompLen entry) + 1)%Z = true ->
  readable entry = true ->
  parseAmendScript env script (to_int (uncompLen entry)) = Some commands ->
  execCommandList env commands = ret ->
  (0 < ret)%Z ->
  handle_update_script env zip entry t
  = Some (INSTALL_ERROR,
          t ++ [ParseAmendScript script; LogI ScriptParsed; ExecCommandList;
                LogE (ScriptLineError ret
                  (if (Z.to_nat ret <=? newlines script)%nat
                   then LineText
                          (cstr (nth (Z.to_nat ret - 1)
                                   (source_lines script) []))
                   else LineNotFound))]).
Proof.
  intros script Hlen Hmalloc Hread Hparse Hexec Hret.
  unfold handle_update_script, read_data.
  destruct (_ <=? 0)%Z eqn:E; [apply Z.leb_le in E; lia|].
  rewrite Hmalloc, Hread. mrun. fold script. rewrite Hparse. mrun.
  rewrite Hexec.
  destruct (ret =? 0)%Z eqn:E0; [apply Z.eqb_eq in E0; lia|]. simpl.
  rewrite script_diagnostic_shows.
  destruct (ret <=? 0)%Z eqn:E1; [apply Z.leb_le in E1; lia|].
  rewrite <- !app_assoc. reflexivity.
Qed.

Lemma handle_update_script_reports_line_witness :
  handle_update_script failing_second_line script_package
    (entry_of sample_script) []
  = Some (INSTALL_ERROR,
          [ParseAmendScript sample_script; LogI ScriptParsed; ExecCommandList;
           LogE (ScriptLineError 2 (LineText (cs "format SYSTEM:")))]).
Proof.
  apply (handle_update_script_reports_line failing_second_line
           script_package (entry_of sample_script) [] tt 2%Z);
    reflexivity.
Defined.

End TraceFacts.

(** ** recovery.c: the control block and the log *)

Module ResumeFacts.
Import CLib Recovery CLibFacts Samples RecoveryFacts ResumeSpec.

Lemma mem_two c :
  mem c [NUL; LF] = false -> ceq c NUL = false /\ ceq c LF = false.
Proof.
  simpl. destruct (ceq c NUL), (ceq c LF); simpl; intros;
    try discriminate; auto.
Qed.

Lemma cstr_resumable arg rest :
  Forall (fun c => mem c [NUL; LF] = false) arg ->
  cstr (arg ++ rest) = arg ++ cstr rest.
Proof.
  induction 1 as [|c arg Hc _ IH]; simpl; [reflexivity|].
  apply mem_two in Hc as [-> _]. now rewrite IH.
Qed.

Lemma cstr_lines (args : list chars) :
  Forall resumable args ->
  cstr (concat (map (fun arg => arg ++ [LF]) args))
  = concat (map (fun arg => arg ++ [LF]) args).
Proof.
  induction 1 as [|arg args [_ Harg] _ IH]; [reflexivity|].
  simpl. rewrite <- app_assoc, cstr_resumable by assumption.
  simpl. now rewrite IH.
Qed.

Lemma span_out_line arg rest :
  Forall (fun c => mem c [NUL; LF] = false) arg ->
  span_out [LF] (arg ++ LF :: rest) = (arg, rest).
Proof.
  induction 1 as [|c arg Hc _ IH]; [reflexivity|].
  apply mem_two in Hc as [_ Hc].
  cbn [app span_out mem]. rewrite Hc. cbn [orb]. now rewrite IH.
Qed.

Lemma strtok_line arg rest :
  resumable arg -> strtok [LF] (arg ++ LF :: rest) = Some (arg, rest).
Proof.
  intros [Hne Harg]. destruct arg as [|c arg]; [contradiction|].
  unfold strtok. cbn [app span_in mem].
  inversion Harg as [|? ? Hc Harg']; subst.
  apply mem_two in Hc as [_ Hc]. rewrite Hc. cbn [orb].
  change (c :: arg ++ LF :: rest) with ((c :: arg) ++ LF :: rest).
  rewrite span_out_line by assumption. reflexivity.
Qed.

Lemma boot_args_lines (args : list chars) : forall count,
  Forall resumable args -> length args <= count ->
  boot_args count (concat (map (fun arg => arg ++ [LF]) args)) = args.
Proof.
  induction args as [|arg args IH]; intros count Hargs Hcount.
  - destruct count; reflexivity.
  - destruct count as [|count]; [simpl in Hcount; lia|].
    inversion Hargs as [|? ? Harg Hargs']; subst.
    cbn [map concat boot_args]. rewrite <- app_assoc. cbn [app].
    rewrite strtok_line by assumption.
    rewrite IH by (assumption || (simpl in Hcount; lia)). reflexivity.
Qed.

(** What [get_args] leaves in the control block. *)
Lemma get_args_bcb env argv w argv' w' :
  get_args env argv w = Some (argv', w') ->
  bcb w'
  = {| command := strlcpy (sizeof_command env) (cs "boot-recovery");
       status := status (get_bootloader_message env w);
       recovery := recovery_field env argv' |}.
Proof.
  unfold get_args.
  destruct (args_from_boot_message _ _ _ _) as [argv1 w1].
  destruct (args_from_command_file env argv1 w1) as [[argv2 w2]|];
    [|discriminate].
  now intros [= <- <-].
Qed.

Lemma cstr_text (text rest : chars) :
  Forall (fun c => ceq c NUL = false) text ->
  cstr (text ++ rest) = text ++ cstr rest.
Proof.
  induction 1 as [|c text Hc _ IH]; simpl; [reflexivity|].
  now rewrite Hc, IH.
Qed.

Lemma cstr_full_text (argv : list chars) :
  Forall resumable (drop 1 argv) -> cstr (full_text argv) = full_text argv.
Proof.
  intros Hargs. unfold full_text.
  rewrite (app_assoc (cs "recovery") [LF]).
  rewrite cstr_text by (repeat constructor).
  now rewrite cstr_lines.
Qed.

(** X18.  What [get_args] has written to the control block brings the
    same arguments back: when the control block can be read, the
    arguments are not empty and hold neither NUL nor newline, they
    are fewer than MAX_ARGS and their text fits the recovery field,
    a next [get_args] that is given the program name only resolves
    them again, behind ["recovery"], and leaves the control block as
    it is. *)
Theorem get_args_resumes env argv argv' w w' prog :
  bcb_readable env = true ->
  get_args env argv w = Some (argv', w') ->
  1 < length argv' <= MAX_ARGS ->
  Forall resumable (drop 1 argv') ->
  length (full_text argv') < sizeof_recovery env ->
  exists w'',
    get_args env [prog] w' = Some (cs "recovery" :: drop 1 argv', w'')
    /\ bcb w'' = bcb w'.
Proof.
  intros Hread Hrun Hcount Hargs Hfits.
  pose proof (get_args_bcb env argv w argv' w' Hrun) as Hbcb.
  rewrite recovery_field_take in Hbcb.
  rewrite take_ge in Hbcb by lia.
  set (args := drop 1 argv') in *.
  assert (Hne : args <> []).
  { subst args. destruct argv' as [|a [|b r]]; simpl in *; try lia.
    discriminate. }
  assert (Hboot : boot_recovery env w' = full_text argv').
  { unfold boot_recovery, get_bootloader_message. rewrite Hread, Hbcb.
    cbn [recovery]. rewrite take_ge by lia.
    now apply cstr_full_text. }
  assert (Hargs' : boot_message_args env w' = args).
  { unfold boot_message_args. rewrite Hboot. unfold full_text. fold args.
    change (cs "recovery" ++ [LF] ++ ?x) with (cs "recovery" ++ LF :: x).
    rewrite strtok_line by (split; [discriminate|repeat constructor]).
    rewrite bool_decide_eq_true_2 by reflexivity.
    apply boot_args_lines; [assumption|].
    subst args. rewrite length_drop. unfold MAX_ARGS in *. lia. }
  unfold get_args.
  set (boot := get_bootloader_message env w').
  set (w0 := if not_blank (status boot) then _ else _).
  assert (Hw0 : logged_more w' w0).
  { subst w0.
    destruct (not_blank (status boot)); destruct (not_blank (command boot));
      repeat first [ apply logged_more_refl
                   | apply log_logged_more
                   | eapply logged_more_trans; [|apply log_logged_more] ]. }
  pose proof (args_from_boot_message_spec env [prog] w' w0 Hw0) as Hspec.
  fold boot in Hspec.
  destruct (args_from_boot_message env boot [prog] w0) as [argv1 w1].
  destruct Hspec as (Hw1 & Hargv1).
  rewrite Hargs' in Hargv1. cbn [length Nat.leb] in Hargv1.
  destruct args as [|a args'] eqn:Eargs; [contradiction|].
  subst argv1.
  unfold args_from_command_file. cbn [length Nat.leb].
  eexists. split; [reflexivity|].
  cbn [persist_args set_bootloader_message bcb].
  rewrite recovery_field_take.
  assert (Hsame : full_text (cs "recovery" :: a :: args') = full_text argv').
  { unfold full_text. cbn [drop]. fold args. now rewrite Eargs. }
  rewrite Hsame, take_ge by lia.
  assert (Hb : boot = bcb w')
    by (subst boot; unfold get_bootloader_message; now rewrite Hread).
  rewrite Hb, Hbcb. reflexivity.
Qed.

Lemma get_args_resumes_witness :
  exists w'',
    get_args recovery_env [cs "/sbin/recovery"] wipe_world
    = Some (wipe_argv, w'')
    /\ bcb w'' = bcb wipe_world.
Proof.
  apply (get_args_resumes recovery_env [cs "recovery"] wipe_argv
           recovery_world wipe_world (cs "/sbin/recovery")).
  - reflexivity.
  - vm_compute. reflexivity.
  - simpl. unfold MAX_ARGS. lia.
  - repeat constructor. discriminate.
  - vm_compute. lia.
Defined.

Lemma fgets_go_whole size (s : chars) : forall cur room,
  concat (fgets_go size cur room s) = rev cur ++ s.
Proof.
  induction s as [|c s IH]; intros cur room; simpl.
  - destruct cur; simpl; now rewrite ?app_nil_r.
  - destruct (ceq c LF); simpl.
    + rewrite IH. simpl. now rewrite <- app_assoc.
    + destruct room as [|[|room]]; simpl; rewrite IH; simpl;
        now rewrite <- ?app_assoc.
Qed.

Lemma rev_free (cur : chars) : NUL ∉ cur -> NUL ∉ rev cur.
Proof.
  intros H Hin. apply H. apply list_elem_of_In, in_rev.
  now apply list_elem_of_In.
Qed.

Lemma fgets_go_free size (s : chars) : forall cur room,
  NUL ∉ cur -> NUL ∉ s ->
  Forall (fun buffer => NUL ∉ buffer) (fgets_go size cur room s).
Proof.
  induction s as [|c s IH]; intros cur room Hcur Hs; simpl.
  - destruct cur; [constructor|]. repeat constructor.
    now apply rev_free.
  - apply not_elem_of_cons in Hs as [Hc Hs].
    assert (Hnew : NUL ∉ c :: cur)
      by (apply not_elem_of_cons; split; [congruence|assumption]).
    assert (Hrev : NUL ∉ rev cur ++ [c]).
    { intros H. apply elem_of_app in H as [H|H].
      - now apply (rev_free cur Hcur).
      - apply list_elem_of_singleton in H. congruence. }
    destruct (ceq c LF).
    + constructor; [exact Hrev|]. apply IH; [apply not_elem_of_nil|exact Hs].
    + destruct room as [|[|room]].
      * constructor; [exact Hrev|].
        apply IH; [apply not_elem_of_nil|exact Hs].
      * constructor; [exact Hrev|].
        apply IH; [apply not_elem_of_nil|exact Hs].
      * apply IH; assumption.
Qed.

Lemma cstr_whole (s : chars) : NUL ∉ s -> cstr s = s.
Proof.
  induction s as [|c s IH]; [reflexivity|].
  intros H. apply not_elem_of_cons in H as [Hc Hs].
  simpl. destruct (ceq c NUL) eqn:E.
  - apply Ascii.eqb_eq in E. congruence.
  - now rewrite IH.
Qed.

(** The loop that copies the log loses nothing of a text without
    NUL. *)
Lemma copy_lines_whole (unread : chars) :
  NUL ∉ unread -> copy_lines unread = unread.
Proof.
  intros Hfree. unfold copy_lines, fgets_all.
  pose proof (fgets_go_free 4096 unread [] 4095 (not_elem_of_nil _) Hfree)
    as Hbuffers.
  rewrite <- (fgets_go_whole 4096 unread [] 4095) at 2.
  simpl. f_equal.
  induction Hbuffers as [|buffer buffers Hb _ IH]; [reflexivity|].
  simpl. now rewrite cstr_whole, IH.
Qed.

(** X19.  [finish_recovery] brings the temporary log to the
    persistent log whole.  When the log can be opened and what was
    not yet copied holds no NUL, the persistent log grows by exactly
    the part of the temporary log behind the offset, as the temporary
    log stands when it is copied: what the call has logged before,
    about the intent, is in it, since [stderr] is the temporary log.
    The offset moves to the end of what was copied; what the call
    logs later stays behind it for the next call. *)
Theorem finish_recovery_copies_log_whole env send_intent w log_path :
  paths_apart env ->
  log_opened env = Some log_path ->
  let w' := finish_recovery env send_intent w in
  exists before later,
    let copied := tmplog w ++ before in
    tmplog w' = copied ++ later
    /\ (intent_goes env send_intent -> before = [])
    /\ (is_Some (files w !! TEMPORARY_LOG_FILE) ->
        command_file_goes env w -> later = [])
    /\ tmplog_offset w' = tmplog_offset w `max` length copied
    /\ (NUL ∉ drop (tmplog_offset w) copied ->
        files w' !! log_path
        = Some (default [] (files w !! log_path)
                  ++ drop (tmplog_offset w) copied)).
Proof.
  intros apart Hopen w'. subst w'.
  destruct (finish_recovery_opened env apart send_intent w log_path Hopen)
    as (Hlog & Hoff & [later Hlater] & [before Hbefore] & Hquiet).
  exists before, later. cbv zeta. rewrite <- Hbefore.
  split; [exact Hlater|]. split.
  { intros Hintent. destruct apart as (Hti & _).
    pose proof (proj2 (record_intent_tmplog env send_intent w Hti) Hintent)
      as Hsame.
    unfold tmplog in Hbefore. rewrite Hsame in Hbefore.
    apply (f_equal length) in Hbefore. rewrite length_app in Hbefore.
    apply nil_length_inv. lia. }
  split.
  { intros Hsome Hgoes.
    rewrite Hquiet in Hlater
      by (try assumption; now apply record_intent_exists).
    apply (f_equal length) in Hlater. rewrite length_app in Hlater.
    apply nil_length_inv. lia. }
  split; [exact Hoff|].
  intros Hfree. rewrite Hlog. now rewrite copy_lines_whole.
Qed.

Lemma finish_recovery_copies_log_whole_witness :
  let w' := finish_recovery stubborn_env None recovery_world in
  let w'' := finish_recovery stubborn_env None w' in
  files w' !! cs "/cache/recovery/log" = Some (cs "Starting recovery" ++ [LF])
  /\ tmplog_offset w' = 18
  /\ files w'' !! cs "/cache/recovery/log"
     = Some (cs "Starting recovery" ++ [LF] ++ cs "W:failed" ++ [LF])
  /\ tmplog_offset w'' = 27.
Proof.
  intros w' w''.
  destruct (finish_recovery_copies_log_whole stubborn_env None
              recovery_world (cs "/cache/recovery/log") stubborn_env_apart
              eq_refl)
    as (before & later & _ & Hbefore & _ & Hoff & Hlog).
  rewrite (Hbefore I) in Hoff, Hlog.
  destruct (finish_recovery_copies_log_whole stubborn_env None
              w' (cs "/cache/recovery/log") stubborn_env_apart eq_refl)
    as (before' & later' & _ & Hbefore' & _ & Hoff' & Hlog').
  rewrite (Hbefore' I) in Hoff', Hlog'.
  split; [|split; [|split]].
  - apply Hlog. apply (bool_decide_unpack _). vm_compute. exact I.
  - exact Hoff.
  - fold w'' in Hlog'. rewrite Hlog'; [vm_compute; reflexivity|].
    apply (bool_decide_unpack _). vm_compute. exact I.
  - exact Hoff'.
Defined.

End ResumeFacts.

(** ** extra.c, recovery_ui.c and the menus of recovery.c *)

Module DescriptorFacts.
Import CLib RecoveryUI Extra ExtraSpec.

Local Open Scope Z_scope.

Lemma granted_gives a (rest : list answer) count :
  Forall gives (a :: rest) ->
  exists n, granted (Some a) count = Some n
            /\ (n <= count)%nat /\ (1 <= count -> 1 <= n)%nat.
Proof.
  intros H. apply Forall_cons in H as [Ha _].
  destruct a as [most|]; [|contradiction].
  simpl. eexists. split; [reflexivity|]. lia.
Qed.

Lemma granted_head (l : list answer) count :
  Forall gives l ->
  exists n, granted (head l) count = Some n
            /\ (n <= count)%nat /\ (1 <= count -> 1 <= n)%nat.
Proof.
  destruct l as [|a rest]; intros H.
  - exists count. simpl. split; [reflexivity|lia].
  - now apply granted_gives with (rest := rest).
Qed.

Lemma Forall_tail {A} (P : A -> Prop) (l : list A) :
  Forall P l -> Forall P (tail l).
Proof. destruct l; [trivial|]. now intros H%Forall_cons. Qed.

(** The loop, when no call fails: it stops with all that was asked
    for, or at the end of the file. *)
Lemma ensure_read_loop_gives turns : forall d size n data,
  Forall gives (answers d) ->
  (Z.to_nat (size - n) <= turns)%nat ->
  exists d',
    ensure_read_loop turns d size n data
    = Some (n + Z.of_nat (length (take (Z.to_nat (size - n)) (unread d))),
            data ++ take (Z.to_nat (size - n)) (unread d), d')
    /\ unread d' = drop (Z.to_nat (size - n)) (unread d)
    /\ Forall gives (answers d').
Proof.
  induction turns as [|turns IH]; intros d size n data Hg Ht.
  - assert (Z.to_nat (size - n) = 0%nat) as E by lia.
    exists d. simpl. rewrite E.
    assert ((n <? size) = false) as -> by (apply Z.ltb_ge; lia).
    simpl. rewrite app_nil_r, Z.add_0_r, drop_0. auto.
  - cbn [ensure_read_loop]. destruct (n <? size) eqn:En.
    2:{ apply Z.ltb_ge in En.
        assert (Z.to_nat (size - n) = 0%nat) as -> by lia.
        exists d. simpl. rewrite app_nil_r, Z.add_0_r, drop_0. auto. }
    apply Z.ltb_lt in En.
    set (count := Z.to_nat (size - n)) in *.
    destruct (granted_head (answers d) count Hg) as (m & Hm & Hle & Hpos).
    unfold read. rewrite Hm.
    destruct (unread d) as [|c u] eqn:Eu.
    + rewrite take_nil. simpl.
      eexists. rewrite take_nil, drop_nil, app_nil_r. simpl.
      rewrite Z.add_0_r, drop_nil.
      split; [reflexivity|]. split; [reflexivity|]. simpl.
      now apply Forall_tail.
    + assert (1 <= m)%nat as Hm1 by (apply Hpos; lia).
      assert (1 <= length (take m (c :: u)))%nat as Hgot.
      { rewrite length_take. simpl. lia. }
      destruct (Z.of_nat (length (take m (c :: u))) <=? 0) eqn:E0;
        [apply Z.leb_le in E0; lia|].
      set (got := take m (c :: u)) in *.
      set (d1 := {| unread := drop m (c :: u); answers := tail (answers d) |}).
      destruct (IH d1 size (n + Z.of_nat (length got)) (data ++ got))
        as (d' & Hrun & Hun & Hg').
      { now apply Forall_tail. }
      { pose proof (length_take_le (c :: u) m). subst got count.
        rewrite length_take in *. lia. }
      exists d'. rewrite Hrun. simpl unread in *.
      assert (Hsplit : take count (c :: u)
                       = got ++ take (Z.to_nat (size - (n + Z.of_nat (length got))))
                                  (drop m (c :: u))).
      { subst got. rewrite length_take.
        destruct (decide (m <= length (c :: u))%nat) as [Hin|Hout].
        - rewrite Nat.min_l by lia.
          replace (Z.to_nat (size - (n + Z.of_nat m))) with (count - m)%nat
            by (subst count; lia).
          rewrite <- (take_drop m (take count (c :: u))).
          rewrite take_take, Nat.min_l by lia.
          rewrite take_drop_commute. f_equal. f_equal. f_equal. lia.
        - rewrite (take_ge (c :: u) m) by lia.
          rewrite (drop_ge (c :: u) m) by lia.
          rewrite take_nil, app_nil_r. apply take_ge. lia. }
      rewrite Hsplit. rewrite length_app, <- app_assoc.
      split; [do 3 f_equal; lia|].
      split; [|exact Hg']. rewrite Hun.
        subst got. rewrite length_take.
        destruct (decide (m <= length (c :: u))%nat) as [Hin|Hout].
      * rewrite Nat.min_l by lia. rewrite drop_drop. f_equal.
        subst count. lia.
      * rewrite (drop_ge (c :: u) m) by lia. rewrite drop_nil.
        symmetry. apply drop_ge. lia.
Qed.

(** The loop, whatever the kernel answers: it ends, and what it has
    put into the buffer is the next bytes of the file, as many as it
    counts. *)
Lemma ensure_read_loop_any turns : forall d size n data,
  (Z.to_nat (size - n) <= turns)%nat ->
  exists (got : nat) d',
    ensure_read_loop turns d size n data
    = Some (n + Z.of_nat got, data ++ take got (unread d), d')
    /\ (got <= length (unread d))%nat
    /\ (got <= Z.to_nat (size - n))%nat
    /\ unread d' = drop got (unread d).
Proof.
  induction turns as [|turns IH]; intros d size n data Ht.
  - exists 0%nat, d. simpl.
    assert ((n <? size) = false) as -> by (apply Z.ltb_ge; lia).
    rewrite app_nil_r, Z.add_0_r. repeat split; lia.
  - cbn [ensure_read_loop]. destruct (n <? size) eqn:En.
    2:{ exists 0%nat, d. simpl. rewrite app_nil_r, Z.add_0_r.
        repeat split; lia. }
    apply Z.ltb_lt in En.
    set (count := Z.to_nat (size - n)) in *.
    unfold read.
    destruct (granted (head (answers d)) count) as [m|] eqn:Hm.
    2:{ exists 0%nat. eexists. simpl. rewrite app_nil_r, Z.add_0_r.
        split; [reflexivity|]. simpl. repeat split; lia. }
    assert (m <= count)%nat as Hle.
    { destruct (head (answers d)) as [[most|]|]; simpl in Hm;
        inversion Hm; lia. }
    set (got := take m (unread d)).
    destruct (Z.of_nat (length got) <=? 0) eqn:E0.
    + exists 0%nat. eexists. rewrite app_nil_r, Z.add_0_r.
      split; [reflexivity|]. simpl.
      apply Z.leb_le in E0.
      assert (length got = 0%nat) as Hz by lia.
      subst got. rewrite length_take in Hz.
      split; [lia|]. split; [lia|].
      destruct (decide (m = 0%nat)) as [->|Hm0]; [reflexivity|].
      assert (length (unread d) = 0%nat) as Hn by lia.
      apply nil_length_inv in Hn. rewrite Hn. now rewrite drop_nil.
    + apply Z.leb_gt in E0.
      set (d1 := {| unread := drop m (unread d);
                    answers := tail (answers d) |}).
      assert (Hlen : length got = (m `min` length (unread d))%nat)
        by (subst got; apply length_take).
      destruct (IH d1 size (n + Z.of_nat (length got)) (data ++ got))
        as (more & d' & Hrun & Hmore & Hturn & Hun).
      { lia. }
      exists (length got + more)%nat, d'. rewrite Hrun.
      simpl unread in *. rewrite length_drop in Hmore.
      split.
      { do 3 f_equal; [lia|]. rewrite <- app_assoc. f_equal.
        subst got.
        destruct (decide (m <= length (unread d))%nat) as [Hin|Hout].
        - rewrite length_take, Nat.min_l by lia.
          rewrite <- (take_drop m (take (m + more) (unread d))).
          rewrite take_take, Nat.min_l by lia.
          now rewrite take_drop_commute.
        - assert (more = 0%nat) as -> by lia.
          rewrite Nat.add_0_r, take_0, app_nil_r.
          rewrite length_take, Nat.min_r by lia.
          rewrite !take_ge by lia. reflexivity. }
      subst count. split; [lia|]. split; [lia|].
      rewrite Hun, drop_drop.
      destruct (decide (m <= length (unread d))%nat) as [Hin|Hout].
      * f_equal. lia.
      * rewrite !drop_ge by lia. reflexivity.
Qed.

Lemma overlay_nil file offset : overlay file offset [] = file.
Proof.
  unfold overlay. simpl. rewrite Nat.add_0_r. apply take_drop.
Qed.

Lemma overlay_length file offset put :
  (offset <= length file)%nat ->
  (offset + length put <= length (overlay file offset put))%nat.
Proof.
  intros H. unfold overlay. rewrite !length_app, length_take. lia.
Qed.

Lemma overlay_overlay file offset a b :
  (offset <= length file)%nat ->
  overlay (overlay file offset a) (offset + length a) b
  = overlay file offset (a ++ b).
Proof.
  intros H. unfold overlay.
  assert (Hl : length (take offset file) = offset)
    by (rewrite length_take; lia).
  rewrite (app_assoc (take offset file) a).
  rewrite take_app_length' by (rewrite length_app; lia).
  rewrite <- !app_assoc. do 2 f_equal.
  rewrite length_app.
  rewrite (app_assoc (take offset file) a).
  rewrite drop_app_ge by (rewrite length_app; lia).
  rewrite length_app, Hl, drop_drop. do 2 f_equal. lia.
Qed.

(** The loop of [ensure_write], whatever the kernel answers: it ends,
    and the file holds the bytes it counts, written in order.  When
    no call fails it writes all. *)
Lemma ensure_write_loop_any turns : forall s data size n,
  0 <= n -> size <= Z.of_nat (length data) ->
  (offset s <= length (contents s))%nat ->
  (Z.to_nat (size - n) <= turns)%nat ->
  exists (put : nat) s',
    ensure_write_loop turns s data size n = Some (n + Z.of_nat put, s')
    /\ (put <= Z.to_nat (size - n))%nat
    /\ contents s'
       = overlay (contents s) (offset s) (take put (drop (Z.to_nat n) data))
    /\ offset s' = (offset s + put)%nat
    /\ (Forall gives (replies s) -> put = Z.to_nat (size - n)).
Proof.
  induction turns as [|turns IH]; intros s data size n Hn Hsize Hoff Ht.
  - exists 0%nat, s. simpl.
    assert ((n <? size) = false) as -> by (apply Z.ltb_ge; lia).
    rewrite Z.add_0_r, overlay_nil. repeat split; lia.
  - cbn [ensure_write_loop]. destruct (n <? size) eqn:En.
    2:{ apply Z.ltb_ge in En. exists 0%nat, s. simpl.
        rewrite Z.add_0_r, overlay_nil. repeat split; lia. }
    apply Z.ltb_lt in En.
    set (block := take (Z.to_nat (size - n)) (drop (Z.to_nat n) data)).
    assert (Hblock : length block = Z.to_nat (size - n)).
    { subst block. rewrite length_take, length_drop. lia. }
    unfold write.
    destruct (granted (head (replies s)) (length block)) as [m|] eqn:Hm.
    2:{ exists 0%nat. eexists. simpl. rewrite Z.add_0_r, overlay_nil.
        split; [reflexivity|]. simpl.
        split; [lia|]. split; [reflexivity|]. split; [lia|].
        intros Hg.
        destruct (granted_head (replies s) (length block) Hg)
          as (m & Hm' & _). congruence. }
    assert (m <= length block)%nat as Hle.
    { destruct (head (replies s)) as [[most|]|]; simpl in Hm;
        inversion Hm; lia. }
    assert (Hput : length (take m block) = m)
      by (rewrite length_take; lia).
    rewrite Hput.
    destruct (Z.of_nat m <=? 0) eqn:E0.
    + apply Z.leb_le in E0. assert (m = 0%nat) as -> by lia.
      exists 0%nat. eexists. rewrite Z.add_0_r.
      split; [reflexivity|]. simpl. rewrite !take_0, !overlay_nil.
      split; [lia|]. split; [reflexivity|]. split; [lia|].
      intros Hg.
      destruct (granted_head (replies s) (length block) Hg)
        as (m & Hm' & _ & Hpos).
      rewrite Hm in Hm'. injection Hm' as <-. lia.
    + apply Z.leb_gt in E0.
      set (s1 := {| contents := overlay (contents s) (offset s) (take m block);
                    offset := offset s + m;
                    replies := tail (replies s) |}).
      destruct (IH s1 data size (n + Z.of_nat m))
        as (more & s' & Hrun & Hmore & Hc & Ho & Hall).
      { lia. } { lia. }
      { simpl. pose proof (overlay_length (contents s) (offset s)
                             (take m block) Hoff). lia. }
      { lia. }
      exists (m + more)%nat, s'. rewrite Hrun. simpl in Hc, Ho, Hall.
      split; [do 2 f_equal; lia|]. split; [lia|].
      split; [|split; [lia|]].
      * rewrite Hc.
        replace (offset s + m)%nat with (offset s + length (take m block))%nat
          by lia.
        rewrite overlay_overlay by exact Hoff. f_equal.
        subst block. rewrite take_take, Nat.min_l by lia.
        rewrite <- (take_drop m (take (m + more) (drop (Z.to_nat n) data))).
        rewrite take_take, Nat.min_l by lia. f_equal.
        rewrite <- take_drop_commute, drop_drop. do 2 f_equal. lia.
      * intros Hg. apply Forall_tail in Hg. specialize (Hall Hg). lia.
Qed.

End DescriptorFacts.

Module PackingFacts.
Import CLib RecoveryUI Extra ExtraSpec.

Local Open Scope Z_scope.

Lemma packed_all :
  forallb (fun rr =>
    forallb (fun gg =>
      forallb (fun bb => packed rr gg bb) (seqZ 0 32)) (seqZ 0 64))
    (seqZ 0 32) = true.
Proof. vm_compute. reflexivity. Qed.

Lemma packed_in rr gg bb :
  0 <= rr < 32 -> 0 <= gg < 64 -> 0 <= bb < 32 -> packed rr gg bb = true.
Proof.
  intros Hr Hg Hb. pose proof packed_all as H.
  rewrite forallb_forall in H.
  specialize (H rr). rewrite forallb_forall in H.
  assert (Hin : forall v n, 0 <= v < n -> In v (seqZ 0 n)).
  { intros v n Hv. apply list_elem_of_In, elem_of_seqZ. lia. }
  specialize (H (Hin _ _ Hr) gg (Hin _ _ Hg)).
  rewrite forallb_forall in H. exact (H bb (Hin _ _ Hb)).
Qed.

Lemma channel_range v k :
  0 < k -> k <= 8 -> 0 <= Z.shiftr (v mod 256) k < 2 ^ (8 - k).
Proof.
  intros Hk Hk8. rewrite Z.shiftr_div_pow2 by lia.
  pose proof (Z.mod_pos_bound v 256 ltac:(lia)) as Hv.
  split; [apply Z.div_pos; lia|].
  apply Z.div_lt_upper_bound; [lia|].
  rewrite <- Z.pow_add_r by lia.
  replace (k + (8 - k)) with 8 by lia. simpl. lia.
Qed.

(** X4.  [convert] keeps the channels apart: the top five bits of [r] are
    the low five bits of the pixel, the top six bits of [g] are the
    next six, and the top five bits of [b] the five above them. *)
Theorem convert_keeps_channels r g b :
  let p := convert r g b in
  0 <= p < 65536
  /\ Z.land p 31 = (r mod 256) / 8
  /\ Z.land (Z.shiftr p 5) 63 = (g mod 256) / 4
  /\ Z.shiftr p 11 = (b mod 256) / 8.
Proof.
  unfold convert. cbv zeta.
  pose proof (channel_range r 3 ltac:(lia) ltac:(lia)) as Hr.
  pose proof (channel_range g 2 ltac:(lia) ltac:(lia)) as Hg.
  pose proof (channel_range b 3 ltac:(lia) ltac:(lia)) as Hb.
  change (2 ^ (8 - 3)) with 32 in *. change (2 ^ (8 - 2)) with 64 in *.
  pose proof (packed_in _ _ _ Hr Hg Hb) as H.
  unfold packed in H. cbv zeta in H.
  rewrite !andb_true_iff, !Z.eqb_eq in H.
  destruct H as (((Hm & H1) & H2) & H3).
  split; [apply Z.mod_pos_bound; lia|].
  rewrite Hm, H1, H2, H3.
  rewrite !Z.shiftr_div_pow2 by lia.
  change (2 ^ 3) with 8. change (2 ^ 2) with 4. auto.
Qed.

Lemma land_bit a k :
  0 <= k -> (Z.land a (Z.shiftl 1 k) =? 0) = negb (Z.testbit a k).
Proof.
  intros Hk. rewrite Z.shiftl_1_l.
  destruct (Z.testbit a k) eqn:Ea; simpl.
  - apply Z.eqb_neq. intros H.
    assert (Z.testbit (Z.land a (2 ^ k)) k = true) as Ht.
    { rewrite Z.land_spec, Ea, Z.pow2_bits_true; [reflexivity|lia]. }
    rewrite H in Ht. now rewrite Z.bits_0 in Ht.
  - apply Z.eqb_eq. apply Z.bits_inj'. intros j Hj.
    rewrite Z.land_spec, Z.bits_0.
    destruct (decide (j = k)) as [->|Hne].
    + now rewrite Ea.
    + rewrite Z.pow2_bits_false by lia. apply andb_false_r.
Qed.

Lemma to_int_small z : -2147483648 <= z < 2147483648 -> to_int z = z.
Proof.
  intros H. unfold to_int.
  rewrite Z.mod_small by lia. lia.
Qed.

Lemma low_bits_bound r c :
  0 <= c -> 0 <= r -> (forall j, c <= j -> Z.testbit r j = false) ->
  r < 2 ^ c.
Proof.
  intros Hc Hr Hhigh.
  assert (r = r mod 2 ^ c) as ->.
  { apply Z.bits_inj'. intros j Hj.
    destruct (decide (j < c)) as [Hlt|Hge].
    - now rewrite Z.mod_pow2_bits_low.
    - rewrite Z.mod_pow2_bits_high by lia. apply Hhigh. lia. }
  apply Z.mod_pos_bound. apply Z.pow_pos_nonneg; lia.
Qed.

(** The loop of [bits] from bit [i] on: the bits it has are kept,
    the ones it adds are those of the bytes. *)
Lemma bits_loop_reads block base n turns : forall i ret v,
  0 <= n -> 0 <= i -> n + i + Z.of_nat turns <= 2147483648 ->
  i + Z.of_nat turns <= 31 ->
  (turns <> 0%nat -> v = 2 ^ i) ->
  0 <= ret -> (forall j, i <= j -> Z.testbit ret j = false) ->
  (forall j, i <= j < i + Z.of_nat turns ->
             is_Some (peek block (base + (n + j) / 8))) ->
  exists r,
    bits_loop turns block base n i ret v = Some r
    /\ 0 <= r
    /\ (forall j, i + Z.of_nat turns <= j -> Z.testbit r j = false)
    /\ (forall j, 0 <= j < i -> Z.testbit r j = Z.testbit ret j)
    /\ (forall j, i <= j < i + Z.of_nat turns ->
                  Some (Z.testbit r j) = stream_bit block base (n + j)).
Proof.
  induction turns as [|turns IH]; intros i ret v Hn Hi Hfit Hc Hv Hret Hhigh Hin.
  - exists ret. simpl. split; [reflexivity|]. split; [exact Hret|].
    split; [intros j Hj; apply Hhigh; lia|]. split; [reflexivity|].
    intros j Hj. lia.
  - cbn [bits_loop]. rewrite to_int_small by lia.
    rewrite Z.rem_mod_nonneg, Z.quot_div_nonneg by lia.
    pose proof (Z.mod_pos_bound (n + i) 8 ltac:(lia)) as Hbit.
    destruct (_ <? 0) eqn:E; [apply Z.ltb_lt in E; lia|clear E].
    destruct (Hin i ltac:(lia)) as [byte Hbyte]. rewrite Hbyte. simpl.
    rewrite land_bit by lia. rewrite (Hv ltac:(discriminate)).
    set (ret' := if negb (Z.testbit byte ((n + i) mod 8))
                 then ret else Z.lor ret (2 ^ i)).
    assert (Hret' : 0 <= ret').
    { subst ret'. destruct (negb _); [exact Hret|].
      apply Z.lor_nonneg. split; [exact Hret|]. apply Z.pow_nonneg. lia. }
    assert (Hbits : forall j, 0 <= j ->
              Z.testbit ret' j
              = if decide (j = i) then Z.testbit byte ((n + i) mod 8)
                else Z.testbit ret j).
    { intros j Hj. subst ret'.
      destruct (Z.testbit byte ((n + i) mod 8)) eqn:Eb; simpl.
      - rewrite Z.lor_spec. destruct (decide (j = i)) as [->|Hne].
        + rewrite Z.pow2_bits_true by lia. apply orb_true_r.
        + rewrite Z.pow2_bits_false by lia. apply orb_false_r.
      - destruct (decide (j = i)) as [->|Hne]; [|reflexivity].
        apply Hhigh. lia. }
    destruct (IH (i + 1) ret' (to_int (Z.shiftl (2 ^ i) 1)))
      as (r & Hrun & Hr & Hrhigh & Hrlow & Hrnew).
    { lia. } { lia. } { lia. } { lia. }
    { intros Hturns. rewrite Z.shiftl_mul_pow2 by lia.
      rewrite <- Z.pow_add_r by lia.
      assert (i + 1 <= 30) by lia.
      apply to_int_small.
      assert (2 ^ (i + 1) <= 2 ^ 30) by (apply Z.pow_le_mono_r; lia).
      assert (0 < 2 ^ (i + 1)) by (apply Z.pow_pos_nonneg; lia).
      change (2 ^ 30) with 1073741824 in *. lia. }
    { exact Hret'. }
    { intros j Hj. rewrite Hbits by lia.
      destruct (decide (j = i)); [lia|]. apply Hhigh. lia. }
    { intros j Hj. apply Hin. lia. }
    exists r. split; [exact Hrun|]. split; [exact Hr|].
    split; [intros j Hj; apply Hrhigh; lia|].
    split.
    + intros j Hj. rewrite Hrlow by lia. rewrite Hbits by lia.
      destruct (decide (j = i)); [lia|reflexivity].
    + intros j Hj. destruct (decide (j = i)) as [->|Hne].
      * rewrite Hrlow by lia. rewrite Hbits by lia.
        rewrite decide_True by reflexivity.
        unfold stream_bit. now rewrite Hbyte.
      * apply Hrnew. lia.
Qed.

(** [bits] gives the [c] bits from bit [n] on as a number, the first
    of them its lowest bit. *)
Lemma bits_reads_stream block base n c :
  0 <= n -> 0 <= c <= 31 -> n + c <= 2147483648 ->
  (forall j, 0 <= j < c -> is_Some (peek block (base + (n + j) / 8))) ->
  exists r,
    bits block base n c = Some r
    /\ 0 <= r < 2 ^ c
    /\ forall j, 0 <= j < c ->
                 Some (Z.testbit r j) = stream_bit block base (n + j).
Proof.
  intros Hn Hc Hfit Hin. unfold bits.
  destruct (bits_loop_reads block base n (Z.to_nat c) 0 0 1)
    as (r & Hrun & Hr & Hhigh & _ & Hnew);
    [lia | lia | lia | lia | reflexivity | lia
     | intros j _; apply Z.bits_0 | intros j Hj; apply Hin; lia |].
  exists r. split; [exact Hrun|]. split.
  - split; [exact Hr|]. apply low_bits_bound; [lia|exact Hr|].
    intros j Hj. apply Hhigh. lia.
  - intros j Hj. apply Hnew. lia.
Qed.

Lemma cell_flips x y i :
  0 < x -> 0 < y -> x * y < 2147483648 -> 0 <= i < x * y ->
  cell x y i = (y - 1 - i / x) * x + i mod x
  /\ 0 <= i / x < y /\ 0 <= i mod x < x.
Proof.
  intros Hx Hy Hfit Hi.
  assert (Hq : 0 <= i / x < y).
  { split; [apply Z.div_pos; lia|].
    apply Z.div_lt_upper_bound; lia. }
  pose proof (Z.mod_pos_bound i x Hx) as Hr.
  split; [|auto]. unfold cell.
  assert (y <= x * y) by nia.
  rewrite Z.quot_div_nonneg, Z.rem_mod_nonneg by lia.
  rewrite (to_int_small (y - 1)) by lia.
  rewrite (to_int_small (y - 1 - i / x)) by lia.
  assert (0 <= (y - 1 - i / x) * x <= (y - 1) * x) by nia.
  rewrite (to_int_small ((y - 1 - i / x) * x)) by nia.
  apply to_int_small. nia.
Qed.

Lemma cell_inj x y i i' :
  0 < x -> 0 < y -> x * y < 2147483648 ->
  0 <= i < x * y -> 0 <= i' < x * y ->
  cell x y i = cell x y i' -> i = i'.
Proof.
  intros Hx Hy Hfit Hi Hi' Heq.
  destruct (cell_flips x y i Hx Hy Hfit Hi) as (E & Hq & Hr).
  destruct (cell_flips x y i' Hx Hy Hfit Hi') as (E' & Hq' & Hr').
  rewrite E, E' in Heq.
  assert (i / x = i' / x) as Eq by nia.
  assert (i mod x = i' mod x) as Er by nia.
  rewrite (Z.div_mod i x), (Z.div_mod i' x) by lia. now rewrite Eq, Er.
Qed.

(** The loop of [bmp_convert] from pixel [i] on: every pixel ends in
    its cell, and the other cells are left. *)
Lemma convert_loop_fills content palette x y data_offset turns :
  forall i logo,
  0 < x -> 0 < y -> x * y < 2147483648 ->
  0 <= i -> i + Z.of_nat turns = x * y ->
  Z.of_nat (length logo) = x * y ->
  (forall i', i <= i' < x * y ->
              is_Some (pixel content palette data_offset i')) ->
  exists logo',
    convert_loop turns content palette x y data_offset i logo = Some logo'
    /\ length logo' = length logo
    /\ (forall i', i <= i' < x * y ->
          logo' !! Z.to_nat (cell x y i')
          = pixel content palette data_offset i')
    /\ (forall j, (forall i', i <= i' < x * y -> Z.to_nat (cell x y i') <> j) ->
          logo' !! j = logo !! j).
Proof.
  induction turns as [|turns IH]; intros i logo Hx Hy Hfit Hi Hturns Hlen Hin.
  - exists logo. simpl. split; [reflexivity|]. split; [reflexivity|].
    split; [intros i' Hi'; lia|]. reflexivity.
  - cbn [convert_loop].
    destruct (Hin i ltac:(lia)) as [p Hp]. rewrite Hp. simpl.
    destruct (cell_flips x y i Hx Hy Hfit ltac:(lia)) as (Ecell & Hq & Hr).
    assert (Hcell : 0 <= cell x y i < x * y) by (rewrite Ecell; nia).
    destruct (_ || _) eqn:E.
    { apply orb_true_iff in E as [E|E];
        [apply Z.ltb_lt in E|apply Z.leb_le in E]; lia. }
    clear E.
    destruct (IH (i + 1) (<[Z.to_nat (cell x y i) := p]> logo))
      as (logo' & Hrun & Hlen' & Hnew & Hold); try lia.
    { rewrite length_insert. exact Hlen. }
    { intros i' Hi'. apply Hin. lia. }
    exists logo'. split; [exact Hrun|].
    split; [now rewrite Hlen', length_insert|]. split.
    + intros i' Hi'. destruct (decide (i' = i)) as [->|Hne].
      * rewrite Hold.
        -- rewrite Hp. apply list_lookup_insert_eq. lia.
        -- intros i'' Hi'' Heq.
           assert (cell x y i'' = cell x y i) as Hc.
           { destruct (cell_flips x y i'' Hx Hy Hfit ltac:(lia))
               as (E'' & ? & ?).
             assert (0 <= cell x y i'') by (rewrite E''; nia). lia. }
           apply cell_inj in Hc; lia.
      * apply Hnew. lia.
    + intros j Hj. rewrite Hold.
      * apply list_lookup_insert_ne. apply Hj. lia.
      * intros i' Hi'. apply Hj. lia.
Qed.

End PackingFacts.

Module ExecFacts.
Import CLib RecoveryUI Extra ExtraSpec DescriptorFacts.

Local Open Scope Z_scope.

Lemma strings_ptrs (args : list chars) rest :
  strings (map Ptr args ++ Null :: rest) = Some args.
Proof.
  induction args as [|a args IH]; [reflexivity|].
  simpl. now rewrite IH.
Qed.

Lemma poke_Some {A} (i : nat) (v : A) (array : list A) :
  (i < length array)%nat -> poke i v array = Some (<[i := v]> array).
Proof. intros H. unfold poke. now rewrite decide_True. Qed.

Lemma replicate_cons_end {A} (x : A) n l :
  x :: replicate n x ++ l = replicate n x ++ x :: l.
Proof. induction n as [|n IH]; [reflexivity|]. simpl. now rewrite IH. Qed.

(** The loop that copies [args] into [argv] from the back. *)
Lemma fill_argv_copies file (args : list chars) : forall i,
  (i <= length args)%nat ->
  fill_argv i args
    (Ptr file :: replicate i Fresh ++ map Ptr (drop i args) ++ [Null])
  = Some (Ptr file :: map Ptr args ++ [Null]).
Proof.
  induction i as [|i IH]; intros Hi.
  - simpl. now rewrite drop_0.
  - cbn [fill_argv].
    destruct (lookup_lt_is_Some_2 args i ltac:(lia)) as [a Ha].
    rewrite Ha. simpl.
    rewrite poke_Some.
    2:{ simpl. rewrite !length_app, length_replicate. simpl. lia. }
    simpl. rewrite <- IH by lia. f_equal. f_equal.
    rewrite (drop_S _ _ _ Ha).
    rewrite replicate_cons_end.
    rewrite insert_app_r_alt by (rewrite length_replicate; lia).
    rewrite length_replicate, Nat.sub_diag. reflexivity.
Qed.

(** The array [execute] builds holds [file] and then [args]. *)
Lemma execute_argv file (args : list chars) :
  let i := length args in
  (argv ← poke 0%nat (Ptr file) (replicate (i + 2) Fresh);
   argv ← poke (i + 1)%nat Null argv;
   argv ← fill_argv i args argv;
   strings argv) = Some (file :: args).
Proof.
  intros i. subst i. set (i := length args).
  assert (Hi : i = length args) by reflexivity. clearbody i.
  replace (i + 2)%nat with (S (i + 1)) by lia.
  rewrite poke_Some by (simpl; lia). simpl.
  rewrite poke_Some by (simpl; rewrite length_replicate; lia).
  replace (i + 1)%nat with (S i) by lia. simpl.
  rewrite <- (app_nil_r (replicate i Fresh)) at 1.
  rewrite replicate_cons_end.
  rewrite insert_app_r_alt by (rewrite length_replicate; lia).
  rewrite length_replicate, Nat.sub_diag. simpl.
  pose proof (fill_argv_copies file args i ltac:(lia)) as H.
  rewrite Hi, drop_all in H. rewrite <- Hi in H. simpl in H. rewrite H. simpl.
  now rewrite strings_ptrs.
Qed.

Lemma cstr_free (s : chars) : NUL ∉ s -> cstr s = s.
Proof.
  induction s as [|c s IH]; [reflexivity|].
  intros H. apply not_elem_of_cons in H as [Hc Hs].
  simpl. destruct (ceq c NUL) eqn:E.
  - apply Ascii.eqb_eq in E. congruence.
  - now rewrite IH.
Qed.

(** The loop of the parent: it ends when the pipe does, and with
    [show] set it passes on what it reads. *)
Lemma execute_loop_relays show turns : forall fd shown,
  (length (unread fd) < turns)%nat ->
  exists outs,
    execute_loop turns fd show shown = Some (shown ++ outs)
    /\ Forall is_output outs
    /\ (show = 0 -> outs = [])
    /\ (show <> 0 -> Forall gives (answers fd) -> NUL ∉ unread fd ->
        relayed outs = unread fd).
Proof.
  induction turns as [|turns IH]; intros fd shown Hturns; [lia|].
  cbn [execute_loop]. unfold read.
  destruct (granted (head (answers fd)) 64) as [n|] eqn:Hn.
  2:{ exists []. simpl. rewrite app_nil_r. split; [reflexivity|].
      split; [constructor|]. split; [reflexivity|].
      intros _ Hg _.
      destruct (granted_head (answers fd) 64 Hg) as (m & Hm & _).
      congruence. }
  destruct (Z.of_nat (length (take n (unread fd))) <=? 0) eqn:E.
  - apply Z.leb_le in E.
    exists []. rewrite app_nil_r. split; [reflexivity|].
    split; [constructor|]. split; [reflexivity|].
    intros _ Hg _.
    destruct (granted_head (answers fd) 64 Hg) as (m & Hm & _ & Hpos).
    rewrite Hn in Hm. injection Hm as <-.
    rewrite length_take in E.
    assert (length (unread fd) = 0%nat) as H0 by lia.
    now apply nil_length_inv in H0.
  - apply Z.leb_gt in E. rewrite length_take in E.
    set (fd' := {| unread := drop n (unread fd);
                   answers := tail (answers fd) |}).
    set (out := UiPrint (Output (cstr (take n (unread fd))))).
    destruct (IH fd' (if show =? 0 then shown else shown ++ [out]))
      as (outs & Hrun & Hout & Hhide & Hshow).
    { simpl. rewrite length_drop. lia. }
    rewrite Hrun. destruct (show =? 0) eqn:Es.
    + apply Z.eqb_eq in Es. exists outs. split; [reflexivity|].
      split; [exact Hout|]. split; [exact Hhide|]. intros Hs. lia.
    + apply Z.eqb_neq in Es. exists (out :: outs).
      rewrite <- app_assoc. split; [reflexivity|].
      split; [constructor; [exact I|exact Hout]|].
      split; [intros Hs; lia|].
      intros _ Hg Hfree. simpl.
      rewrite Hshow; [| exact Es | now apply Forall_tail |].
      * simpl. rewrite cstr_free; [apply take_drop|].
        intros Hin. apply Hfree.
        rewrite <- (take_drop n (unread fd)). apply elem_of_app. now left.
      * simpl. intros Hin. apply Hfree.
        rewrite <- (take_drop n (unread fd)). apply elem_of_app. now right.
Qed.

(** What [execute] adds to the display: nothing when [malloc],
    [pipe] or [fork] fails; else the start of [file] with [args], and then what
    the loop passes on. *)
Lemma execute_events env show file args shown :
  let argv := file :: default [] args in
  let child := spawn env argv in
  exists new,
    execute env show file args shown = Some (shown ++ new)
    /\ if malloc env (4 * (Z.of_nat (length (default [] args)) + 2))
          && pipe_ok env && fork_ok env
       then exists outs,
              new = Execvp argv :: outs
              /\ Forall is_output outs
              /\ (show = 0 -> outs = [])
              /\ (show <> 0 -> Forall gives (answers child) ->
                  NUL ∉ unread child -> relayed outs = unread child)
       else new = [].
Proof.
  intros argv child. unfold execute.
  destruct (malloc env _) eqn:Em; cbn [negb andb].
  2:{ exists []. now rewrite app_nil_r. }
  pose proof (execute_argv file (default [] args)) as Hargv.
  cbv zeta in Hargv.
  destruct (poke 0%nat _ _) as [a1|];
    cbn [mbind option_bind] in *; [|discriminate].
  destruct (poke _ Null a1) as [a2|];
    cbn [mbind option_bind] in *; [|discriminate].
  destruct (fill_argv _ _ a2) as [a3|];
    cbn [mbind option_bind] in *; [|discriminate].
  destruct (pipe_ok env) eqn:Ep; cbn [negb].
  2:{ exists []. now rewrite app_nil_r. }
  destruct (fork_ok env) eqn:Ef; cbn [negb].
  2:{ exists []. now rewrite app_nil_r. }
  rewrite Hargv. cbn [mbind option_bind]. fold argv. fold child.
  destruct (execute_loop_relays show (S (length (unread child))) child
              (shown ++ [Execvp argv]) ltac:(lia))
    as (outs & Hrun & Hout & Hhide & Hshow).
  exists (Execvp argv :: outs). rewrite Hrun, <- app_assoc.
  split; [reflexivity|]. exists outs. auto.
Qed.

End ExecFacts.

Module ReadWriteFacts.
Import CLib RecoveryUI Extra ExtraSpec Examples DescriptorFacts PackingFacts ExecFacts.

Local Open Scope Z_scope.

(** [ensure_read] always returns, 0 or -1.  It returns 0 only when
    it has put the next [size] bytes of the file into the buffer, in
    order, however the kernel has cut the reads; and when no read
    fails and the file has [size] bytes left, it does return 0. *)
Lemma ensure_read_spec (fd : descriptor) (size : Z) :
  exists ret data fd',
    ensure_read fd size = Some (ret, data, fd')
    /\ (ret = 0 \/ ret = -1)
    /\ (ret = 0 ->
        data = take (Z.to_nat size) (unread fd)
        /\ Z.of_nat (length data) = size
        /\ unread fd' = drop (Z.to_nat size) (unread fd))
    /\ (Forall gives (answers fd) ->
        Forall gives (answers fd')
        /\ (0 <= size <= Z.of_nat (length (unread fd)) -> ret = 0)).
Proof.
  unfold ensure_read.
  destruct (ensure_read_loop_any (Z.to_nat size) fd size 0 [] ltac:(lia))
    as (got & fd' & Hrun & Hgot & Hmost & Hrest).
  rewrite Hrun. cbn [mbind option_bind].
  eexists _, _, fd'. split; [reflexivity|].
  split; [destruct (_ =? _); auto|].
  split.
  - destruct (0 + Z.of_nat got =? size) eqn:E; [|discriminate].
    intros _. apply Z.eqb_eq in E.
    assert (got = Z.to_nat size) as -> by lia. cbn [app].
    split; [reflexivity|]. split; [|exact Hrest].
    rewrite length_take. lia.
  - intros Hg.
    destruct (ensure_read_loop_gives (Z.to_nat size) fd size 0 [] Hg
                ltac:(lia)) as (fd2 & Hrun2 & _ & Hg2).
    rewrite Hrun in Hrun2. injection Hrun2 as Hn _ <-.
    split; [exact Hg2|]. intros Hsize.
    rewrite length_take in Hn.
    destruct (0 + Z.of_nat got =? size) eqn:E; [reflexivity|].
    apply Z.eqb_neq in E. lia.
Qed.

(** [ensure_write] on a block of at least [size] bytes always
    returns, 0 or -1.  It returns 0 only when the [size] bytes are in
    the file, in order, from the offset on; what the file held behind
    them stays.  When no write fails it does return 0. *)
Lemma ensure_write_spec (fd : sink) (data : chars) (size : Z) :
  size <= Z.of_nat (length data) ->
  (offset fd <= length (contents fd))%nat ->
  exists ret fd',
    ensure_write fd data size = Some (ret, fd')
    /\ (ret = 0 \/ ret = -1)
    /\ (ret = 0 ->
        contents fd'
        = overlay (contents fd) (offset fd) (take (Z.to_nat size) data)
        /\ Z.of_nat (offset fd') = Z.of_nat (offset fd) + size)
    /\ (Forall gives (replies fd) -> 0 <= size -> ret = 0).
Proof.
  intros Hsize Hoff. unfold ensure_write.
  destruct (Z.of_nat (length data) <? size) eqn:E;
    [apply Z.ltb_lt in E; lia|clear E].
  destruct (ensure_write_loop_any (Z.to_nat size) fd data size 0
              ltac:(lia) Hsize Hoff ltac:(lia))
    as (put & fd' & Hrun & Hmost & Hfile & Hat & Hall).
  rewrite Hrun. cbn [mbind option_bind].
  eexists _, fd'. split; [reflexivity|].
  split; [destruct (_ =? _); auto|].
  split.
  - destruct (0 + Z.of_nat put =? size) eqn:E; [|discriminate].
    intros _. apply Z.eqb_eq in E.
    assert (put = Z.to_nat size) as -> by lia.
    rewrite Hfile, Hat. simpl. rewrite drop_0. split; [reflexivity|lia].
  - intros Hg Hpos. specialize (Hall Hg).
    destruct (0 + Z.of_nat put =? size) eqn:E; [reflexivity|].
    apply Z.eqb_neq in E. lia.
Qed.

(** X1.  [ensure_read] always returns, 0 or -1.  It returns 0 only
    when it has put the next [size] bytes of the file into the
    buffer, in order, however the kernel has cut the reads; and when
    no read fails and the file has [size] bytes left, it does return
    0. *)
Theorem ensure_read_all_or_fail (fd : descriptor) (size : Z) :
  exists ret data fd',
    ensure_read fd size = Some (ret, data, fd')
    /\ (ret = 0 \/ ret = -1)
    /\ (ret = 0 ->
        data = take (Z.to_nat size) (unread fd)
        /\ Z.of_nat (length data) = size
        /\ unread fd' = drop (Z.to_nat size) (unread fd))
    /\ (Forall gives (answers fd) ->
        0 <= size <= Z.of_nat (length (unread fd)) -> ret = 0).
Proof.
  destruct (ensure_read_spec fd size)
    as (ret & data & fd' & Hrun & Hret & Hok & Hall).
  exists ret, data, fd'. split; [exact Hrun|]. split; [exact Hret|].
  split; [exact Hok|]. intros Hg Hsize. now apply Hall.
Qed.

Lemma ensure_read_all_or_fail_witness :
  exists fd',
    ensure_read {| unread := cs "0123456789"; answers := [Give 2; Give 0] |} 7
    = Some (0, cs "0123456", fd')
    /\ unread fd' = cs "789".
Proof.
  destruct (ensure_read_all_or_fail
              {| unread := cs "0123456789"; answers := [Give 2; Give 0] |} 7)
    as (ret & data & fd' & Hrun & _ & Hok & Hall).
  assert (Hret : ret = 0) by (apply Hall; [repeat constructor|simpl; lia]).
  destruct (Hok Hret) as (Hdata & _ & Hrest).
  exists fd'. rewrite Hrun, Hret, Hdata. split; [reflexivity|exact Hrest].
Defined.

(** X2.  [ensure_write] on a block of at least [size] bytes always
    returns, 0 or -1.  It returns 0 only when the [size] bytes are in
    the file, in order, from the offset on; what the file held behind
    them stays.  When no write fails it does return 0. *)
Theorem ensure_write_all_or_fail (fd : sink) (data : chars) (size : Z) :
  size <= Z.of_nat (length data) ->
  (offset fd <= length (contents fd))%nat ->
  exists ret fd',
    ensure_write fd data size = Some (ret, fd')
    /\ (ret = 0 \/ ret = -1)
    /\ (ret = 0 ->
        contents fd'
        = overlay (contents fd) (offset fd) (take (Z.to_nat size) data)
        /\ Z.of_nat (offset fd') = Z.of_nat (offset fd) + size)
    /\ (Forall gives (replies fd) -> 0 <= size -> ret = 0).
Proof. apply ensure_write_spec. Qed.

Lemma ensure_write_all_or_fail_witness :
  exists fd',
    ensure_write {| contents := cs "0123456789"; offset := 2;
                    replies := [Give 1; Give 0] |} (cs "abcdef") 4
    = Some (0, fd')
    /\ contents fd' = cs "01abcd6789" /\ offset fd' = 6%nat.
Proof.
  destruct (ensure_write_all_or_fail
              {| contents := cs "0123456789"; offset := 2;
                 replies := [Give 1; Give 0] |} (cs "abcdef") 4)
    as (ret & fd' & Hrun & _ & Hok & Hall); [simpl; lia|simpl; lia|].
  assert (Hret : ret = 0) by (apply Hall; [repeat constructor|lia]).
  destruct (Hok Hret) as (Hcontents & Hoffset).
  exists fd'. rewrite Hrun, Hret, Hcontents.
  split; [reflexivity|]. split; [reflexivity|]. simpl in Hoffset. lia.
Defined.

(** X3.  [execute] starts [file] with the arguments [args], in their
    order, unless [malloc], [pipe] or [fork] fails; with [show] set, what the
    child writes reaches the display whole, however the reads from
    the pipe are cut, as long as none fails and no NUL is written. *)
Theorem execute_starts_and_relays env show file args shown :
  let argv := file :: default [] args in
  let child := spawn env argv in
  exists new,
    execute env show file args shown = Some (shown ++ new)
    /\ if malloc env (4 * (Z.of_nat (length (default [] args)) + 2))
          && pipe_ok env && fork_ok env
       then exists outs,
              new = Execvp argv :: outs
              /\ Forall is_output outs
              /\ (show = 0 -> outs = [])
              /\ (show <> 0 -> Forall gives (answers child) ->
                  NUL ∉ unread child -> relayed outs = unread child)
       else new = [].
Proof. apply execute_events. Qed.

Lemma execute_starts_and_relays_witness :
  exists outs,
    execute sample_extra 1 (cs "/bin/sh") (Some [cs "/sbin/umstgl.sh"]) []
    = Some (Execvp [cs "/bin/sh"; cs "/sbin/umstgl.sh"] :: outs)
    /\ relayed outs = cs "done" ++ [LF].
Proof.
  destruct (execute_starts_and_relays sample_extra 1 (cs "/bin/sh")
              (Some [cs "/sbin/umstgl.sh"]) [])
    as (new & Hrun & outs & -> & _ & _ & Hshow).
  exists outs. split; [exact Hrun|].
  apply Hshow; [lia|repeat constructor|].
  apply (bool_decide_unpack _). vm_compute. exact I.
Defined.

End ReadWriteFacts.

Module PixelFacts.
Import CLib RecoveryUI Extra ExtraSpec Examples DescriptorFacts PackingFacts ExecFacts.

Local Open Scope Z_scope.

(** [bmp_convert] turns the picture upside down: the pixels of the
    file are taken in rows of [x], and row [row] of the file becomes
    row [y - 1 - row] of [logo].  Every cell of [logo] is written. *)
Lemma bmp_convert_rows env content x y data_offset :
  u32 content at_x = Some x ->
  u32 content at_y = Some y ->
  u32 content at_data_offset = Some data_offset ->
  0 < x -> 0 < y -> x * y < 2147483648 ->
  malloc env (2 * x * y) = true ->
  let palette :=
    sizeof_bmp_file_header + sizeof_bmp_data_header <? data_offset in
  (forall i, 0 <= i < x * y ->
             is_Some (pixel content palette data_offset i)) ->
  exists logo,
    bmp_convert env content = Some (Some logo)
    /\ Z.of_nat (length logo) = x * y
    /\ forall row col, 0 <= row < y -> 0 <= col < x ->
         logo !! Z.to_nat ((y - 1 - row) * x + col)
         = pixel content palette data_offset (row * x + col).
Proof.
  intros Hx Hy Hoff Hxpos Hypos Hfit Hmalloc palette Hin.
  unfold bmp_convert. rewrite Hx, Hy. cbn [mbind option_bind].
  assert (x <= x * y) by nia. assert (y <= x * y) by nia.
  rewrite (to_int_small x), (to_int_small y) by lia.
  rewrite (Z.mod_small (2 * x * y)) by lia.
  rewrite Hmalloc, Hoff. cbn [negb mbind option_bind].
  rewrite (to_int_small (x * y)) by lia. fold palette.
  set (fresh := map (garbage env) (seq 0 (Z.to_nat (2 * x * y / 2)))).
  assert (Hfresh : Z.of_nat (length fresh) = x * y).
  { subst fresh. rewrite length_map, length_seq.
    replace (2 * x * y) with (x * y * 2) by lia.
    rewrite Z.div_mul by lia. lia. }
  destruct (convert_loop_fills content palette x y data_offset
              (Z.to_nat (x * y)) 0 fresh)
    as (logo & Hrun & Hlen & Hcells & _); try lia.
  { intros i Hi. apply Hin. lia. }
  rewrite Hrun. cbn [mbind option_bind].
  exists logo. split; [reflexivity|]. split; [lia|].
  intros row col Hrow Hcol.
  assert (Hi : 0 <= row * x + col < x * y) by nia.
  rewrite <- (Hcells (row * x + col) ltac:(lia)). f_equal. f_equal.
  destruct (cell_flips x y (row * x + col) Hxpos Hypos Hfit Hi) as (-> & _).
  assert ((row * x + col) / x = row) as ->
    by (symmetry; apply Z.div_unique with col; lia).
  assert ((row * x + col) mod x = col) as ->
    by (symmetry; apply Z.mod_unique with row; lia).
  reflexivity.
Qed.

Lemma code_range c : 0 <= code c < 256.
Proof.
  unfold code. pose proof (N_ascii_bounded c) as H. lia.
Qed.

Lemma peek_range block at_ b : peek block at_ = Some b -> 0 <= b < 256.
Proof.
  unfold peek. destruct (at_ <? 0); [discriminate|].
  destruct (block !! Z.to_nat at_) as [c|]; [|discriminate].
  simpl. intros [= <-]. apply code_range.
Qed.

Lemma byte_high b n : 0 <= b < 256 -> 8 <= n -> Z.testbit b n = false.
Proof.
  intros Hb Hn. rewrite <- (Z.mod_small b (2 ^ 8)) by (simpl; lia).
  apply Z.mod_pow2_bits_high. lia.
Qed.

(** The eight bits of [r] from bit [k] on, cut out with a mask, are
    a byte whose bits they are. *)
Lemma masked_byte r k b :
  0 <= k -> 0 <= b < 256 ->
  (forall n, 0 <= n < 8 -> Z.testbit r (k + n) = Z.testbit b n) ->
  Z.shiftr (Z.land r (Z.shiftl 255 k)) k = b.
Proof.
  intros Hk Hb Hbits. apply Z.bits_inj'. intros n Hn.
  rewrite Z.shiftr_spec, Z.land_spec, Z.shiftl_spec by lia.
  replace (n + k - k) with n by lia.
  change 255 with (Z.ones 8).
  destruct (decide (n < 8)) as [Hlow|Hhigh].
  - rewrite Z.ones_spec_low by lia. rewrite andb_true_r.
    rewrite <- Hbits by lia. f_equal. lia.
  - rewrite Z.ones_spec_high by lia. rewrite andb_false_r.
    symmetry. apply byte_high; lia.
Qed.

(** In a bitmap of 24 bits a pixel and no palette, pixel [i] is made
    of the three bytes at [3 * i] of the data, the first of them
    taken for [r]: rows are not padded. *)
Lemma pixel_three_bytes content data_offset i b0 b1 b2 :
  u16 content at_depth = Some 24 ->
  0 <= i -> 24 * i + 24 <= 2147483648 -> 0 <= data_offset ->
  peek content (data_offset + 3 * i) = Some b0 ->
  peek content (data_offset + 3 * i + 1) = Some b1 ->
  peek content (data_offset + 3 * i + 2) = Some b2 ->
  pixel content false data_offset i = Some (convert b0 b1 b2).
Proof.
  intros Hdepth Hi Hfit Hoff H0 H1 H2. unfold pixel.
  rewrite Hdepth. cbn [mbind option_bind].
  rewrite to_int_small by lia.
  assert (Hplace : forall j, 0 <= j < 24 ->
            (24 * i + j) / 8 = 3 * i + j / 8 /\ (24 * i + j) mod 8 = j mod 8).
  { intros j Hj. replace (24 * i + j) with (j + (3 * i) * 8) by lia.
    rewrite Z.div_add, Z.mod_add by lia. lia. }
  assert (Hbyte : forall j, 0 <= j < 24 ->
            stream_bit content data_offset (24 * i + j)
            = Some (Z.testbit (if j <? 8 then b0
                               else if j <? 16 then b1 else b2) (j mod 8))).
  { intros j Hj. unfold stream_bit.
    destruct (Hplace j Hj) as [-> ->].
    destruct (j <? 8) eqn:E8; [apply Z.ltb_lt in E8|apply Z.ltb_ge in E8].
    - rewrite (Z.div_small j 8), Z.add_0_r by lia.
      now rewrite H0.
    - destruct (j <? 16) eqn:E16;
        [apply Z.ltb_lt in E16|apply Z.ltb_ge in E16].
      + assert (j / 8 = 1) as ->
          by (symmetry; apply Z.div_unique with (j - 8); lia).
        rewrite Z.add_assoc. now rewrite H1.
      + assert (j / 8 = 2) as ->
          by (symmetry; apply Z.div_unique with (j - 16); lia).
        rewrite Z.add_assoc. now rewrite H2. }
  destruct (bits_reads_stream content data_offset (24 * i) 24)
    as (r & Hrun & Hr & Hbits); try lia.
  { intros j Hj. specialize (Hbyte j Hj). unfold stream_bit in Hbyte.
    destruct (peek content (data_offset + (24 * i + j) / 8)) as [byte|];
      [exists byte; reflexivity|simpl in Hbyte; discriminate]. }
  rewrite Hrun. cbn [mbind option_bind]. unfold colour. do 2 f_equal.
  - rewrite <- (Z.shiftr_0_r (Z.land r 255)).
    change 255 with (Z.shiftl 255 0) at 1.
    apply masked_byte; [lia|now apply peek_range in H0|].
    intros n Hn. specialize (Hbits n ltac:(lia)).
    rewrite Hbyte in Hbits by lia.
    assert ((n <? 8) = true) as E by (apply Z.ltb_lt; lia).
    rewrite E, Z.mod_small in Hbits by lia.
    rewrite Z.add_0_l. congruence.
  - change 65280 with (Z.shiftl 255 8).
    apply masked_byte; [lia|now apply peek_range in H1|].
    intros n Hn. specialize (Hbits (8 + n) ltac:(lia)).
    rewrite Hbyte in Hbits by lia.
    assert ((8 + n <? 8) = false) as E by (apply Z.ltb_ge; lia).
    assert ((8 + n <? 16) = true) as E' by (apply Z.ltb_lt; lia).
    rewrite E, E' in Hbits.
    replace ((8 + n) mod 8) with n in Hbits
      by (apply Z.mod_unique with 1; lia).
    congruence.
  - change 16711680 with (Z.shiftl 255 16).
    apply masked_byte; [lia|now apply peek_range in H2|].
    intros n Hn. specialize (Hbits (16 + n) ltac:(lia)).
    rewrite Hbyte in Hbits by lia.
    assert ((16 + n <? 8) = false) as E by (apply Z.ltb_ge; lia).
    assert ((16 + n <? 16) = false) as E' by (apply Z.ltb_ge; lia).
    rewrite E, E' in Hbits.
    replace ((16 + n) mod 8) with n in Hbits
      by (apply Z.mod_unique with 2; lia).
    congruence.
Qed.

(** X7.  [bmp_convert] turns the picture upside down: when every
    pixel can be read, the pixels of the file are taken in rows of
    [x], and row [row] of the file becomes row [y - 1 - row] of
    [logo].  Every cell of [logo] is written. *)
Theorem bmp_convert_flips_rows env content x y data_offset :
  u32 content at_x = Some x ->
  u32 content at_y = Some y ->
  u32 content at_data_offset = Some data_offset ->
  0 < x -> 0 < y -> x * y < 2147483648 ->
  malloc env (2 * x * y) = true ->
  let palette :=
    sizeof_bmp_file_header + sizeof_bmp_data_header <? data_offset in
  (forall i, 0 <= i < x * y ->
             is_Some (pixel content palette data_offset i)) ->
  exists logo,
    bmp_convert env content = Some (Some logo)
    /\ Z.of_nat (length logo) = x * y
    /\ forall row col, 0 <= row < y -> 0 <= col < x ->
         logo !! Z.to_nat ((y - 1 - row) * x + col)
         = pixel content palette data_offset (row * x + col).
Proof. apply bmp_convert_rows. Qed.

Lemma bmp_convert_flips_rows_witness :
  exists logo,
    bmp_convert sample_extra sample_bitmap = Some (Some logo)
    /\ logo !! 2%nat = pixel sample_bitmap false 54 0
    /\ logo !! 0%nat = pixel sample_bitmap false 54 2.
Proof.
  destruct (bmp_convert_flips_rows sample_extra sample_bitmap 2 2 54)
    as (logo & Hrun & _ & Hcells);
    [reflexivity | reflexivity | reflexivity | lia | lia | lia
     | reflexivity | |].
  - intros i Hi.
    assert (i = 0 \/ i = 1 \/ i = 2 \/ i = 3) as [->|[->|[->| ->]]] by lia;
      vm_compute; eauto.
  - exists logo. split; [exact Hrun|]. split.
    + apply (Hcells 0 0); lia.
    + apply (Hcells 1 0); lia.
Defined.

(** X8.  In a bitmap of 24 bits a pixel and no palette, pixel [i]
    is made of the three bytes at [3 * i] of the data, the first of
    them taken for [r]: rows are not padded. *)
Theorem pixel_of_three_bytes content data_offset i b0 b1 b2 :
  u16 content at_depth = Some 24 ->
  0 <= i -> 24 * i + 24 <= 2147483648 -> 0 <= data_offset ->
  peek content (data_offset + 3 * i) = Some b0 ->
  peek content (data_offset + 3 * i + 1) = Some b1 ->
  peek content (data_offset + 3 * i + 2) = Some b2 ->
  pixel content false data_offset i = Some (convert b0 b1 b2).
Proof. apply pixel_three_bytes. Qed.

Lemma pixel_of_three_bytes_witness :
  pixel sample_bitmap false 54 1 = Some (convert 0 255 0).
Proof.
  apply (pixel_of_three_bytes sample_bitmap 54 1 0 255 0);
    reflexivity || lia.
Defined.

End PixelFacts.

Module HeaderFacts.
Import CLib RecoveryUI Extra ExtraSpec Examples DescriptorFacts PackingFacts ExecFacts ReadWriteFacts
  PixelFacts.

Local Open Scope Z_scope.

Lemma peek_take n block at_ b :
  peek (take n block) at_ = Some b -> peek block at_ = Some b.
Proof.
  unfold peek. destruct (at_ <? 0); [discriminate|].
  destruct (take n block !! Z.to_nat at_) as [c|] eqn:E; [|discriminate].
  apply lookup_take_Some in E as [E _]. now rewrite E.
Qed.

Lemma peek_take_in n block at_ :
  at_ < Z.of_nat n -> peek (take n block) at_ = peek block at_.
Proof.
  intros H. unfold peek.
  destruct (at_ <? 0) eqn:E; [reflexivity|]. apply Z.ltb_ge in E.
  rewrite lookup_take_lt by lia. reflexivity.
Qed.

Lemma u16_take n block at_ v :
  u16 (take n block) at_ = Some v -> u16 block at_ = Some v.
Proof.
  unfold u16. intros H.
  destruct (peek (take n block) at_) as [b0|] eqn:E0; [|discriminate].
  destruct (peek (take n block) (at_ + 1)) as [b1|] eqn:E1; [|discriminate].
  now rewrite (peek_take _ _ _ _ E0), (peek_take _ _ _ _ E1).
Qed.

Lemma u32_take n block at_ v :
  u32 (take n block) at_ = Some v -> u32 block at_ = Some v.
Proof.
  unfold u32. intros H.
  destruct (peek (take n block) at_) as [b0|] eqn:E0; [|discriminate].
  destruct (peek (take n block) (at_ + 1)) as [b1|] eqn:E1; [|discriminate].
  destruct (peek (take n block) (at_ + 2)) as [b2|] eqn:E2; [|discriminate].
  destruct (peek (take n block) (at_ + 3)) as [b3|] eqn:E3; [|discriminate].
  now rewrite (peek_take _ _ _ _ E0), (peek_take _ _ _ _ E1),
    (peek_take _ _ _ _ E2), (peek_take _ _ _ _ E3).
Qed.

Lemma u32_take_in n block at_ :
  at_ + 3 < Z.of_nat n -> u32 (take n block) at_ = u32 block at_.
Proof.
  intros H. unfold u32. now rewrite !peek_take_in by lia.
Qed.

Lemma peek_Some block at_ :
  0 <= at_ < Z.of_nat (length block) -> is_Some (peek block at_).
Proof.
  intros H. unfold peek.
  destruct (at_ <? 0) eqn:E; [apply Z.ltb_lt in E; lia|].
  destruct (lookup_lt_is_Some_2 block (Z.to_nat at_) ltac:(lia)) as [c ->].
  now eexists.
Qed.

Lemma peek_length block at_ b :
  peek block at_ = Some b -> 0 <= at_ < Z.of_nat (length block).
Proof.
  unfold peek. destruct (at_ <? 0) eqn:E; [discriminate|].
  apply Z.ltb_ge in E.
  destruct (block !! Z.to_nat at_) as [c|] eqn:El; [|discriminate].
  intros _. apply lookup_lt_Some in El. lia.
Qed.

Lemma u32_Some block at_ :
  0 <= at_ -> at_ + 3 < Z.of_nat (length block) -> is_Some (u32 block at_).
Proof.
  intros H0 H. unfold u32.
  destruct (peek_Some block at_ ltac:(lia)) as [b0 ->].
  destruct (peek_Some block (at_ + 1) ltac:(lia)) as [b1 ->].
  destruct (peek_Some block (at_ + 2) ltac:(lia)) as [b2 ->].
  destruct (peek_Some block (at_ + 3) ltac:(lia)) as [b3 ->].
  now eexists.
Qed.

Lemma u32_range block at_ v :
  u32 block at_ = Some v ->
  0 <= v < 4294967296 /\ at_ + 3 < Z.of_nat (length block).
Proof.
  unfold u32. intros H.
  destruct (peek block at_) as [b0|] eqn:E0; [|discriminate].
  destruct (peek block (at_ + 1)) as [b1|] eqn:E1; [|discriminate].
  destruct (peek block (at_ + 2)) as [b2|] eqn:E2; [|discriminate].
  destruct (peek block (at_ + 3)) as [b3|] eqn:E3; [|discriminate].
  simpl in H. injection H as <-.
  apply peek_range in E0, E1, E2. pose proof (peek_length _ _ _ E3).
  apply peek_range in E3. lia.
Qed.

(** [bmp_info] gives the width and the height that stand at bytes 18
    and 22 of the file, as [int]s.  It asks for the 54 bytes of the
    two headers and for nothing else: a file that has them is
    accepted whatever it holds, as long as no read fails. *)
Lemma bmp_info_header env files fn file :
  files !! fn = Some file ->
  exists r,
    bmp_info env files fn = Some r
    /\ (forall size, r = Some size ->
          54 <= Z.of_nat (length file) /\ header_size file = Some size)
    /\ (Forall gives (reading env fn) -> 54 <= Z.of_nat (length file) ->
        r = header_size file /\ is_Some r).
Proof.
  intros Hfile. unfold bmp_info, open_rdonly. rewrite Hfile.
  cbn [mbind option_bind].
  set (fd := {| unread := file; answers := reading env fn |}).
  destruct (ensure_read_spec fd (sizeof_bmp_file_header + sizeof_bmp_data_header))
    as (ret & buffer & fd' & Hrun & Hret & Hok & Hall).
  rewrite Hrun. cbn [mbind option_bind].
  change (sizeof_bmp_file_header + sizeof_bmp_data_header) with 54 in *.
  simpl unread in *. simpl answers in *.
  destruct Hret as [-> | ->].
  2:{ exists None. split; [reflexivity|]. split; [discriminate|].
      intros Hg Hlen. destruct (Hall Hg) as [_ Hzero].
      specialize (Hzero ltac:(lia)). discriminate. }
  destruct (Hok eq_refl) as (Hbuf & Hlen & _).
  change (Z.to_nat 54) with 54%nat in Hbuf.
  assert (H54 : 54 <= Z.of_nat (length file)).
  { rewrite Hbuf, length_take in Hlen. lia. }
  subst buffer. unfold header_size, at_x, at_y, sizeof_bmp_file_header.
  rewrite !u32_take_in by lia.
  destruct (u32_Some file (14 + 4) ltac:(lia) ltac:(lia)) as [x ->].
  destruct (u32_Some file (14 + 8) ltac:(lia) ltac:(lia)) as [y ->].
  cbn [mbind option_bind]. change (0 <? 0) with false. cbn iota.
  eexists. split; [reflexivity|]. split.
  - intros size [= <-]. auto.
  - intros _ _. split; [reflexivity|]. now eexists.
Qed.

Lemma take_take_drop {A} (l : list A) (n m : nat) :
  take n l ++ take m (drop n l) = take (n + m) l.
Proof.
  rewrite <- (take_drop n (take (n + m) l)).
  rewrite take_take, Nat.min_l by lia.
  now rewrite take_drop_commute.
Qed.

(** The block [bmp_load] returns is the file as far as its header
    declares it, and the file is [loadable]. *)
Lemma bmp_load_sound env files fn file content :
  files !! fn = Some file ->
  bmp_load env files fn = Some (Some content) ->
  exists file_size,
    loadable file file_size /\ 34 <= file_size
    /\ content = take (Z.to_nat file_size) file.
Proof.
  intros Hfile. unfold bmp_load, open_rdonly. rewrite Hfile.
  cbn [mbind option_bind].
  destruct (malloc env sizeof_bmp_file_header); cbn [negb]; [|discriminate].
  set (fd := {| unread := file; answers := reading env fn |}).
  destruct (ensure_read_spec fd sizeof_bmp_file_header)
    as (ret & head & fd1 & Hrun & Hret & Hok & _).
  rewrite Hrun. cbn [mbind option_bind].
  change sizeof_bmp_file_header with 14 in *.
  destruct Hret as [-> | ->]; [|discriminate].
  change (0 <? 0) with false. cbn iota.
  destruct (Hok eq_refl) as (Hhead & Hlen & Hrest). clear Hok.
  simpl unread in *. change (Z.to_nat 14) with 14%nat in *.
  destruct (u16 head at_type) as [type|] eqn:Etype; [|discriminate].
  destruct (u16 head at_file_r0) as [r0|] eqn:Er0; [|discriminate].
  destruct (u16 head at_file_r1) as [r1|] eqn:Er1; [|discriminate].
  destruct (u32 head at_data_offset) as [off|] eqn:Eoff; [|discriminate].
  destruct (u32 head at_file_size) as [fs|] eqn:Efs; [|discriminate].
  cbn [mbind option_bind].
  destruct (_ || _) eqn:Echeck; [discriminate|].
  rewrite !orb_false_iff, !negb_false_iff, !Z.eqb_eq, Z.ltb_ge in Echeck.
  destruct Echeck as (((-> & ->) & ->) & Hoff).
  destruct (realloc env fs); [|discriminate]. cbn [negb].
  destruct (u32 (take (Z.to_nat fs) head) at_file_size) as [fs'|] eqn:Efs';
    [|discriminate].
  cbn [mbind option_bind].
  pose proof (u32_take _ _ _ _ Efs') as Hsame.
  rewrite Efs in Hsame. injection Hsame as <-.
  destruct (u32_range _ _ _ Efs) as [Hfs _].
  set (size := to_int ((fs - 14) mod 4294967296)).
  destruct (ensure_read_spec fd1 size)
    as (ret & more & fd2 & Hrun2 & Hret2 & Hok2 & _).
  rewrite Hrun2. cbn [mbind option_bind].
  destruct Hret2 as [-> | ->]; [|discriminate].
  change (0 <? 0) with false. cbn iota.
  destruct (Hok2 eq_refl) as (Hmore & Hlen2 & _). clear Hok2.
  assert (Hsize : 0 <= size) by lia.
  assert (Hfs14 : 14 <= fs /\ size = fs - 14).
  { subst size. unfold to_int in *.
    destruct (decide (14 <= fs)) as [Hge|Hlt].
    - rewrite (Z.mod_small (fs - 14)) in * by lia.
      destruct (decide (fs - 14 < 2147483648)) as [Hs|Hb].
      + rewrite Z.mod_small by lia. lia.
      + replace (fs - 14 + 2147483648)
          with (fs - 14 - 2147483648 + 1 * 4294967296) in Hsize by lia.
        rewrite Z.mod_add, Z.mod_small in Hsize by lia. lia.
    - replace (fs - 14) with (fs - 14 + 4294967296 + (-1) * 4294967296)
        in Hsize by lia.
      rewrite Z.mod_add, (Z.mod_small (fs - 14 + 4294967296)) in Hsize
        by lia.
      replace (fs - 14 + 4294967296 + 2147483648)
        with (fs - 14 + 2147483648 + 1 * 4294967296) in Hsize by lia.
      rewrite Z.mod_add, Z.mod_small in Hsize by lia. lia. }
  destruct Hfs14 as [Hge Esize].
  assert (Hcontent : take (Z.to_nat fs) head ++ more
                     = take (Z.to_nat fs) file).
  { rewrite take_ge by lia. rewrite Hmore, Hrest, Hhead.
    rewrite take_take_drop. f_equal. lia. }
  rewrite Hcontent.
  destruct (u32 (take (Z.to_nat fs) file) at_compress) as [compress|]
    eqn:Ecomp; [|discriminate].
  cbn [mbind option_bind].
  destruct (compress =? 0) eqn:Ezero; [|discriminate].
  apply Z.eqb_eq in Ezero. subst compress. cbn [negb].
  intros [= <-].
  destruct (u32_range _ _ _ Ecomp) as [_ Hin].
  rewrite length_take in Hin.
  change at_compress with 30 in Hin.
  assert (Hfile_len : fs <= Z.of_nat (length file)).
  { rewrite Hmore, Hrest, length_take, length_drop in Hlen2. lia. }
  exists fs. split; [|split; [lia|reflexivity]].
  subst head.
  repeat split; eauto using u16_take, u32_take.
Qed.

Lemma u16_take_in n block at_ :
  at_ + 1 < Z.of_nat n -> u16 (take n block) at_ = u16 block at_.
Proof.
  intros H. unfold u16. now rewrite !peek_take_in by lia.
Qed.

(** A [loadable] file is taken when the reads, [malloc] and
    [realloc] do not fail. *)
Lemma bmp_load_complete env files fn file file_size :
  files !! fn = Some file ->
  loadable file file_size -> 34 <= file_size < 2147483662 ->
  Forall gives (reading env fn) ->
  malloc env sizeof_bmp_file_header = true -> realloc env file_size = true ->
  bmp_load env files fn = Some (Some (take (Z.to_nat file_size) file)).
Proof.
  intros Hfile (Htype & Hr0 & Hr1 & Hfs & (off & Hoff & Hin) & Hcomp & Hlen)
    Hrange Hg Hmalloc Hrealloc.
  unfold bmp_load, open_rdonly. rewrite Hfile. cbn [mbind option_bind].
  rewrite Hmalloc. cbn [negb].
  set (fd := {| unread := file; answers := reading env fn |}).
  destruct (ensure_read_spec fd sizeof_bmp_file_header)
    as (ret & head & fd1 & Hrun & _ & Hok & Hall).
  rewrite Hrun. cbn [mbind option_bind].
  change sizeof_bmp_file_header with 14 in *.
  destruct (Hall Hg) as [Hg1 Hzero].
  specialize (Hzero ltac:(simpl; lia)). subst ret.
  change (0 <? 0) with false. cbn iota.
  destruct (Hok eq_refl) as (Hhead & _ & Hrest). clear Hok Hall.
  simpl unread in *. change (Z.to_nat 14) with 14%nat in *.
  subst head. unfold at_type, at_file_r0, at_file_r1, at_data_offset,
    at_file_size in *.
  rewrite !u16_take_in, !u32_take_in by lia.
  rewrite Htype, Hr0, Hr1, Hoff, Hfs. cbn [mbind option_bind].
  change (19778 =? 19778) with true. change (0 =? 0) with true.
  cbn [negb orb].
  destruct (file_size <? off) eqn:E; [apply Z.ltb_lt in E; lia|clear E].
  rewrite Hrealloc. cbn [negb].
  rewrite take_take, Nat.min_r by lia.
  rewrite u32_take_in by lia. rewrite Hfs. cbn [mbind option_bind].
  rewrite (Z.mod_small (file_size - 14)) by lia.
  rewrite to_int_small by lia.
  destruct (ensure_read_spec fd1 (file_size - 14))
    as (ret & more & fd2 & Hrun2 & _ & Hok2 & Hall2).
  rewrite Hrun2. cbn [mbind option_bind].
  destruct (Hall2 Hg1) as [_ Hzero].
  rewrite Hrest, length_drop in Hzero.
  specialize (Hzero ltac:(lia)). subst ret.
  change (0 <? 0) with false. cbn iota.
  destruct (Hok2 eq_refl) as (Hmore & _ & _).
  rewrite Hmore, Hrest, take_take_drop.
  replace (14 + Z.to_nat (file_size - 14))%nat with (Z.to_nat file_size)
    by lia.
  unfold at_compress, sizeof_bmp_file_header in *.
  rewrite u32_take_in by lia. rewrite Hcomp. reflexivity.
Qed.

(** [bmp_load] tests the compression field without a look at the
    size: on a file whose header is right but declares fewer than the
    34 bytes that reach to the field, it reads outside the block it
    has. *)
Lemma bmp_load_short env files fn file file_size data_offset :
  files !! fn = Some file ->
  u16 file at_type = Some 19778 ->
  u16 file at_file_r0 = Some 0 ->
  u16 file at_file_r1 = Some 0 ->
  u32 file at_file_size = Some file_size ->
  u32 file at_data_offset = Some data_offset ->
  data_offset <= file_size ->
  14 <= file_size < 34 -> file_size <= Z.of_nat (length file) ->
  Forall gives (reading env fn) -> realloc env file_size = true ->
  bmp_load env files fn = None.
Proof.
  intros Hfile Htype Hr0 Hr1 Hfs Hoff Hin Hrange Hlen Hg Hrealloc.
  unfold bmp_load, open_rdonly. rewrite Hfile. cbn [mbind option_bind].
  destruct (malloc env sizeof_bmp_file_header); cbn [negb]; [|reflexivity].
  set (fd := {| unread := file; answers := reading env fn |}).
  destruct (ensure_read_spec fd sizeof_bmp_file_header)
    as (ret & head & fd1 & Hrun & _ & Hok & Hall).
  rewrite Hrun. cbn [mbind option_bind].
  change sizeof_bmp_file_header with 14 in *.
  destruct (Hall Hg) as [Hg1 Hzero].
  specialize (Hzero ltac:(simpl; lia)). subst ret.
  change (0 <? 0) with false. cbn iota.
  destruct (Hok eq_refl) as (Hhead & _ & Hrest). clear Hok Hall.
  simpl unread in *. change (Z.to_nat 14) with 14%nat in *.
  subst head. unfold at_type, at_file_r0, at_file_r1, at_data_offset,
    at_file_size in *.
  rewrite !u16_take_in, !u32_take_in by lia.
  rewrite Htype, Hr0, Hr1, Hoff, Hfs. cbn [mbind option_bind].
  change (19778 =? 19778) with true. change (0 =? 0) with true.
  cbn [negb orb].
  destruct (file_size <? data_offset) eqn:E;
    [apply Z.ltb_lt in E; lia|clear E].
  rewrite Hrealloc. cbn [negb].
  rewrite take_take, Nat.min_r by lia.
  rewrite u32_take_in by lia. rewrite Hfs. cbn [mbind option_bind].
  rewrite (Z.mod_small (file_size - 14)) by lia.
  rewrite to_int_small by lia.
  destruct (ensure_read_spec fd1 (file_size - 14))
    as (ret & more & fd2 & Hrun2 & _ & Hok2 & Hall2).
  rewrite Hrun2. cbn [mbind option_bind].
  destruct (Hall2 Hg1) as [_ Hzero].
  rewrite Hrest, length_drop in Hzero.
  specialize (Hzero ltac:(lia)). subst ret.
  change (0 <? 0) with false. cbn iota.
  destruct (Hok2 eq_refl) as (Hmore & _ & _).
  rewrite Hmore, Hrest, take_take_drop.
  replace (14 + Z.to_nat (file_size - 14))%nat with (Z.to_nat file_size)
    by lia.
  destruct (u32 (take (Z.to_nat file_size) file) at_compress) as [c|] eqn:Ec;
    [|reflexivity].
  apply u32_range in Ec as [_ Ec]. rewrite length_take in Ec.
  change at_compress with 30 in Ec. lia.
Qed.

(** X5.  [bits] gives the [c] bits from bit [n] on of the bytes at
    [base], when they lie inside the block: as a number, the first
    of them its lowest bit. *)
Theorem bits_little_endian block base n c :
  0 <= base -> 0 <= n -> 0 <= c <= 31 ->
  n + c <= 8 * (Z.of_nat (length block) - base) ->
  n + c <= 2147483648 ->
  exists r,
    bits block base n c = Some r
    /\ 0 <= r < 2 ^ c
    /\ forall j, 0 <= j < c ->
                 Some (Z.testbit r j) = stream_bit block base (n + j).
Proof.
  intros Hbase Hn Hc Hin Hfit.
  apply bits_reads_stream; [exact Hn|exact Hc|exact Hfit|].
  intros j Hj. apply peek_Some.
  assert (0 <= (n + j) / 8) by (apply Z.div_pos; lia).
  assert ((n + j) / 8 < Z.of_nat (length block) - base)
    by (apply Z.div_lt_upper_bound; lia).
  lia.
Qed.

Lemma bits_little_endian_witness :
  exists r,
    bits (map chr [172; 5]) 0 4 8 = Some r
    /\ 0 <= r < 256
    /\ Some (Z.testbit r 1) = stream_bit (map chr [172; 5]) 0 5.
Proof.
  destruct (bits_little_endian (map chr [172; 5]) 0 4 8)
    as (r & Hrun & Hr & Hbits); [lia|lia|lia|simpl; lia|lia|].
  exists r. split; [exact Hrun|]. split; [exact Hr|].
  apply (Hbits 1). lia.
Defined.

(** X6.  [bmp_info] gives the width and the height that stand at
    bytes 18 and 22 of the file, as [int]s.  It asks for the 54
    bytes of the two headers and for nothing else: a file that has
    them is accepted whatever it holds, as long as no read fails. *)
Theorem bmp_info_reads_header env files fn file :
  files !! fn = Some file ->
  exists r,
    bmp_info env files fn = Some r
    /\ (forall size, r = Some size ->
          54 <= Z.of_nat (length file) /\ header_size file = Some size)
    /\ (Forall gives (reading env fn) -> 54 <= Z.of_nat (length file) ->
        r = header_size file /\ is_Some r).
Proof. apply bmp_info_header. Qed.

Lemma bmp_info_reads_header_witness :
  bmp_info sample_extra sample_files flipped_path = Some (Some (2, -2)).
Proof.
  destruct (bmp_info_reads_header sample_extra sample_files flipped_path
              top_down_bitmap)
    as (r & Hrun & _ & Hall); [reflexivity|].
  destruct Hall as [Hr _]; [repeat constructor|simpl; lia|].
  rewrite Hrun, Hr. reflexivity.
Defined.

(** X9.  [bmp_load] returns a block only for a file whose header
    passes its tests, and the block is then the file as far as its
    header declares it; such a file is taken whenever the reads,
    [malloc] and [realloc] do not fail. *)
Theorem bmp_load_takes_declared_size env files fn file :
  files !! fn = Some file ->
  (forall content,
      bmp_load env files fn = Some (Some content) ->
      exists file_size,
        loadable file file_size /\ 34 <= file_size
        /\ content = take (Z.to_nat file_size) file)
  /\ (forall file_size,
        loadable file file_size -> 34 <= file_size < 2147483662 ->
        Forall gives (reading env fn) ->
        malloc env sizeof_bmp_file_header = true ->
        realloc env file_size = true ->
        bmp_load env files fn = Some (Some (take (Z.to_nat file_size) file))).
Proof.
  intros Hfile. split.
  - intros content. now apply bmp_load_sound.
  - intros file_size. now apply bmp_load_complete.
Qed.

Lemma bmp_load_takes_declared_size_witness :
  bmp_load sample_extra sample_files logo_path = Some (Some sample_bitmap).
Proof.
  destruct (bmp_load_takes_declared_size sample_extra sample_files logo_path
              sample_bitmap) as [_ Hall]; [reflexivity|].
  apply (Hall 66); [|lia|repeat constructor|reflexivity|reflexivity].
  unfold loadable. do 4 (split; [reflexivity|]).
  split; [exists 54; split; [reflexivity|lia]|].
  split; [reflexivity|simpl; lia].
Defined.

(** X10.  [bmp_load] tests the compression field without a look at
    the size: on a file whose header is right but declares fewer
    than the 34 bytes that reach to the field, it reads outside the
    block it has. *)
Theorem bmp_load_reads_outside_short_block env files fn file file_size
    data_offset :
  files !! fn = Some file ->
  u16 file at_type = Some 19778 ->
  u16 file at_file_r0 = Some 0 ->
  u16 file at_file_r1 = Some 0 ->
  u32 file at_file_size = Some file_size ->
  u32 file at_data_offset = Some data_offset ->
  data_offset <= file_size ->
  14 <= file_size < 34 -> file_size <= Z.of_nat (length file) ->
  Forall gives (reading env fn) ->
  malloc env sizeof_bmp_file_header = true ->
  realloc env file_size = true ->
  bmp_load env files fn = None.
Proof. intros. eapply bmp_load_short; eassumption. Qed.

Lemma bmp_load_reads_outside_short_block_witness :
  bmp_load sample_extra {[ logo_path := short_bitmap ]} logo_path = None.
Proof.
  apply (bmp_load_reads_outside_short_block sample_extra _ logo_path
           short_bitmap 14 14);
    try reflexivity; try lia; try (simpl; lia); repeat constructor.
Defined.

End HeaderFacts.

Module ConversionFacts.
Import CLib RecoveryUI Extra ExtraSpec Menus Examples DescriptorFacts PackingFacts ExecFacts ReadWriteFacts
  PixelFacts HeaderFacts.

Local Open Scope Z_scope.






(** X12.  A bitmap stored top row first has a negative height.
    [bmp_to_565] never reports success on one: whatever [malloc] and
    the kernel do, it returns -1 and writes no pixel; at most the
    output file is created, and what it held stays. *)
Theorem bmp_to_565_refuses_top_down env files in_ out file x y ret files' :
  files !! in_ = Some file ->
  u32 file at_x = Some x -> u32 file at_y = Some y ->
  0 < x -> 2147483648 <= y -> x * (4294967296 - y) < 1073741824 ->
  bmp_to_565 env files in_ out = Some (ret, files') ->
  ret = -1
  /\ (files' = files \/ files' = <[out := default [] (files !! out)]> files).
Proof.
  intros Hfile Hx Hy Hxpos Hyneg Hfit.
  destruct (u32_range _ _ _ Hy) as [Hyr _].
  assert (Hh : to_int y = y - 4294967296).
  { unfold to_int.
    replace (y + 2147483648)
      with (y - 2147483648 + 1 * 4294967296) by lia.
    rewrite Z.mod_add, Z.mod_small by lia. lia. }
  remember (y - 4294967296) as h eqn:Hhdef.
  assert (Hw : to_int x = x) by (apply to_int_small; nia).
  assert (Hprod : -1073741824 < x * h < 0) by nia.
  unfold bmp_to_565.
  destruct (bmp_info_header env files in_ file Hfile)
    as (info & -> & Hinfo & _).
  cbn [mbind option_bind].
  destruct info as [[bx by_]|].
  2:{ intros [= <- <-]. auto. }
  destruct (Hinfo _ eq_refl) as [_ Hsize].
  unfold header_size in Hsize. rewrite Hx, Hy in Hsize.
  cbn [mbind option_bind] in Hsize. rewrite Hw, Hh in Hsize.
  injection Hsize as <- <-.
  destruct (bmp_load env files in_) as [[data|]|] eqn:Eload;
    cbn [mbind option_bind]; [|intros [= <- <-]; auto|discriminate].
  destruct (bmp_load_sound env files in_ file data Hfile Eload)
    as (fs & Hload & Hfs & ->).
  assert (Hlen : fs <= Z.of_nat (length file)) by apply Hload.
  set (data := take (Z.to_nat fs) file).
  unfold bmp_convert.
  assert (Hdx : u32 data at_x = Some x).
  { subst data. unfold at_x, sizeof_bmp_file_header in *.
    rewrite u32_take_in by lia. exact Hx. }
  assert (Hdy : u32 data at_y = Some y).
  { subst data. unfold at_y, sizeof_bmp_file_header in *.
    rewrite u32_take_in by lia. exact Hy. }
  rewrite Hdx, Hdy. cbn [mbind option_bind]. rewrite Hw, Hh.
  assert (Hsize : (2 * x * h) mod 4294967296 = 2 * x * h + 4294967296).
  { symmetry. apply Z.mod_unique with (-1); lia. }
  rewrite Hsize.
  destruct (malloc env _); cbn [negb]; [|intros [= <- <-]; auto].
  destruct (u32 data at_data_offset) as [off|]; cbn [mbind option_bind];
    [|discriminate].
  rewrite (to_int_small (x * h)) by lia.
  replace (Z.to_nat (x * h)) with 0%nat by lia.
  cbn [convert_loop mbind option_bind].
  destruct (creatable env out); cbn [negb]; [|intros [= <- <-]; auto].
  assert (Hneg : to_int (2 * x * h + 4294967296) = 2 * x * h).
  { unfold to_int.
    replace (2 * x * h + 4294967296 + 2147483648)
      with (2 * x * h + 2147483648 + 1 * 4294967296) by lia.
    rewrite Z.mod_add, Z.mod_small by lia. lia. }
  rewrite Hneg. unfold ensure_write.
  destruct (_ <? 2 * x * h) eqn:E; [apply Z.ltb_lt in E; lia|clear E].
  replace (Z.to_nat (2 * x * h)) with 0%nat by lia.
  unfold ensure_write_loop.
  destruct (0 <? 2 * x * h) eqn:E; [apply Z.ltb_lt in E; lia|clear E].
  cbn [mbind option_bind].
  destruct (0 =? 2 * x * h) eqn:E; [apply Z.eqb_eq in E; lia|clear E].
  intros [= <- <-]. split; [reflexivity|]. now right.
Qed.

Lemma bmp_to_565_refuses_top_down_witness :
  exists ret files',
    bmp_to_565 sample_extra sample_files flipped_path RGB565_SPLASH_FILE
    = Some (ret, files')
    /\ ret = -1
    /\ (files' = sample_files
        \/ files' = <[RGB565_SPLASH_FILE :=
                        default [] (sample_files !! RGB565_SPLASH_FILE)]>
                      sample_files).
Proof.
  assert (Hrun : bmp_to_565 sample_extra sample_files flipped_path
                   RGB565_SPLASH_FILE = Some (-1, sample_files))
    by (vm_compute; reflexivity).
  exists (-1), sample_files. split; [exact Hrun|].
  apply (bmp_to_565_refuses_top_down sample_extra sample_files
           flipped_path RGB565_SPLASH_FILE top_down_bitmap 2 4294967294);
    [reflexivity|reflexivity|reflexivity|lia|lia|lia|exact Hrun].
Defined.

End ConversionFacts.

Module DirFacts.
Import CLib RecoveryUI Extra ExtraSpec Examples DescriptorFacts PackingFacts ExecFacts.

Local Open Scope Z_scope.

Lemma drop_suffix (extension d_name : chars) :
  (length extension <= length d_name)%nat ->
  drop (length d_name - length extension) d_name = extension
  <-> extension `suffix_of` d_name.
Proof.
  intros Hlen. split.
  - intros H. exists (take (length d_name - length extension) d_name).
    symmetry. etransitivity; [|apply (take_drop
      (length d_name - length extension))]. now f_equal.
  - intros [k ->]. rewrite length_app.
    replace (length k + length extension - length extension)%nat
      with (length k) by lia.
    now rewrite drop_app_length.
Qed.

Lemma listed_offered env directory extension d_name :
  listed env directory (Some extension) d_name
  = Some (bool_decide (offered extension d_name)).
Proof.
  unfold listed, offered.
  destruct (bool_decide (head d_name = Some "."%char)) eqn:Eh.
  - apply bool_decide_eq_true in Eh. f_equal. symmetry.
    apply bool_decide_eq_false. tauto.
  - apply bool_decide_eq_false in Eh.
    destruct (length d_name <? length extension)%nat eqn:El.
    + apply Nat.ltb_lt in El. f_equal. symmetry.
      apply bool_decide_eq_false. intros [_ [k ->]].
      rewrite length_app in El. lia.
    + apply Nat.ltb_ge in El.
      destruct (bool_decide (drop _ d_name = extension)) eqn:Ed.
      * apply bool_decide_eq_true in Ed. f_equal. symmetry.
        apply bool_decide_eq_true. split; [exact Eh|].
        now apply drop_suffix.
      * apply bool_decide_eq_false in Ed. f_equal. symmetry.
        apply bool_decide_eq_false. intros [_ Hs]. apply Ed.
        now apply drop_suffix.
Qed.

Section Passes.

Variable env : Env.
Variable directory : chars.
Variable extension : option chars.
Variable keep : chars -> Prop.
Context `{!forall d_name, Decision (keep d_name)}.

Lemma count_pass_counts entries : forall total,
  (forall d_name, d_name ∈ entries ->
     listed env directory extension d_name = Some (bool_decide (keep d_name))) ->
  count_pass env directory extension entries total
  = Some (total + length (filter keep entries))%nat.
Proof.
  induction entries as [|d_name entries IH]; intros total Hlisted.
  - simpl. f_equal. lia.
  - cbn [count_pass]. rewrite Hlisted by apply list_elem_of_here.
    cbn [mbind option_bind]. rewrite IH.
    2:{ intros n Hn. apply Hlisted. now apply list_elem_of_further. }
    rewrite filter_cons. destruct (decide (keep d_name)) as [Hk|Hk].
    + rewrite bool_decide_eq_true_2 by exact Hk. simpl. f_equal. lia.
    + rewrite bool_decide_eq_false_2 by exact Hk. reflexivity.
Qed.

Lemma store_pass_stores entries : forall (done : list chars) room rest,
  (forall d_name, d_name ∈ entries ->
     listed env directory extension d_name = Some (bool_decide (keep d_name))) ->
  (forall size, malloc env size = true) ->
  (length (filter keep entries) <= room)%nat ->
  store_pass env directory extension entries
    (map Ptr done ++ replicate room Fresh ++ rest) (length done)
  = Some (map Ptr (done ++ map (stored directory extension)
                             (filter keep entries))
          ++ replicate (room - length (filter keep entries)) Fresh ++ rest).
Proof.
  induction entries as [|d_name entries IH];
    intros done room rest Hlisted Hmalloc Hroom.
  - simpl. now rewrite app_nil_r, Nat.sub_0_r.
  - cbn [store_pass]. rewrite Hlisted by apply list_elem_of_here.
    cbn [mbind option_bind]. rewrite filter_cons in *.
    assert (Hrest : forall n, n ∈ entries ->
              listed env directory extension n = Some (bool_decide (keep n))).
    { intros n Hn. apply Hlisted. now apply list_elem_of_further. }
    destruct (decide (keep d_name)) as [Hk|Hk].
    + rewrite bool_decide_eq_true_2 by exact Hk.
      rewrite Hmalloc. cbn [negb].
      simpl in Hroom. destruct room as [|room]; [lia|].
      unfold poke. rewrite decide_True.
      2:{ rewrite !length_app, length_map. simpl. lia. }
      cbn [mbind option_bind].
      rewrite insert_app_r_alt by (rewrite length_map; lia).
      rewrite length_map, Nat.sub_diag. simpl.
      fold (stored directory extension d_name).
      specialize (IH (done ++ [stored directory extension d_name]) room rest
                    Hrest Hmalloc ltac:(lia)).
      rewrite length_app, map_app in IH. simpl in IH.
      rewrite <- app_assoc in IH. simpl in IH.
      replace (length done + 1)%nat with (S (length done)) in IH by lia.
      rewrite IH. now rewrite <- app_assoc.
    + rewrite bool_decide_eq_false_2 by exact Hk.
      now apply IH.
Qed.

(** [enumerate_files_in_directory], when [malloc] does not fail: the
    array holds the paths of the entries that are kept, in the order
    of the directory, and ends in NULL. *)
Lemma enumerate_stores entries shown :
  opendir env directory = Some entries ->
  (forall d_name, d_name ∈ entries ->
     listed env directory extension d_name = Some (bool_decide (keep d_name))) ->
  (forall size, malloc env size = true) ->
  let found := filter keep entries in
  enumerate_files_in_directory env directory extension shown
  = Some (match found with
          | [] => None
          | _ => Some (map Ptr (map (stored directory extension) found)
                       ++ [Null])
          end,
          length found,
          if closedir_fails env directory
          then shown ++ [LogE CantCloseDirectory] else shown).
Proof.
  intros Hopen Hlisted Hmalloc found.
  unfold enumerate_files_in_directory. rewrite Hopen.
  rewrite (count_pass_counts entries 0 Hlisted). cbn [mbind option_bind].
  fold found. simpl (0 + _)%nat.
  destruct found as [|d_name found'] eqn:Efound.
  - reflexivity.
  - cbn [length Nat.eqb]. rewrite Hmalloc. cbn [negb].
    rewrite <- Efound.
    assert (Hlen : length found = S (length found'))
      by (subst found; rewrite Efound; reflexivity).
    rewrite <- Hlen.
    unfold poke. rewrite decide_True
      by (rewrite length_replicate; lia).
    cbn [mbind option_bind].
    replace (length found + 1)%nat with (S (length found)) by lia.
    rewrite replicate_S_end.
    rewrite insert_app_r_alt by (rewrite length_replicate; lia).
    rewrite length_replicate, Nat.sub_diag. simpl insert.
    pose proof (store_pass_stores entries [] (length found) [Null]
                  Hlisted Hmalloc ltac:(subst found; lia)) as Hstore.
    simpl in Hstore. fold found in Hstore.
    rewrite Nat.sub_diag in Hstore. simpl in Hstore.
    rewrite Hstore. cbn [mbind option_bind].
    rewrite Efound. reflexivity.
Qed.

End Passes.

(** What [store_pass] puts into the array are paths of entries that
    are listed. *)
Lemma store_pass_sound env directory extension entries :
  forall files i files',
  store_pass env directory extension entries files i = Some files' ->
  forall s, Ptr s ∈ files' ->
    Ptr s ∈ files
    \/ exists d_name,
         listed env directory extension d_name = Some true
         /\ s = stored directory extension d_name.
Proof.
  induction entries as [|d_name entries IH]; intros files i files' Hrun s Hs.
  - injection Hrun as <-. now left.
  - cbn [store_pass] in Hrun.
    destruct (listed env directory extension d_name) as [[|]|] eqn:El;
      cbn [mbind option_bind] in Hrun; [| |discriminate].
    + destruct (malloc env _); [|discriminate]. cbn [negb] in Hrun.
      unfold poke in Hrun.
      destruct (decide (i < length files)%nat); [|discriminate].
      cbn [mbind option_bind] in Hrun.
      destruct (IH _ _ _ Hrun s Hs) as [Hin|Hnew]; [|now right].
      apply list_elem_of_lookup in Hin as [j Hj].
      destruct (decide (j = i)) as [->|Hne].
      * rewrite list_lookup_insert_eq in Hj by assumption.
        injection Hj as <-. right. exists d_name. auto.
      * rewrite list_lookup_insert_ne in Hj by auto.
        left. apply list_elem_of_lookup. eauto.
    + eapply IH; eassumption.
Qed.

Lemma enumerate_sound env directory extension shown files numFiles shown' :
  enumerate_files_in_directory env directory extension shown
  = Some (Some files, numFiles, shown') ->
  forall s, Ptr s ∈ files ->
    exists d_name,
      listed env directory extension d_name = Some true
      /\ s = stored directory extension d_name.
Proof.
  unfold enumerate_files_in_directory.
  destruct (opendir env directory) as [entries|]; [|discriminate].
  destruct (count_pass _ _ _ _ _) as [total|];
    cbn [mbind option_bind]; [|discriminate].
  destruct (total =? 0)%nat; cbn [mbind option_bind]; [discriminate|].
  destruct (malloc env _); cbn [negb]; [|discriminate].
  unfold poke. destruct (decide _); [|discriminate].
  cbn [mbind option_bind].
  destruct (store_pass _ _ _ _ _ _) as [files'|] eqn:Es;
    cbn [mbind option_bind]; [|discriminate].
  intros [= <- _ _] s Hs.
  destruct (store_pass_sound _ _ _ _ _ _ _ Es s Hs) as [Hin|Hnew];
    [|exact Hnew].
  apply list_elem_of_lookup in Hin as [j Hj].
  apply list_lookup_insert_Some in Hj as [(_ & H & _)|[_ Hj]];
    [discriminate|].
  apply lookup_replicate in Hj as [Hj _]. discriminate.
Qed.

Lemma string_at_in files i s :
  string_at files i = Some s -> exists array, files = Some array /\ Ptr s ∈ array.
Proof.
  unfold string_at. destruct files as [array|]; [|discriminate].
  cbn [mbind option_bind]. destruct (i <? 0); [discriminate|].
  destruct (array !! Z.to_nat i) as [[| |s']|] eqn:E; try discriminate.
  intros [= <-]. exists array. split; [reflexivity|].
  apply list_elem_of_lookup. eauto.
Qed.

Lemma listed_file env directory extension d_name :
  listed env directory (Some extension) d_name = Some true ->
  directory `prefix_of` stored directory (Some extension) d_name
  /\ extension `suffix_of` stored directory (Some extension) d_name.
Proof.
  rewrite listed_offered. intros [= H]. apply bool_decide_eq_true in H.
  destruct H as [_ [k ->]]. unfold stored. rewrite app_nil_r.
  split; [now eexists|]. exists (directory ++ k). now rewrite app_assoc.
Qed.

Lemma file_menu_loop_inside env descend h items files dirs numDirs
    directory extension shown0 numFiles shown1 turns :
  forall keys shown path keys' shown',
  enumerate_files_in_directory env directory (Some extension) shown0
  = Some (files, numFiles, shown1) ->
  (forall dir keys shown path keys' shown',
     descend dir keys shown = Some (Some path, keys', shown') ->
     (exists array, dirs = Some array /\ Ptr dir ∈ array) ->
     inside directory extension path) ->
  file_menu_loop env descend h items files dirs numDirs turns keys shown
  = Some (Some path, keys', shown') ->
  inside directory extension path.
Proof.
  induction turns as [|turns IH];
    intros keys shown path keys' shown' Hfiles Hdescend Hrun;
    [discriminate|].
  cbn [file_menu_loop] in Hrun.
  destruct (get_menu_selection _ _ _ _ _) as [[chosen keys1] asked].
  destruct chosen as [chosen|]; cbn [mbind option_bind] in Hrun;
    [|discriminate].
  destruct (chosen =? SELECT_BACK (codes env)); [discriminate|].
  destruct (chosen <? Z.of_nat numDirs).
  - destruct (string_at dirs chosen) as [dir|] eqn:Edir;
      cbn [mbind option_bind] in Hrun; [|discriminate].
    destruct (descend dir keys1 (shown ++ asked))
      as [[[subret keys2] shown2]|] eqn:Esub;
      cbn [mbind option_bind] in Hrun; [|discriminate].
    destruct subret as [sub|].
    + destruct (PATH_MAX <=? length sub)%nat eqn:El; [discriminate|].
      injection Hrun as <- <- <-.
      apply (Hdescend dir keys1 (shown ++ asked) sub keys2 shown2 Esub).
      exact (string_at_in _ _ _ Edir).
    + eapply IH; eassumption.
  - destruct (string_at files _) as [file|] eqn:Efile;
      cbn [mbind option_bind] in Hrun; [|discriminate].
    destruct (PATH_MAX <=? length file)%nat eqn:El; [discriminate|].
    injection Hrun as <- <- <-.
    apply string_at_in in Efile as (array & -> & Hin).
    destruct (enumerate_sound _ _ _ _ _ _ _ Hfiles _ Hin)
      as (d_name & Hl & ->).
    destruct (listed_file _ _ _ _ Hl) as [Hp Hs].
    split; [exact Hp | exact Hs].
Qed.

Lemma choose_file_menu_inside env depth :
  forall directory extension h keys shown path keys' shown',
  choose_file_menu env depth directory (Some extension) h keys shown
  = Some (Some path, keys', shown') ->
  inside directory extension path.
Proof.
  induction depth as [|depth IH];
    intros directory extension h keys shown path keys' shown' Hrun;
    [discriminate|].
  cbn [choose_file_menu] in Hrun.
  destruct (enumerate_files_in_directory env directory (Some extension) shown)
    as [[[files numFiles] shown1]|] eqn:Efiles;
    cbn [mbind option_bind] in Hrun; [|discriminate].
  destruct (enumerate_files_in_directory env directory None shown1)
    as [[[dirs numDirs] shown2]|] eqn:Edirs;
    cbn [mbind option_bind] in Hrun; [|discriminate].
  destruct (numDirs + numFiles =? 0)%nat.
  { destruct (free_string_array files); cbn [mbind option_bind] in Hrun;
      [|discriminate].
    destruct (free_string_array dirs); cbn [mbind option_bind] in Hrun;
      discriminate. }
  destruct (malloc env _); cbn [negb] in Hrun; [|discriminate].
  destruct (tails _ dirs _) as [dir_names|];
    cbn [mbind option_bind] in Hrun; [|discriminate].
  destruct (tails _ files _) as [file_names|];
    cbn [mbind option_bind] in Hrun; [|discriminate].
  destruct (file_menu_loop _ _ _ _ _ _ _ _ _ _)
    as [[[return_value keys1] shown3]|] eqn:Eloop;
    cbn [mbind option_bind] in Hrun; [|discriminate].
  destruct (free_string_array files); cbn [mbind option_bind] in Hrun;
    [|discriminate].
  destruct (free_string_array dirs); cbn [mbind option_bind] in Hrun;
    [|discriminate].
  injection Hrun as -> <- <-.
  eapply file_menu_loop_inside; [exact Efiles| |exact Eloop].
  intros dir keys2 shown4 sub keys3 shown5 Hsub (array & -> & Hin).
  destruct (enumerate_sound _ _ _ _ _ _ _ Edirs _ Hin) as (d_name & _ & ->).
  destruct (IH _ _ _ _ _ _ _ _ Hsub) as ([k ->] & Hs).
  split; [|auto]. unfold stored. exists (d_name ++ ["/"%char] ++ k).
  now rewrite <- !app_assoc.
Qed.

(** X14.  Whatever the keys are, a file [choose_file_menu] returns
    lies below the directory it was given and has the extension at
    its end.  This is said of the runs that return: the code copies
    the path to the array [ret] without a test of its length, and a
    path that does not fit is written beyond it. *)
Theorem choose_file_menu_stays_inside env depth directory extension h
    keys shown path keys' shown' :
  choose_file_menu env depth directory (Some extension) h keys shown
  = Some (Some path, keys', shown') ->
  directory `prefix_of` path /\ extension `suffix_of` path.
Proof. apply choose_file_menu_inside. Qed.

Lemma choose_file_menu_stays_inside_witness :
  choose_file_menu sample_extra 2 (cs "/sdcard/") (Some (cs ".bmp"))
    ChooseBmp browse_keys []
  = Some (Some logo_path, [], browse_shown)
  /\ cs "/sdcard/" `prefix_of` logo_path /\ cs ".bmp" `suffix_of` logo_path.
Proof.
  split; [vm_compute; reflexivity|].
  apply (choose_file_menu_stays_inside sample_extra 2 (cs "/sdcard/")
           (cs ".bmp") ChooseBmp browse_keys [] logo_path [] browse_shown).
  vm_compute. reflexivity.
Defined.

(** X13.  [enumerate_files_in_directory] for an extension, when [malloc]
    does not fail: it gives the entries that are not hidden and end
    in the extension, each behind the name of the directory, in the
    order of the directory and closed by NULL; it gives NULL when
    there is none. *)
Theorem enumerate_files_lists_offered env directory extension entries shown :
  opendir env directory = Some entries ->
  (forall size, malloc env size = true) ->
  let found := filter (offered extension) entries in
  enumerate_files_in_directory env directory (Some extension) shown
  = Some (match found with
          | [] => None
          | _ => Some (map Ptr (map (app directory) found) ++ [Null])
          end,
          length found,
          if closedir_fails env directory
          then shown ++ [LogE CantCloseDirectory] else shown).
Proof.
  intros Hopen Hmalloc found.
  rewrite (enumerate_stores env directory (Some extension)
             (offered extension) entries shown Hopen); [|  |exact Hmalloc].
  - fold found.
    assert (map (stored directory (Some extension)) found
            = map (app directory) found) as ->; [|reflexivity].
    apply map_ext. intros d_name. unfold stored. now rewrite app_nil_r.
  - intros d_name _. apply listed_offered.
Qed.

Lemma enumerate_files_lists_offered_witness :
  enumerate_files_in_directory roomy_extra (cs "/sdcard/") (Some (cs ".bmp"))
    []
  = Some (Some [Ptr logo_path; Null], 1%nat, []).
Proof.
  rewrite (enumerate_files_lists_offered roomy_extra (cs "/sdcard/")
             (cs ".bmp")
             [cs ".android"; cs "logo.bmp"; cs "notes.txt";
              cs "update.zip"; cs ".hidden.bmp"; cs "bmp"] []);
    [vm_compute; reflexivity | reflexivity | intros size; reflexivity].
Defined.

End DirFacts.

Module MenuFacts.
Import CLib RecoveryUI Extra ExtraSpec Menus MenuSpec Examples DescriptorFacts PackingFacts ExecFacts.

Local Open Scope Z_scope.

Lemma resize_fits size step a b mbsd left :
  0 <= a -> 0 <= b -> a + b <= mbsd -> mbsd < 2147483648 ->
  0 <= resize size step a b mbsd left <= mbsd - a - b.
Proof.
  intros Ha Hb Hsum Hcard. unfold resize.
  rewrite (to_int_small (mbsd - a)) by lia.
  rewrite (to_int_small (mbsd - a - b)) by lia.
  generalize (to_int (size + (if left then - step else step))).
  intros s. cbv zeta.
  destruct (s <? 0) eqn:E1;
    [apply Z.ltb_lt in E1|apply Z.ltb_ge in E1];
    destruct (_ <? _) eqn:E2;
    try apply Z.ltb_lt in E2; try apply Z.ltb_ge in E2; lia.
Qed.

Lemma resized_fits mbsd left t :
  0 <= mbsd < 2147483648 -> fits mbsd t -> fits mbsd (resized mbsd left t).
Proof.
  intros Hcard (Hv & Hx & Hs & Hsum). unfold resized, fits.
  destruct (selected t =? 0); [|destruct (selected t =? 1);
    [|destruct (selected t =? 2)]]; simpl.
  - pose proof (resize_fits (mbvf t) 128 (mbex t) (mbsw t) mbsd left). lia.
  - pose proof (resize_fits (mbex t) 128 (mbvf t) (mbsw t) mbsd left). lia.
  - pose proof (resize_fits (mbsw t) 16 (mbex t) (mbvf t) mbsd left). lia.
  - lia.
Qed.

Lemma partition_menu_accounted mbsd t :
  0 <= mbsd < 2147483648 -> fits mbsd t ->
  accounted mbsd (UiStartMenu (partition_menu mbsd t))
  /\ accounted mbsd (UiModifyMenu (partition_menu mbsd t)).
Proof.
  intros Hcard (Hv & Hx & Hs & Hsum). unfold partition_menu. simpl.
  rewrite (to_int_small (mbsd - mbvf t)) by lia.
  rewrite (to_int_small (mbsd - mbvf t - mbex t)) by lia.
  rewrite (to_int_small (mbsd - mbvf t - mbex t - mbsw t)) by lia.
  split; repeat split; lia.
Qed.

Lemma move_highlight_events k select items action selected :
  let '(_, moved) := move_highlight k select items action selected in
  Forall (fun e => ~ is_execvp e) moved /\ forall mbsd, Forall (accounted mbsd) moved.
Proof.
  unfold move_highlight.
  destruct (_ =? _); [|destruct (_ =? _)]; simpl;
    (split; [|intros mbsd]; repeat constructor; auto).
Qed.

(** The loop of [process_partition]: the sizes go on fitting the
    card, the loop ends on SELECT_BACK or, with some vfat, on
    SELECT_ITEM, and it starts nothing. *)
Lemma partition_loop_fits env mbsd keys : forall t shown action t' keys' shown',
  0 <= mbsd < 2147483648 -> fits mbsd t ->
  partition_loop env mbsd keys t shown = Some (action, t', keys', shown') ->
  fits mbsd t'
  /\ (action = SELECT_BACK (codes (extra env))
      \/ action = SELECT_ITEM (codes (extra env)) /\ mbvf t' <> 0)
  /\ exists new,
       shown' = shown ++ new
       /\ Forall (accounted mbsd) new
       /\ Forall (fun e => ~ is_execvp e) new.
Proof.
  induction keys as [|[key visible] keys IH];
    intros t shown action t' keys' shown' Hcard Hfit Hrun; [discriminate|].
  cbn [partition_loop] in Hrun.
  set (k := codes (extra env)) in *.
  set (act := device_handle_key k key visible) in *.
  destruct (act <? 0) eqn:Eneg.
  2:{ apply (IH _ _ _ _ _ _ Hcard Hfit Hrun). }
  pose proof (move_highlight_events k (ui_menu_select (extra env)) 3 act
                (selected t)) as Hmoved.
  destruct (move_highlight _ _ _ _ _) as [highlight moved].
  destruct Hmoved as [Hquiet Hacc].
  set (t1 := {| selected := highlight; mbvf := mbvf t; mbex := mbex t;
                mbsw := mbsw t |}) in *.
  assert (Hfit1 : fits mbsd t1) by exact Hfit.
  destruct (act =? SELECT_BACK k) eqn:Eback.
  { injection Hrun as <- <- <- <-. apply Z.eqb_eq in Eback.
    split; [exact Hfit1|]. split; [now left|].
    exists moved. auto. }
  destruct (act =? SELECT_ITEM k) eqn:Eitem.
  { apply Z.eqb_eq in Eitem.
    destruct (mbvf t1 =? 0) eqn:Evf.
    - destruct (IH _ _ _ _ _ _ Hcard Hfit1 Hrun)
        as (Hfit' & Hend & new & -> & Hacc' & Hquiet').
      split; [exact Hfit'|]. split; [exact Hend|].
      exists (moved ++ [UiPrint NeedVfat] ++ new).
      rewrite <- !app_assoc. split; [reflexivity|].
      split; apply Forall_app; split; auto;
        apply Forall_app; split; auto; repeat constructor; auto.
    - injection Hrun as <- <- <- <-. apply Z.eqb_neq in Evf.
      split; [exact Hfit1|]. split; [now right|].
      exists moved. auto. }
  destruct (_ || _) eqn:Eside.
  - set (t2 := resized mbsd (act =? SELECT_LEFT k) t1) in *.
    assert (Hfit2 : fits mbsd t2) by now apply resized_fits.
    destruct (IH _ _ _ _ _ _ Hcard Hfit2 Hrun)
      as (Hfit' & Hend & new & -> & Hacc' & Hquiet').
    split; [exact Hfit'|]. split; [exact Hend|].
    exists (moved ++ [UiModifyMenu (partition_menu mbsd t2)] ++ new).
    rewrite <- !app_assoc. split; [reflexivity|].
    destruct (partition_menu_accounted mbsd t2 Hcard Hfit2) as [_ Hmenu].
    split; apply Forall_app; split; auto;
      apply Forall_app; split; auto; repeat constructor; auto.
  - destruct (IH _ _ _ _ _ _ Hcard Hfit1 Hrun)
      as (Hfit' & Hend & new & -> & Hacc' & Hquiet').
    split; [exact Hfit'|]. split; [exact Hend|].
    exists (moved ++ new). rewrite <- !app_assoc. split; [reflexivity|].
    split; apply Forall_app; split; auto.
Qed.

Lemma first_table_fits mbsd :
  0 <= mbsd <= 30000000 -> fits mbsd (first_table mbsd).
Proof.
  intros H. unfold first_table, fits. simpl.
  rewrite (to_int_small (mbsd * 70)) by lia.
  rewrite Z.quot_div_nonneg by lia.
  assert (0 <= mbsd * 70 / 100 <= mbsd).
  { split; [apply Z.div_pos; lia|].
    apply Z.div_le_upper_bound; lia. }
  rewrite to_int_small by lia. lia.
Qed.

Lemma card_megabytes size :
  0 <= size < 17592186044416 ->
  to_int (Z.land (Z.shiftr size 20) 4294967295) = size / 1048576
  /\ 0 <= size / 1048576 < 16777216.
Proof.
  intros H. rewrite Z.shiftr_div_pow2 by lia.
  change (2 ^ 20) with 1048576.
  assert (0 <= size / 1048576 < 16777216) as Hmb.
  { split; [apply Z.div_pos; lia|].
    apply Z.div_lt_upper_bound; lia. }
  split; [|exact Hmb].
  change 4294967295 with (Z.ones 32). rewrite Z.land_ones by lia.
  rewrite Z.mod_small by (change (2 ^ 32) with 4294967296; lia).
  apply to_int_small. lia.
Qed.

Lemma outputs_accounted mbsd outs :
  Forall is_output outs ->
  Forall (accounted mbsd) outs /\ Forall (fun e => ~ is_execvp e) outs.
Proof.
  intros H. split; eapply Forall_impl; try exact H;
    intros [[]| | | | | | | | | | |]; simpl; try contradiction; auto.
Qed.

(** X17.  [process_partition] never gives away more than the card has:
    every menu it shows accounts for the whole card, and when it
    starts the partition script, it does so with some vfat, no
    negative size, and sizes that together fit the card. *)
Theorem process_partition_fits_card env keys shown keys' shown' :
  let k := codes (extra env) in
  let size := get_sdcard_size (extra env) in
  let mbsd := size / 1048576 in
  0 <= size < 17592186044416 ->
  SELECT_BACK k <> SELECT_ITEM k ->
  process_partition env keys shown = Some (keys', shown') ->
  exists new,
    shown' = shown ++ new
    /\ Forall (accounted mbsd) new
    /\ forall argv, Execvp argv ∈ new ->
         exists vf ex sw,
           argv = partsdc vf ex sw
           /\ 0 < vf /\ 0 <= ex /\ 0 <= sw /\ vf + ex + sw <= mbsd.
Proof.
  intros k size mbsd Hsize Hcodes Hrun. unfold process_partition in Hrun.
  fold size in Hrun. fold k in Hrun.
  destruct (size =? 0) eqn:E0.
  { injection Hrun as <- <-. exists [UiPrint SdcardNotReady].
    split; [reflexivity|]. split; [repeat constructor|].
    intros argv Hin. apply list_elem_of_singleton in Hin. discriminate. }
  destruct (card_megabytes size Hsize) as [Emb Hmb]. fold mbsd in Emb, Hmb.
  rewrite Emb in Hrun.
  assert (Hcard : 0 <= mbsd < 2147483648) by lia.
  pose proof (first_table_fits mbsd ltac:(lia)) as Hfit0.
  destruct (partition_loop env mbsd keys _ _)
    as [[[[action t] keys1] shown1]|] eqn:Eloop; [|discriminate].
  cbn [mbind option_bind] in Hrun.
  destruct (partition_loop_fits env mbsd keys _ _ _ _ _ _ Hcard Hfit0 Eloop)
    as (Hfit & Hend & new & -> & Hacc & Hquiet).
  fold k in Hend.
  destruct (partition_menu_accounted mbsd (first_table mbsd) Hcard Hfit0)
    as [Hstart _].
  assert (Hopen : Forall (accounted mbsd)
            [UiClearKeyQueue;
             UiStartMenu (partition_menu mbsd (first_table mbsd))]).
  { apply Forall_cons. split; [exact I|].
    apply Forall_cons. split; [exact Hstart|constructor]. }
  assert (Hopenq : Forall (fun e => ~ is_execvp e)
            [UiClearKeyQueue;
             UiStartMenu (partition_menu mbsd (first_table mbsd))]).
  { apply Forall_cons. split; [auto|].
    apply Forall_cons. split; [auto|constructor]. }
  assert (Hnone : forall l argv,
            Forall (fun e => ~ is_execvp e) l -> Execvp argv ∈ l -> False).
  { intros l argv Hl Hin. rewrite Forall_forall in Hl.
    apply (Hl _ Hin). exact I. }
  assert (Hquit : forall argv,
            Execvp argv ∈ [UiClearKeyQueue;
                           UiStartMenu (partition_menu mbsd (first_table mbsd))]
                          ++ new ++ [UiEndMenu] -> False).
  { intros argv Hin. apply elem_of_app in Hin as [Hin|Hin].
    - now apply (Hnone _ argv) in Hin.
    - apply elem_of_app in Hin as [Hin|Hin].
      + now apply (Hnone _ argv) in Hin.
      + apply list_elem_of_singleton in Hin. discriminate. }
  assert (Hshown : Forall (accounted mbsd)
            ([UiClearKeyQueue;
              UiStartMenu (partition_menu mbsd (first_table mbsd))]
             ++ new ++ [UiEndMenu])).
  { apply Forall_app. split; [exact Hopen|].
    apply Forall_app. split; [exact Hacc|]. now repeat constructor. }
  destruct (action =? SELECT_ITEM k) eqn:Eitem.
  2:{ injection Hrun as <- <-. eexists. rewrite <- !app_assoc.
      split; [reflexivity|]. split; [exact Hshown|].
      intros argv Hin. destruct (Hquit argv Hin). }
  apply Z.eqb_eq in Eitem.
  destruct Hend as [Hback|[_ Hvf]]; [congruence|].
  destruct keys1 as [|[key visible] keys1]; [discriminate|].
  destruct (_ || _).
  2:{ injection Hrun as <- <-. eexists. rewrite <- !app_assoc.
      split; [reflexivity|].
      split.
      - apply Forall_app. split; [exact Hopen|].
        apply Forall_app. split; [exact Hacc|]. now repeat constructor.
      - intros argv Hin.
        apply elem_of_app in Hin as [Hin|Hin].
        + now apply (Hnone _ argv) in Hin.
        + apply elem_of_app in Hin as [Hin|Hin];
            [now apply (Hnone _ argv) in Hin|].
          apply elem_of_cons in Hin as [Hin|Hin]; [discriminate|].
          apply list_elem_of_singleton in Hin. discriminate. }
  match type of Hrun with
  | context [execute ?e ?s ?f ?a ?sh] =>
      destruct (execute_events e s f a sh) as (outs & Hexec & Hshape);
      rewrite Hexec in Hrun
  end.
  cbn [mbind option_bind] in Hrun. injection Hrun as <- <-.
  eexists. rewrite <- !app_assoc. split; [reflexivity|].
  assert (Hparts : Forall (accounted mbsd) outs
                   /\ forall argv, Execvp argv ∈ outs ->
                        argv = partsdc (mbvf t) (mbex t) (mbsw t)).
  { destruct (_ && _).
    - destruct Hshape as (outs' & -> & Hout & _).
      destruct (outputs_accounted mbsd outs' Hout) as [Ha Hq].
      split; [constructor; [exact I|exact Ha]|].
      intros argv Hin. apply elem_of_cons in Hin as [Hin|Hin].
      + now injection Hin as ->.
      + now apply (Hnone _ argv) in Hin.
    - subst outs. split; [constructor|].
      intros argv Hin. now apply elem_of_nil in Hin. }
  destruct Hparts as [Houts Hargv].
  split.
  - apply Forall_app. split; [exact Hopen|].
    apply Forall_app. split; [exact Hacc|].
    constructor; [exact I|].
    apply Forall_app. split; [exact Houts|]. now repeat constructor.
  - intros argv Hin.
    apply elem_of_app in Hin as [Hin|Hin].
    { now apply (Hnone _ argv) in Hin. }
    apply elem_of_app in Hin as [Hin|Hin];
      [now apply (Hnone _ argv) in Hin|].
    apply elem_of_cons in Hin as [Hin|Hin]; [discriminate|].
    apply elem_of_app in Hin as [Hin|Hin].
    + apply Hargv in Hin. subst argv.
      destruct Hfit as (Hv & Hx & Hs & Hsum).
      exists (mbvf t), (mbex t), (mbsw t). repeat split; lia.
    + apply list_elem_of_singleton in Hin. discriminate.
Qed.

Lemma process_partition_fits_card_witness :
  Forall (accounted 2048) partition_shown
  /\ Execvp (partsdc 1433 487 0) ∈ partition_shown
  /\ forall argv, Execvp argv ∈ partition_shown ->
       exists vf ex sw,
         argv = partsdc vf ex sw
         /\ 0 < vf /\ 0 <= ex /\ 0 <= sw /\ vf + ex + sw <= 2048.
Proof.
  destruct (process_partition_fits_card sample_menus partition_keys []
              [] partition_shown)
    as (new & Hnew & Hmenus & Hargv);
    [change (0 <= 2147483648 < 17592186044416); lia | discriminate
     | vm_compute; reflexivity |].
  simpl in Hnew. subst new.
  split; [exact Hmenus|]. split; [|exact Hargv].
  do 6 apply list_elem_of_further. apply list_elem_of_here.
Defined.

End MenuFacts.

Module KeyFacts.
Import CLib RecoveryUI Extra ExtraSpec Menus MenuSpec Examples DescriptorFacts PackingFacts ExecFacts MenuFacts.

Local Open Scope Z_scope.

Lemma device_handle_key_action k key visible :
  let action := device_handle_key k key visible in
  (action = NO_ACTION k
   \/ visible <> 0
      /\ (action = HIGHLIGHT_UP k \/ action = HIGHLIGHT_DOWN k
          \/ action = SELECT_ITEM k \/ action = SELECT_BACK k
          \/ action = SELECT_LEFT k \/ action = SELECT_RIGHT k)).
Proof.
  unfold device_handle_key.
  destruct (visible =? 0) eqn:Ev; cbn [negb]; [now left|].
  apply Z.eqb_neq in Ev.
  repeat (match goal with
          | |- context [if ?c then _ else _] => destruct c
          end; [right; split; [exact Ev|]; tauto|]).
  now left.
Qed.

Lemma highlight_app select items a b :
  highlight select items (a ++ b)
  = fold_left
      (fun item e =>
         match e with
         | UiMenuSelect sel => select items sel
         | _ => item
         end) b (highlight select items a).
Proof. apply fold_left_app. Qed.

Lemma menu_switch_highlight k select items action selected chosen shown :
  selected = highlight select items shown ->
  let '(selected', chosen', moved) :=
    menu_switch k select items action selected chosen in
  selected' = highlight select items (shown ++ moved)
  /\ (chosen' = chosen \/ action = SELECT_ITEM k /\ chosen' = selected').
Proof.
  intros Hsel. unfold menu_switch, move_highlight.
  destruct (action =? HIGHLIGHT_UP k) eqn:Eu; cbn [orb].
  - rewrite highlight_app. simpl. auto.
  - destruct (action =? HIGHLIGHT_DOWN k) eqn:Ed.
    + rewrite highlight_app. simpl. auto.
    + destruct (action =? SELECT_ITEM k) eqn:Ei.
      * apply Z.eqb_eq in Ei. rewrite app_nil_r. auto.
      * rewrite app_nil_r. auto.
Qed.

(** The loop of [get_menu_selection]: it ends on a key that is
    pressed while the text is visible, SELECT_ITEM with the item the
    display has settled on, or SELECT_BACK. *)
Lemma menu_loop_ends k select items menu_only (Hk : actions_apart k) :
  forall keys selected chosen shown c keys' shown',
  chosen < 0 ->
  selected = highlight select items shown ->
  menu_loop k select items menu_only keys selected chosen shown
  = (Some c, keys', shown') ->
  exists before key visible,
    keys = before ++ (key, visible) :: keys'
    /\ visible <> 0
    /\ (device_handle_key k key visible = SELECT_ITEM k
        /\ 0 <= c /\ c = highlight select items shown'
        \/ device_handle_key k key visible = SELECT_BACK k
           /\ c = SELECT_BACK k).
Proof.
  destruct Hk as (Hno & Hup & Hdown & Hitem & Hback & Hleft & Hright
                  & Hni & Hnb).
  induction keys as [|[key visible] keys IH];
    intros selected chosen shown c keys' shown' Hneg Hsel Hrun.
  - cbn [menu_loop] in Hrun.
    destruct (chosen <? 0) eqn:E; [discriminate|].
    apply Z.ltb_ge in E. lia.
  - cbn [menu_loop] in Hrun.
    destruct (chosen <? 0) eqn:E; [clear E|apply Z.ltb_ge in E; lia].
    pose proof (device_handle_key_action k key visible) as Hact.
    cbv zeta in Hact.
    set (action := device_handle_key k key visible) in *.
    assert (Haneg : action < 0) by (destruct Hact as [->|[_ H]]; [lia|];
      destruct H as [->|[->|[->|[->|[->| ->]]]]]; lia).
    destruct (action <? 0) eqn:Ea; [clear Ea|apply Z.ltb_ge in Ea; lia].
    pose proof (menu_switch_highlight k select items action selected chosen
                  shown Hsel) as Hswitch.
    destruct (menu_switch k select items action selected chosen)
      as [[selected' chosen'] moved].
    destruct Hswitch as [Hsel' Hchosen].
    assert (Hvis : action = SELECT_ITEM k \/ action = SELECT_BACK k ->
                   visible <> 0).
    { intros Hor. destruct Hact as [Hno'|[Hv _]]; [|exact Hv].
      destruct Hor; congruence. }
    destruct (action =? SELECT_BACK k) eqn:Eb.
    + apply Z.eqb_eq in Eb. injection Hrun as <- <- <-.
      exists [], key, visible. split; [reflexivity|].
      split; [apply Hvis; now right|]. right. auto.
    + destruct (decide (chosen' < 0)) as [Hneg'|Hpos].
      * destruct (IH _ _ _ _ _ _ Hneg' Hsel' Hrun)
          as (before & key' & visible' & -> & Hv & Hend).
        exists ((key, visible) :: before), key', visible'.
        split; [reflexivity|]. auto.
      * destruct Hchosen as [->|[Hi ->]]; [lia|].
        destruct keys as [|kp keys]; cbn [menu_loop] in Hrun.
        -- destruct (selected' <? 0) eqn:E;
             [apply Z.ltb_lt in E; lia|].
           injection Hrun as <- <- <-.
           exists [], key, visible. split; [reflexivity|].
           split; [apply Hvis; now left|]. left.
           split; [exact Hi|]. split; [lia|exact Hsel'].
        -- destruct (selected' <? 0) eqn:E;
             [apply Z.ltb_lt in E; lia|].
           injection Hrun as <- <- <-.
           exists [], key, visible. split; [reflexivity|].
           split; [apply Hvis; now left|]. left.
           split; [exact Hi|]. split; [lia|exact Hsel'].
Qed.

Lemma formatted_app a b : formatted (a ++ b) = formatted a ++ formatted b.
Proof. apply omap_app. Qed.

Lemma menu_switch_quiet k select items action selected chosen :
  formatted (snd (menu_switch k select items action selected chosen)) = [].
Proof.
  unfold menu_switch, move_highlight.
  destruct (action =? HIGHLIGHT_UP k); cbn [orb]; [reflexivity|].
  destruct (action =? HIGHLIGHT_DOWN k); [reflexivity|].
  destruct (action =? SELECT_ITEM k); reflexivity.
Qed.

Lemma menu_loop_quiet k select items menu_only :
  forall keys selected chosen shown,
  formatted (snd (menu_loop k select items menu_only keys selected chosen
                    shown))
  = formatted shown.
Proof.
  induction keys as [|[key visible] keys IH]; intros selected chosen shown;
    cbn [menu_loop].
  - destruct (chosen <? 0); reflexivity.
  - destruct (chosen <? 0); [|reflexivity].
    destruct (device_handle_key k key visible <? 0).
    + pose proof (menu_switch_quiet k select items
                    (device_handle_key k key visible) selected chosen) as Hq.
      destruct (menu_switch _ _ _ _ _ _) as [[selected' chosen'] moved].
      simpl in Hq.
      destruct (_ =? SELECT_BACK k).
      * simpl. now rewrite formatted_app, Hq, app_nil_r.
      * rewrite IH. now rewrite formatted_app, Hq, app_nil_r.
    + destruct (menu_only =? 0); apply IH.
Qed.

Lemma get_menu_selection_quiet k select m menu_only keys :
  formatted (snd (get_menu_selection k select m menu_only keys)) = [].
Proof.
  unfold get_menu_selection.
  pose proof (menu_loop_quiet k select (menu_items m) menu_only keys 0 (-1)
                [UiClearKeyQueue; UiStartMenu m]) as Hq.
  destruct (menu_loop _ _ _ _ _ _ _ _) as [[chosen keys'] shown].
  simpl in Hq. destruct chosen; simpl.
  - now rewrite formatted_app, Hq.
  - exact Hq.
Qed.

Lemma highlight_end select items shown :
  highlight select items (shown ++ [UiEndMenu]) = highlight select items shown.
Proof. now rewrite highlight_app. Qed.

(** [get_menu_selection] returns only on a key pressed while the
    text is visible: on SELECT_ITEM, with the item the display has
    settled on, or on SELECT_BACK, with SELECT_BACK.  Keys pressed
    while the text is hidden choose nothing. *)
Lemma get_menu_selection_ends k select m menu_only keys c keys' shown :
  actions_apart k ->
  get_menu_selection k select m menu_only keys = (Some c, keys', shown) ->
  exists before key visible,
    keys = before ++ (key, visible) :: keys'
    /\ visible <> 0
    /\ (device_handle_key k key visible = SELECT_ITEM k
        /\ 0 <= c /\ c = highlight select (menu_items m) shown
        \/ device_handle_key k key visible = SELECT_BACK k
           /\ c = SELECT_BACK k).
Proof.
  intros Hk. unfold get_menu_selection.
  destruct (menu_loop _ _ _ _ _ _ _ _) as [[chosen keys1] shown1] eqn:Eloop.
  destruct chosen as [c'|]; [|discriminate].
  intros [= <- <- <-].
  destruct (menu_loop_ends k select (menu_items m) menu_only Hk keys 0 (-1)
              [UiClearKeyQueue; UiStartMenu m] c' keys1 shown1
              ltac:(lia) eq_refl Eloop)
    as (before & key & visible & Hkeys & Hv & Hend).
  exists before, key, visible. split; [exact Hkeys|]. split; [exact Hv|].
  rewrite highlight_end. exact Hend.
Qed.

(** X15.  When the actions are negative numbers, [get_menu_selection]
    returns only on a key pressed while the text is visible: on
    SELECT_ITEM, with the item the display has settled on, or on
    SELECT_BACK, with SELECT_BACK.  Keys pressed while the text is
    hidden choose nothing, whatever [menu_only] is. *)
Theorem get_menu_selection_returns_on_visible_key k select m menu_only keys c
    keys' shown :
  actions_apart k ->
  get_menu_selection k select m menu_only keys = (Some c, keys', shown) ->
  exists before key visible,
    keys = before ++ (key, visible) :: keys'
    /\ visible <> 0
    /\ (device_handle_key k key visible = SELECT_ITEM k
        /\ 0 <= c /\ c = highlight select (menu_items m) shown
        \/ device_handle_key k key visible = SELECT_BACK k
           /\ c = SELECT_BACK k).
Proof. apply get_menu_selection_ends. Qed.

Lemma sample_codes_apart : actions_apart sample_codes.
Proof. unfold actions_apart. simpl. lia. Qed.

Lemma get_menu_selection_returns_on_visible_key_witness :
  exists before key visible,
    [(28, 0); (108, 1); (28, 1); (158, 1)] = before ++ [(key, visible); (158, 1)]
    /\ visible <> 0
    /\ (device_handle_key sample_codes key visible = SELECT_ITEM sample_codes
        /\ 0 <= 1
        /\ 1 = highlight sample_select 2
                 [UiClearKeyQueue; UiStartMenu ConfirmWipe; UiMenuSelect 1;
                  UiEndMenu]
        \/ device_handle_key sample_codes key visible
           = SELECT_BACK sample_codes
           /\ 1 = SELECT_BACK sample_codes).
Proof.
  apply (get_menu_selection_returns_on_visible_key sample_codes sample_select
           ConfirmWipe 1 [(28, 0); (108, 1); (28, 1); (158, 1)] 1
           [(158, 1)]
           [UiClearKeyQueue; UiStartMenu ConfirmWipe; UiMenuSelect 1;
            UiEndMenu]).
  - exact sample_codes_apart.
  - vm_compute. reflexivity.
Defined.

(** X16.  [wipe_data] formats DATA: and then CACHE:, or formats nothing.
    When it was told to ask, it formats only after SELECT_ITEM was
    pressed with the text visible and the second item, the one that
    says yes, highlighted. *)
Theorem wipe_data_asks_first env confirm keys shown keys' shown' :
  let k := codes (extra env) in
  actions_apart k ->
  wipe_data env confirm keys shown = Some (keys', shown') ->
  exists new,
    shown' = shown ++ new
    /\ (formatted new = [] \/ formatted new = [cs "DATA:"; cs "CACHE:"])
    /\ (confirm <> 0 -> formatted new <> [] ->
        exists before key visible,
          keys = before ++ (key, visible) :: keys'
          /\ visible <> 0
          /\ device_handle_key k key visible = SELECT_ITEM k
          /\ highlight (ui_menu_select (extra env)) 2 new = 1).
Proof.
  intros k Hk. unfold wipe_data, erase_root. fold k.
  destruct (confirm =? 0) eqn:Ec; cbn [negb].
  { apply Z.eqb_eq in Ec. intros [= <- <-]. eexists.
    rewrite <- !app_assoc. split; [reflexivity|].
    split; [now right|]. intros H. contradiction. }
  pose proof (get_menu_selection_quiet k (ui_menu_select (extra env))
                ConfirmWipe 1 keys) as Hquiet.
  destruct (get_menu_selection _ _ _ _ _) as [[chosen keys1] asked] eqn:Emenu.
  simpl in Hquiet.
  destruct chosen as [c|]; cbn [mbind option_bind]; [|discriminate].
  destruct (c =? 1) eqn:E1; cbn [negb].
  2:{ intros [= <- <-]. exists asked. split; [reflexivity|].
      split; [now left|]. intros _ H. now rewrite Hquiet in H. }
  apply Z.eqb_eq in E1. subst c. intros [= <- <-].
  eexists. rewrite <- !app_assoc. split; [reflexivity|].
  rewrite !formatted_app, Hquiet.
  split; [now right|]. intros _ _.
  destruct (get_menu_selection_ends _ _ _ _ _ _ _ _ Hk Emenu)
    as (before & key & visible & Hkeys & Hv & Hend).
  exists before, key, visible. split; [exact Hkeys|]. split; [exact Hv|].
  destruct Hend as [(Hi & _ & Hh)|[_ Hb]].
  - split; [exact Hi|]. rewrite highlight_app. cbn [app fold_left].
    change (menu_items ConfirmWipe) with 2%nat in Hh. rewrite <- Hh.
    reflexivity.
  - destruct Hk as (_ & _ & _ & _ & Hback & _). lia.
Qed.

Lemma wipe_data_asks_first_witness :
  formatted confirm_shown = [cs "DATA:"; cs "CACHE:"]
  /\ exists before key visible,
       confirm_keys = before ++ [(key, visible)]
       /\ visible <> 0
       /\ device_handle_key sample_codes key visible = SELECT_ITEM sample_codes
       /\ highlight sample_select 2 confirm_shown = 1.
Proof.
  destruct (wipe_data_asks_first sample_menus 1 confirm_keys [] []
              confirm_shown sample_codes_apart)
    as (new & Hnew & _ & Hasked); [vm_compute; reflexivity|].
  simpl in Hnew. subst new.
  split; [reflexivity|]. apply Hasked; [lia|discriminate].
Defined.

End KeyFacts.

Module SplashFacts.
Import CLib RecoveryUI Extra ExtraSpec Menus MenuSpec Examples DescriptorFacts
  ExecFacts.

Local Open Scope Z_scope.

Lemma ensure_write_ret fd data size ret fd' :
  ensure_write fd data size = Some (ret, fd') -> ret = 0 \/ ret = -1.
Proof.
  unfold ensure_write. destruct (_ <? size); [discriminate|].
  destruct (ensure_write_loop _ _ _ _ _) as [[n s]|]; [|discriminate].
  cbn [mbind option_bind]. intros [= <- _]. destruct (n =? size); auto.
Qed.

Lemma bmp_to_565_ret env files in_ out ret files' :
  bmp_to_565 env files in_ out = Some (ret, files') -> ret = 0 \/ ret = -1.
Proof.
  unfold bmp_to_565.
  destruct (bmp_info env files in_) as [[[x y]|]|];
    cbn [mbind option_bind]; [|intros [= <- _]; auto|discriminate].
  destruct (bmp_load env files in_) as [[data|]|];
    cbn [mbind option_bind]; [|intros [= <- _]; auto|discriminate].
  destruct (bmp_convert env data) as [[logo|]|];
    cbn [mbind option_bind]; [|intros [= <- _]; auto|discriminate].
  destruct (creatable env out); cbn [negb]; [|intros [= <- _]; auto].
  destruct (ensure_write _ _ _) as [[r fd]|] eqn:E;
    cbn [mbind option_bind]; [|discriminate].
  intros [= <- _]. exact (ensure_write_ret _ _ _ _ _ E).
Qed.

(** X22.  The only program [install_bmp_file] starts is the flash
    script, and only on the output of a conversion that has succeeded: with
    SDCARD: mounted, the size of the screen known and [bmp_to_565]
    returned 0 for the file.  Under these conditions it does start
    it, unless [malloc], [pipe] or [fork] fails; the size of the
    bitmap is not among them: a bitmap of another size than the
    screen is flashed all the same. *)
Theorem install_bmp_file_flashes_converted env file files shown files'
    shown' :
  install_bmp_file env file files shown = Some (files', shown') ->
  let converted :=
    ensure_root_path_mounted env (cs "SDCARD:") = 0
    /\ is_Some (get_screen_xy (extra env))
    /\ bmp_to_565 (extra env) files file RGB565_SPLASH_FILE
       = Some (0, files') in
  exists new,
    shown' = shown ++ new
    /\ (forall argv, Execvp argv ∈ new -> argv = flash_splash /\ converted)
    /\ (converted ->
        malloc (extra env) 20 && pipe_ok (extra env) && fork_ok (extra env)
        = true ->
        Execvp flash_splash ∈ new).
Proof.
  intros Hrun converted. subst converted. revert Hrun.
  unfold install_bmp_file.
  destruct (ensure_root_path_mounted env (cs "SDCARD:") =? 0) eqn:Emount;
    cbn [negb].
  2:{ intros [= <- <-]. exists []. rewrite app_nil_r.
      split; [reflexivity|]. split.
      - intros argv Hin. now apply not_elem_of_nil in Hin.
      - intros (Hm & _) _. apply Z.eqb_neq in Emount. contradiction. }
  apply Z.eqb_eq in Emount.
  destruct (get_screen_xy (extra env)) as [[sx sy]|] eqn:Escreen.
  2:{ intros [= <- <-]. eexists. split; [reflexivity|]. split.
      - intros argv Hin. apply list_elem_of_singleton in Hin. discriminate.
      - intros (_ & [? Hs] & _) _. discriminate. }
  destruct (bmp_info (extra env) files file) as [[[bx by_]|]|] eqn:Einfo;
    cbn [mbind option_bind]; [| |discriminate].
  2:{ intros [= <- <-]. eexists. split; [reflexivity|]. split.
      - intros argv Hin. apply list_elem_of_singleton in Hin. discriminate.
      - intros (_ & _ & Hconv) _. unfold bmp_to_565 in Hconv.
        rewrite Einfo in Hconv. discriminate. }
  set (warned := if negb (sx =? bx) || negb (sy =? by_)
                 then shown ++ [UiPrint (SizeWarning sx sy bx by_)]
                 else shown).
  assert (Hwarned : exists w, warned = shown ++ w
                    /\ forall argv, Execvp argv ∉ w).
  { subst warned. destruct (_ || _).
    - eexists. split; [reflexivity|]. intros argv Hin.
      apply list_elem_of_singleton in Hin. discriminate.
    - exists []. rewrite app_nil_r. split; [reflexivity|].
      intros argv. apply not_elem_of_nil. }
  destruct Hwarned as (w & -> & Hw).
  destruct (bmp_to_565 (extra env) files file RGB565_SPLASH_FILE)
    as [[ret files1]|] eqn:Econv; cbn [mbind option_bind]; [|discriminate].
  destruct (bmp_to_565_ret _ _ _ _ _ _ Econv) as [-> | ->].
  2:{ change (-1 <? 0) with true. cbn iota.
      intros [= <- <-]. eexists. rewrite <- app_assoc.
      split; [reflexivity|]. split.
      - intros argv Hin. apply elem_of_app in Hin as [Hin|Hin].
        + now apply Hw in Hin.
        + apply list_elem_of_singleton in Hin. discriminate.
      - intros (_ & _ & [=]) _. }
  change (0 <? 0) with false. cbn iota.
  destruct (execute_events (extra env) 1 (cs "/bin/sh")
              (Some [cs "/sbin/flash.sh"; cs "splash"; RGB565_SPLASH_FILE])
              (shown ++ w)) as (new & -> & Hnew).
  cbn [mbind option_bind]. intros [= <- <-].
  exists (w ++ new). rewrite app_assoc. split; [reflexivity|].
  change (4 * (Z.of_nat (length (default [] (Some
            [cs "/sbin/flash.sh"; cs "splash"; RGB565_SPLASH_FILE]))) + 2))
    with 20 in Hnew.
  destruct (malloc (extra env) 20 && pipe_ok (extra env)
            && fork_ok (extra env)).
  - destruct Hnew as (outs & -> & Houts & _). split.
    + intros argv Hin. apply elem_of_app in Hin as [Hin|Hin].
      { now apply Hw in Hin. }
      apply elem_of_cons in Hin as [[= ->]|Hin].
      * split; [reflexivity|]. split; [exact Emount|].
        split; [now eexists|reflexivity].
      * rewrite Forall_forall in Houts. now apply Houts in Hin.
    + intros _ _. apply elem_of_app. right. apply list_elem_of_here.
  - subst new. split.
    + intros argv Hin. rewrite app_nil_r in Hin. now apply Hw in Hin.
    + intros _ [=].
Qed.

Lemma install_bmp_file_flashes_converted_witness :
  Execvp flash_splash ∈ splash_shown
  /\ UiPrint (SizeWarning 320 480 2 2) ∈ splash_shown
  /\ splash_files !! RGB565_SPLASH_FILE
     = Some (short_bytes (map (fun '(r, g, b) => convert r g b)
                            [(0, 0, 255); (255, 255, 255);
                             (255, 0, 0); (0, 255, 0)])
             ++ cs "89").
Proof.
  destruct (install_bmp_file_flashes_converted sample_menus logo_path
              sample_files [] splash_files splash_shown)
    as (new & Hnew & _ & Hflash); [vm_compute; reflexivity|].
  simpl in Hnew. subst new. split.
  - apply Hflash; [|reflexivity].
    split; [reflexivity|]. split; [now eexists|]. vm_compute. reflexivity.
  - split; [apply list_elem_of_here|]. vm_compute. reflexivity.
Defined.

End SplashFacts.
